(** * mackerel-agent, package command: the delivery pipeline and scheduler

    A shallow embedding of [command/command.go]: host registration with its
    bounded retries ([prepareHost]), the per-host delay ([delayByHost]), the
    metric ingestion step ([enqueueLoop]), the post-queue scheduler ([loop]),
    the checker runner ([runCheckersLoop]) and [Run].

    Integers of Go ([int], [uint], [int64]) are [Z]; no computation of the
    file comes near the 64-bit bounds.  Go strings are [string].  A [float64]
    is a [spec_float] (IEEE 754 binary64 by classes: zero, infinity, NaN,
    finite).  Goroutines and channels are modelled by explicit state passing:
    what the other tasks and the clock do is an input of each step. *)

From Stdlib Require Import ZArith Zquot List String Ascii Bool Lia.
From Stdlib Require Import Permutation.
From Stdlib Require Import Floats.SpecFloat.
Import ListNotations.
Local Open Scope string_scope.
Local Open Scope list_scope.
Local Open Scope Z_scope.

(** Go's [len] on slices and channels. *)
Local Abbreviation len := (@Datatypes.length _).

(** ** crypto/sha1 *)

(** [sha1.Sum] of the Go standard library (FIPS 180-4, SHA-1), on bytes as
    [Z] in 0..255 and 32-bit words as [Z] with the wrap-around written out. *)
Module sha1.

Definition Size : nat := 20.

Definition w32 (x : Z) : Z := x mod 2 ^ 32.

Definition add32 (x y : Z) : Z := w32 (x + y).

Definition rotl (n x : Z) : Z :=
  w32 (Z.lor (Z.shiftl x n) (Z.shiftr x (32 - n))).

(** Big-endian bytes of a word, most significant first. *)
Definition be_bytes (n : nat) (x : Z) : list Z :=
  map (fun i => Z.shiftr x (8 * Z.of_nat i) mod 256) (rev (seq 0 n)).

Definition be_word (bs : list Z) : Z :=
  fold_left (fun acc b => acc * 256 + b) bs 0.

(** Message padding: one 0x80 byte, zeros up to 56 modulo 64, then the
    length in bits on 8 bytes. *)
Definition pad (msg : list Z) : list Z :=
  let n := Z.of_nat (len msg) in
  msg ++ [128] ++ repeat 0 (Z.to_nat ((55 - n) mod 64)) ++ be_bytes 8 (8 * n).

Fixpoint chunks {A} (fuel n : nat) (l : list A) : list (list A) :=
  match fuel, l with
  | O, _ => []
  | _, [] => []
  | S fuel', _ => firstn n l :: chunks fuel' n (skipn n l)
  end.

Definition words_of (bs : list Z) : list Z :=
  map be_word (chunks (len bs) 4 bs).

(** The message schedule, kept latest word first while it grows. *)
Fixpoint expand (k : nat) (ws : list Z) : list Z :=
  match k with
  | O => ws
  | S k' =>
      let x := Z.lxor (Z.lxor (nth 2 ws 0) (nth 7 ws 0))
                      (Z.lxor (nth 13 ws 0) (nth 15 ws 0)) in
      expand k' (rotl 1 x :: ws)
  end.

Definition schedule (block : list Z) : list Z :=
  rev (expand 64 (rev block)).

Record digest := Digest { h0 : Z; h1 : Z; h2 : Z; h3 : Z; h4 : Z }.

Definition init : digest :=
  Digest 0x67452301 0xEFCDAB89 0x98BADCFE 0x10325476 0xC3D2E1F0.

Definition round_fk (i : nat) (b c d : Z) : Z * Z :=
  if (i <? 20)%nat then (Z.lor (Z.land b c) (Z.ldiff d b), 0x5A827999)
  else if (i <? 40)%nat then (Z.lxor (Z.lxor b c) d, 0x6ED9EBA1)
  else if (i <? 60)%nat then
    (Z.lor (Z.lor (Z.land b c) (Z.land b d)) (Z.land c d), 0x8F1BBCDC)
  else (Z.lxor (Z.lxor b c) d, 0xCA62C1D6).

Definition round (st : digest) (iw : nat * Z) : digest :=
  let '(i, w) := iw in
  let '(f, k) := round_fk i (h1 st) (h2 st) (h3 st) in
  let t := add32 (add32 (add32 (add32 (rotl 5 (h0 st)) f) (h4 st)) k) w in
  Digest t (h0 st) (rotl 30 (h1 st)) (h2 st) (h3 st).

Definition block (h : digest) (blk : list Z) : digest :=
  let r := fold_left round (combine (seq 0 80) (schedule blk)) h in
  Digest (add32 (h0 h) (h0 r)) (add32 (h1 h) (h1 r)) (add32 (h2 h) (h2 r))
         (add32 (h3 h) (h3 r)) (add32 (h4 h) (h4 r)).

Definition checkSum (msg : list Z) : digest :=
  let ws := words_of (pad msg) in
  fold_left block (chunks (len ws) 16 ws) init.

(** [Sum(data) [Size]byte]. *)
Definition Sum (data : list Z) : list Z :=
  let d := checkSum data in
  flat_map (be_bytes 4) [h0 d; h1 d; h2 d; h3 d; h4 d].

End sha1.

(** [[]byte(s)] for a Go string. *)
Definition bytes_of_string (s : string) : list Z :=
  map (fun c => Z.of_N (N_of_ascii c)) (list_ascii_of_string s).

(** ** Types of the packages the file imports *)

(** Modelled from the spec: the type [mackerel.Error] and its method
    [IsClientError] are declared in package mackerel, not in this file; the
    spec classifies an API error as a client error (authentication,
    validation) or a transient one.  An [error] is a Go error value that is
    not nil; a possibly nil one is an [option error]. *)
Inductive error : Type :=
| MackerelError (clientError : bool) (msg : string)   (* a *mackerel.Error *)
| ErrorString (msg : string).                         (* any other error *)

(** [err.Error()]. *)
Definition Error (e : error) : string :=
  match e with
  | MackerelError _ msg => msg
  | ErrorString msg => msg
  end.

(** The test of [filterErrorForRetry]: the error is a [mackerel.Error] and
    its [IsClientError()] holds. *)
Definition isClientError (e : error) : bool :=
  match e with
  | MackerelError clientError _ => clientError
  | ErrorString _ => false
  end.

(** [fmt.Errorf(prefix + "%s", err.Error())]. *)
Definition Errorf (prefix : string) (e : error) : error :=
  ErrorString (prefix ++ Error e)%string.

(** The one-character string that holds a double quote, for the messages
    that quote a value. *)
Definition doubleQuote : string :=
  String (Ascii false true false false false true false false) EmptyString.

(** [mackerel.Host], with the fields the file reads. *)
Record Host : Type := mkHost {
  ID : string;
  Name : string;
  Status : string
}.

(** [mackerel.HostSpec].  [Meta] (a [map[string]interface{}]) and
    [Interfaces] are opaque to this file and kept as they were collected. *)
Record HostSpec : Type := mkHostSpec {
  spec_Name : string;
  spec_Meta : list (string * string);
  spec_Interfaces : list string;
  spec_RoleFullnames : list string;
  spec_DisplayName : string;
  spec_CustomIdentifier : string
}.

(** [mackerel.CreatingMetricsValue].  [Time] is [float64(result.Created.Unix())],
    a whole number of seconds. *)
Record CreatingMetricsValue : Type := mkValue {
  HostID : string;
  MetricName : string;
  Time : Z;
  Value : spec_float
}.

(** [math.IsNaN] and [math.IsInf]. *)
Definition IsNaN (f : spec_float) : bool :=
  match f with
  | S754_nan => true
  | _ => false
  end.

Definition IsInf (f : spec_float) (sign : Z) : bool :=
  match f with
  | S754_infinity neg =>
      ((0 <=? sign) && negb neg) || ((sign <=? 0) && neg)
  | _ => false
  end.

(** [metrics.ValuesCustomIdentifier]: [Values] is a [map[string]float64],
    given here as the sequence of entries in the order [range] visits them. *)
Record ValuesCustomIdentifier : Type := mkValues {
  Values : list (string * spec_float);
  CustomIdentifier : option string
}.

(** [agent.MetricsResult]; [Created] as Unix seconds. *)
Record MetricsResult : Type := mkResult {
  Created : Z;
  ResultValues : list ValuesCustomIdentifier
}.

(** [config.Config] with the fields the file reads, [Connection] and
    [HostStatus] flattened.  [PostMetricsInterval] is the package variable
    [config.PostMetricsInterval] as [int(config.PostMetricsInterval.Seconds())]. *)
Record Config : Type := mkConfig {
  PostMetricsInterval : Z;
  PostMetricsBufferSize : Z;
  PostMetricsDequeueDelaySeconds : Z;
  PostMetricsRetryDelaySeconds : Z;
  PostMetricsRetryMax : Z;
  OnStart : string;
  OnStop : string;
  Roles : list string;
  DisplayName : string
}.

(** [Context]; [Agent] and [API] are the collaborators, given to each
    function as what they answer. *)
Record Context : Type := mkContext {
  ctxConfig : Config;
  ctxHost : Host;
  CustomIdentifierHosts : list (string * Host)
}.

(** Lookup in a [map[string]*mackerel.Host]. *)
Fixpoint lookupHost (m : list (string * Host)) (k : string) : option Host :=
  match m with
  | [] => None
  | (k', h) :: m' => if String.eqb k' k then Some h else lookupHost m' k
  end.

(** ** delayByHost *)

(** [int(s[len(s)-1]) % int(config.PostMetricsInterval.Seconds())].  Go's [%]
    truncates like [Z.rem]; it panics on a zero divisor, where [Z.rem]
    returns the dividend, so the results below ask for a positive interval. *)
Definition delayByHost (conf : Config) (host : Host) : Z :=
  let s := sha1.Sum (bytes_of_string (ID host)) in
  Z.rem (nth (sha1.Size - 1) s 0) (PostMetricsInterval conf).

(** ** prepareHost *)

Definition retryNum : nat := 20.

(** [retryInterval], in seconds. *)
Definition retryInterval : Z := 3.

(** What [prepareHost] does that can be seen from outside, in order: the
    warnings it logs, its sleeps between attempts, its remote calls with
    their answers and the saving of the host ID. *)
Inductive hostEvent : Type :=
| Warningf (msg : string)
| Sleep (seconds : Z)
| CallFindHostByCustomIdentifier (customIdentifier : string) (r : Host + error)
| CallCreateHost (spec : HostSpec) (r : string + error)
| CallFindHost (id : string) (r : Host + error)
| CallUpdateHostStatus (id status : string) (r : option error)
| CallSaveHostID (id : string) (r : option error).

(** Modelled from the spec: the methods of [mackerel.API] are declared in
    package mackerel, not in this file.  A call gives a value or an error, as
    in the spec's interface
    ([FindHost(hostID) -> Host | NotFoundError | TransientError]).  An
    answer may depend on everything that happened before (earlier calls,
    time slept). *)
Record API : Type := mkAPI {
  FindHostByCustomIdentifier : list hostEvent -> string -> Host + error;
  CreateHost : list hostEvent -> HostSpec -> string + error;
  FindHost : list hostEvent -> string -> Host + error;
  UpdateHostStatus : list hostEvent -> string -> string -> option error
}.

(** [conf.LoadHostID()], [conf.SaveHostID] and, when [conf.HostIDStorage] is
    a [config.FileSystemHostIDStorage], its [HostIDFile()]. *)
Record HostIDStorage : Type := mkStorage {
  LoadHostID : string * option error;
  SaveHostID : string -> option error;
  HostIDFile : option string
}.

(** The values [collectHostSpecs] returns when it does not fail. *)
Record hostSpecs : Type := mkSpecs {
  hostname : string;
  meta : list (string * string);
  interfaces : list string;
  customIdentifier : string
}.

(** The variables of [prepareHost] that its closures assign, and the events
    so far. *)
Record vars : Type := mkVars {
  result : option Host;
  hostID : string;
  lastErr : option error;
  events : list hostEvent
}.

Definition emit (ev : hostEvent) (s : vars) : vars :=
  mkVars (result s) (hostID s) (lastErr s) (events s ++ [ev]).

(** Modelled from the spec: [retry.Retry] of github.com/Songmu/retry is not
    in this file.  It is the bounded retry policy (fixed attempt count, fixed
    spacing): it calls [fn] until [fn] returns nil or [n] calls were made,
    sleeping [interval] between two calls, and returns the last answer. *)
Fixpoint Retry (n : nat) (interval : Z) (fn : vars -> option error * vars)
    (s : vars) : option error * vars :=
  match n with
  | O => (None, s)
  | S n' =>
      let (err, s') := fn s in
      match err, n' with
      | None, _ => (None, s')
      | Some _, O => (err, s')
      | Some _, S _ => Retry n' interval fn (emit (Sleep interval) s')
      end
  end.

Definition doRetry (f : vars -> option error * vars) (s : vars) : vars :=
  snd (Retry retryNum retryInterval f s).

Definition filterErrorForRetry (err : option error) (s : vars)
  : option error * vars :=
  match err with
  | Some e =>
      let s := emit (Warningf (Error e)) s in
      if isClientError e
      then (None, s) (* don't retry when client error occurred *)
      else (err, s)
  | None => (None, s)
  end.

(** The closures handed to [retry.Retry].  A call that fails leaves the
    zero value in the variable it assigns besides [lastErr] (nil, the empty
    string). *)
Definition tryFindHostByCustomIdentifier (api : API) (ci : string) (s : vars)
  : option error * vars :=
  let r := FindHostByCustomIdentifier api (events s) ci in
  let s := emit (CallFindHostByCustomIdentifier ci r) s in
  let s := match r with
           | inl h => mkVars (Some h) (hostID s) None (events s)
           | inr e => mkVars None (hostID s) (Some e) (events s)
           end in
  filterErrorForRetry (lastErr s) s.

Definition tryCreateHost (api : API) (spec : HostSpec) (s : vars)
  : option error * vars :=
  let r := CreateHost api (events s) spec in
  let s := emit (CallCreateHost spec r) s in
  let s := match r with
           | inl id => mkVars (result s) id None (events s)
           | inr e => mkVars (result s) "" (Some e) (events s)
           end in
  filterErrorForRetry (lastErr s) s.

Definition tryFindHost (api : API) (s : vars) : option error * vars :=
  let r := FindHost api (events s) (hostID s) in
  let s := emit (CallFindHost (hostID s) r) s in
  let s := match r with
           | inl h => mkVars (Some h) (hostID s) None (events s)
           | inr e => mkVars None (hostID s) (Some e) (events s)
           end in
  filterErrorForRetry (lastErr s) s.

Definition tryUpdateHostStatus (api : API) (id hostSt : string) (s : vars)
  : option error * vars :=
  let r := UpdateHostStatus api (events s) id hostSt in
  let s := emit (CallUpdateHostStatus id hostSt r) s in
  let s := mkVars (result s) (hostID s) r (events s) in
  filterErrorForRetry (lastErr s) s.

(** Go's panic on [result.Status] or [result.ID] with [result == nil]; the
    branches that return it are never taken ([prepareHost_no_nil]). *)
Definition nilDereference : error :=
  ErrorString "runtime error: invalid memory address or nil pointer dereference".

(** The end of [prepareHost]: [lastErr = conf.SaveHostID(result.ID)]. *)
Definition saveHostID (store : HostIDStorage) (r : Host) (s : vars)
  : (Host + error) * list hostEvent :=
  let saved := SaveHostID store (ID r) in
  let s := emit (CallSaveHostID (ID r) saved) s in
  match saved with
  | Some e => (inr (Errorf "Failed to save host ID: " e), events s)
  | None => (inl r, events s)
  end.

(** [prepareHost] from [hostSt := conf.HostStatus.OnStart] on. *)
Definition setStatusAndSave (conf : Config) (store : HostIDStorage) (api : API)
    (s : vars) : (Host + error) * list hostEvent :=
  match result s with
  | None => (inr nilDereference, events s)
  | Some r =>
      let hostSt := OnStart conf in
      if negb (String.eqb hostSt "") && negb (String.eqb hostSt (Status r))
      then
        let s := doRetry (tryUpdateHostStatus api (ID r) hostSt) s in
        match lastErr s with
        | Some e =>
            (inr (Errorf ("Failed to set default host status: " ++ hostSt ++ ", ") e),
             events s)
        | None => saveHostID store r s
        end
      else saveHostID store r s
  end.

(** [prepareHost(conf, api)], given what [collectHostSpecs()] returned.
    The two [os.Setenv] and the debug log are left out. *)
Definition prepareHost (conf : Config) (store : HostIDStorage)
    (collected : hostSpecs + error) (api : API)
  : (Host + error) * list hostEvent :=
  match collected with
  | inr e => (inr (Errorf "error while collecting host specs: " e), [])
  | inl sp =>
      let s := mkVars None (fst (LoadHostID store)) None [] in
      match snd (LoadHostID store) with
      | Some _ => (* create *)
          let s :=
            if negb (String.eqb (customIdentifier sp) "")
            then
              let s := snd (Retry 3 2
                         (tryFindHostByCustomIdentifier api (customIdentifier sp)) s) in
              match result s with
              | Some r => mkVars (result s) (ID r) (lastErr s) (events s)
              | None => s
              end
            else s in
          match result s with
          | None =>
              let spec := mkHostSpec (hostname sp) (meta sp) (interfaces sp)
                            (Roles conf) (DisplayName conf) (customIdentifier sp) in
              let s := doRetry (tryCreateHost api spec) s in
              match lastErr s with
              | Some e => (inr (Errorf "Failed to register this host: " e), events s)
              | None =>
                  let s := doRetry (tryFindHost api) s in
                  match lastErr s with
                  | Some e =>
                      (inr (Errorf "Failed to find this host on mackerel: " e),
                       events s)
                  | None => setStatusAndSave conf store api s
                  end
              end
          | Some _ => setStatusAndSave conf store api s
          end
      | None => (* check the hostID is valid or not *)
          let s := doRetry (tryFindHost api) s in
          match lastErr s with
          | Some e =>
              match HostIDFile store with
              | Some file =>
                  (inr (Errorf ("Failed to find this host on mackerel (You may want to delete file "
                                ++ doubleQuote ++ file ++ doubleQuote ++
                                " to register this host to an another organization): ") e),
                   events s)
              | None =>
                  (inr (Errorf "Failed to find this host on mackerel: " e), events s)
              end
          | None => setStatusAndSave conf store api s
          end
      end
  end.

(** ** postValue and the ingestion loop *)

Record postValue : Type := mkPostValue {
  values : list CreatingMetricsValue;
  retryCnt : Z
}.

Definition newPostValue (values : list CreatingMetricsValue) : postValue :=
  mkPostValue values 0.

(** What the loops log and do towards their collaborators. *)
Inductive event : Type :=
| LogInvalidValue (hostID name : string) (value : spec_float)
| After (seconds : Z)              (* a timer [time.After(seconds * time.Second)] *)
| InitPluginGenerators
| StartCheckers                    (* [runCheckersLoop(c, termCheckerCh, quit)] *)
| PostMetricsValues (postValues : list CreatingMetricsValue) (err : option error)
| LogPostFailed (err : error)
| LogAbandoned (json : option (list CreatingMetricsValue))
| CallUpdateHostStatusOnStop (id status : string) (e : option error)
| LogStatusOnStopFailed (e : error).

(** The inner [for name, value := range values.Values] of [enqueueLoop]. *)
Fixpoint appendValues (hostID : string) (created : Z)
    (entries : list (string * spec_float))
    (acc : list CreatingMetricsValue * list event)
  : list CreatingMetricsValue * list event :=
  match entries with
  | [] => acc
  | (name, value) :: rest =>
      if IsNaN value || IsInf value 0
      then appendValues hostID created rest
             (fst acc, snd acc ++ [LogInvalidValue hostID name value])
      else appendValues hostID created rest
             (fst acc ++ [mkValue hostID name created value], snd acc)
  end.

(** The outer [for _, values := range result.Values]. *)
Fixpoint collectValues (c : Context) (created : Z)
    (vs : list ValuesCustomIdentifier)
    (acc : list CreatingMetricsValue * list event)
  : list CreatingMetricsValue * list event :=
  match vs with
  | [] => acc
  | values :: rest =>
      match CustomIdentifier values with
      | Some ci =>
          match lookupHost (CustomIdentifierHosts c) ci with
          | Some host =>
              collectValues c created rest
                (appendValues (ID host) created (Values values) acc)
          | None => collectValues c created rest acc
          end
      | None =>
          collectValues c created rest
            (appendValues (ID (ctxHost c)) created (Values values) acc)
      end
  end.

(** One [case result := <-metricsResult] of [enqueueLoop]: the batch sent on
    [postQueue] and the warnings logged. *)
Definition enqueue (c : Context) (result : MetricsResult)
  : postValue * list event :=
  let (creatingValues, logs) :=
    collectValues c (Created result) (ResultValues result) ([], []) in
  (newPostValue creatingValues, logs).

(** ** The scheduler: [loop] *)

Inductive loopState : Type :=
| loopStateFirst
| loopStateDefault
| loopStateQueued
| loopStateHadError
| loopStateTerminating.

Definition isTerminating (s : loopState) : bool :=
  match s with
  | loopStateTerminating => true
  | _ => false
  end.

(** The scheduler's variable [lState], the channel [postQueue] as the
    sequence of values buffered in it (oldest first), the values that the
    requeueing goroutines of earlier failures are still sending on
    [postQueue], and the events so far. *)
Record loopSt : Type := mkLoopSt {
  lState : loopState;
  postQueue : list postValue;
  sending : list postValue;
  trace : list event
}.

(** What the producers did between two steps of the scheduler: the results
    that [enqueueLoop] received and turned into batches on [postQueue], and
    how many pending sends of requeueing goroutines completed.  The channel's
    capacity ([PostMetricsBufferSize]) only makes producers wait; when they
    get through is what an [arrival] says. *)
Record arrival : Type := mkArrival {
  requeued : nat;
  produced : list MetricsResult
}.

Definition arrive (c : Context) (a : arrival) (st : loopSt) : loopSt :=
  let batches := map (enqueue c) (produced a) in
  mkLoopSt (lState st)
    (postQueue st ++ firstn (requeued a) (sending st) ++ map fst batches)
    (skipn (requeued a) (sending st))
    (trace st ++ flat_map snd batches).

(** Which case of the first [select] of the [for] fires. *)
Inductive pick : Type :=
| pickTerm         (* [case <-termMetricsCh] *)
| pickPostQueue.   (* [case v := <-postQueue] *)

(** Which case of a [select] between a timer and the termination channel
    fires. *)
Inductive wake : Type :=
| timerFired       (* [case <-time.After(...)] *)
| termReceived.    (* [case <-termCh], [case <-termMetricsCh] *)

(** What the rest of the world does during one pass of the [for] of [loop]. *)
Record cycleEnv : Type := mkCycleEnv {
  beforeSelect : arrival;     (* until the first [select] fires *)
  fired : pick;               (* the case of the first [select] *)
  afterSelect : arrival;      (* until the [len(postQueue)] that follows *)
  now : Z;                    (* [time.Now().Unix()] *)
  beforeNextState : arrival;  (* until [len(postQueue)] of the next state *)
  woken : wake;               (* the case of the second [select] *)
  postErr : option error;     (* what [c.API.PostMetricsValues] returns *)
  afterPost : arrival         (* until the last [len(postQueue)] *)
}.

(** One pass of the [for] either goes on to the next or returns. *)
Inductive outcome : Type :=
| Next (st : loopSt)
| Return (err : option error) (st : loopSt).

Definition setState (s : loopState) (st : loopSt) : loopSt :=
  mkLoopSt s (postQueue st) (sending st) (trace st).

Definition log (ev : event) (st : loopSt) : loopSt :=
  mkLoopSt (lState st) (postQueue st) (sending st) (trace st ++ [ev]).

Definition forceReturn : error :=
  ErrorString "received terminate instruction again. force return".

(** [case v := <-postQueue] up to the merge of the next batch: the batches
    taken ([origPostValues]) and the state, or [None] when [postQueue] is
    empty and the case cannot fire. *)
Definition receive (c : Context) (e : cycleEnv) (st : loopSt)
  : option (list postValue * loopSt) :=
  match postQueue st with
  | [] => None
  | v :: q =>
      let origPostValues := [v] in
      let st := arrive c (afterSelect e)
                  (mkLoopSt (lState st) q (sending st) (trace st)) in
      match postQueue st with
      | nextValues :: q' => (* [len(postQueue) > 0] *)
          Some (origPostValues ++ [nextValues],
                mkLoopSt (lState st) q' (sending st) (trace st))
      | [] => Some (origPostValues, st)
      end
  end.

(** The [switch lState] that sets [delaySeconds]. *)
Definition delaySeconds (conf : Config) (postDelaySeconds : Z)
    (lState : loopState) (now : Z) : Z :=
  match lState with
  | loopStateFirst => 0
  | loopStateQueued => PostMetricsDequeueDelaySeconds conf
  | loopStateHadError => PostMetricsRetryDelaySeconds conf
  | loopStateTerminating => 1
  | loopStateDefault =>
      let elapsedSeconds := Z.rem now (PostMetricsInterval conf) in
      if elapsedSeconds <? postDelaySeconds
      then postDelaySeconds - elapsedSeconds
      else 0
  end.

(** "determine next loopState before sleeping". *)
Definition nextState (st : loopSt) : loopState :=
  if isTerminating (lState st) then lState st
  else if (0 <? len (postQueue st))%nat then loopStateQueued
  else loopStateDefault.

(** [json.Marshal(v.values)]: the text is stood for by the values it
    encodes; encoding/json refuses NaN and the infinities. *)
Definition json_Marshal (vs : list CreatingMetricsValue)
  : option (list CreatingMetricsValue) :=
  if forallb (fun v => negb (IsNaN (Value v) || IsInf (Value v) 0)) vs
  then Some vs
  else None.

(** The goroutine started after a failed post.  It is run at once up to its
    sends on [postQueue], which wait in [sending] until an [arrival] lets
    them through. *)
Fixpoint requeue (conf : Config) (origPostValues : list postValue)
    (st : loopSt) : loopSt :=
  match origPostValues with
  | [] => st
  | v :: rest =>
      let v := mkPostValue (values v) (retryCnt v + 1) in
      if PostMetricsRetryMax conf <? retryCnt v
      then requeue conf rest (log (LogAbandoned (json_Marshal (values v))) st)
      else requeue conf rest
             (mkLoopSt (lState st) (postQueue st) (sending st ++ [v]) (trace st))
  end.

(** The pass from [postValues := ...] to its end: the post and what follows
    its success or failure. *)
Definition deliver (c : Context) (e : cycleEnv)
    (origPostValues : list postValue) (st : loopSt) : outcome :=
  let postValues := fold_left (fun acc v => acc ++ values v) origPostValues [] in
  let err := postErr e in
  let st := log (PostMetricsValues postValues err) st in
  match err with
  | Some err =>
      let st := log (LogPostFailed err) st in
      let st := if isTerminating (lState st) then st
                else setState loopStateHadError st in
      Next (requeue (ctxConfig c) origPostValues st)
  | None =>
      let st := arrive c (afterPost e) st in
      if isTerminating (lState st) && (len (postQueue st) <=? 0)%nat
      then Return None st
      else Next st
  end.

(** One pass of the [for] of [loop]. *)
Definition cycle (c : Context) (postDelaySeconds : Z) (e : cycleEnv)
    (st : loopSt) : outcome :=
  let st := arrive c (beforeSelect e) st in
  match fired e with
  | pickTerm =>
      if isTerminating (lState st)
      then Return (Some forceReturn) st
      else
        let st := arrive c (afterSelect e) (setState loopStateTerminating st) in
        if (len (postQueue st) <=? 0)%nat then Return None st else Next st
  | pickPostQueue =>
      match receive c e st with
      | None => Next st (* nothing is ready: the [select] goes on waiting *)
      | Some (origPostValues, st) =>
          let delay :=
            delaySeconds (ctxConfig c) postDelaySeconds (lState st) (now e) in
          let st := arrive c (beforeNextState e) st in
          let st := setState (nextState st) st in
          let st := log (After delay) st in
          match woken e with
          | timerFired => deliver c e origPostValues st
          | termReceived =>
              if isTerminating (lState st)
              then Return (Some forceReturn) st
              else deliver c e origPostValues (setState loopStateTerminating st)
          end
      end
  end.

(** Whether a function has returned within the steps given, and what. *)
Inductive exit : Type :=
| Running
| Returned (err : option error).

Fixpoint cycles (c : Context) (postDelaySeconds : Z) (es : list cycleEnv)
    (st : loopSt) : exit * loopSt :=
  match es with
  | [] => (Running, st)
  | e :: es' =>
      match cycle c postDelaySeconds e st with
      | Return err st' => (Returned err, st')
      | Next st' => cycles c postDelaySeconds es' st'
      end
  end.

(** What the rest of the world does while [loop] runs: the case of the
    initial [select] and then one [cycleEnv] for each pass of the [for]. *)
Record loopEnv : Type := mkLoopEnv {
  initialWake : wake;
  passes : list cycleEnv
}.

(** [loop(c, termCh)].  [updateHostSpecsLoop], [enqueueLoop] and the
    checkers run as tasks of their own; of these [enqueueLoop] shows here
    through the arrivals. *)
Definition loop (c : Context) (env : loopEnv) : exit * list event :=
  let postDelaySeconds := delayByHost (ctxConfig c) (ctxHost c) in
  let initialDelay := Z.quot postDelaySeconds 2 in
  match initialWake env with
  | termReceived => (Returned None, [After initialDelay])
  | timerFired =>
      let st := mkLoopSt loopStateFirst [] []
                  [After initialDelay; InitPluginGenerators; StartCheckers] in
      let (r, st) := cycles c postDelaySeconds (passes env) st in
      (r, trace st)
  end.

(** [Run(c, termCh)]; [e] is what [c.API.UpdateHostStatus] returns if it is
    called. *)
Definition Run (c : Context) (env : loopEnv) (e : option error)
  : exit * list event :=
  let (err, tr) := loop c env in
  match err with
  | Returned None =>
      if negb (String.eqb (OnStop (ctxConfig c)) "")
      then
        (err,
         tr ++ [CallUpdateHostStatusOnStop (ID (ctxHost c)) (OnStop (ctxConfig c)) e]
            ++ match e with
               | Some e' => [LogStatusOnStopFailed e']
               | None => []
               end)
      else (err, tr)
  | _ => (err, tr)
  end.

(** ** The checker runner *)

Module checks.

(** Modelled from the spec: [checks.Status] and [checks.Report] are
    declared in package checks, not in this file.  The spec gives the
    status as one of OK, Warning, Critical, Unknown, Undefined. *)
Inductive Status : Type :=
| StatusUndefined
| StatusOK
| StatusWarning
| StatusCritical
| StatusUnknown.

Definition Status_eqb (a b : Status) : bool :=
  match a, b with
  | StatusUndefined, StatusUndefined
  | StatusOK, StatusOK
  | StatusWarning, StatusWarning
  | StatusCritical, StatusCritical
  | StatusUnknown, StatusUnknown => true
  | _, _ => false
  end.

Record Report : Type := mkReport {
  Report_Name : string;
  Report_Status : Status;
  Report_Message : string;
  Report_OccurredAt : Z
}.

End checks.

(** What one checker goroutine does towards the aggregator. *)
Inductive checkerEvent : Type :=
| LogCheckFailed (err : error)
| SendReport (report : checks.Report)      (* [checkReportCh <- report] *)
| SendImmediate.                    (* [reportCheckImmediateCh <- struct{}{}] *)

(** The variables [lastStatus] and [lastMessage] of a checker goroutine. *)
Record checkerState : Type := mkCheckerState {
  lastStatus : checks.Status;
  lastMessage : string
}.

Definition initialCheckerState : checkerState :=
  mkCheckerState checks.StatusUndefined "".

(** The function a checker goroutine hands to [util.Periodically], given
    what [checker.Check()] returned. *)
Definition checkOnce (st : checkerState) (checked : checks.Report + error)
  : list checkerEvent * checkerState :=
  match checked with
  | inr err => ([LogCheckFailed err], st)
  | inl report =>
      if checks.Status_eqb (checks.Report_Status report) checks.StatusOK
         && checks.Status_eqb (checks.Report_Status report) (lastStatus st)
         && String.eqb (checks.Report_Message report) (lastMessage st)
      then ([], st) (* Do not report if nothing has changed *)
      else
        ([SendReport report]
         ++ (if negb (checks.Status_eqb (checks.Report_Status report) (lastStatus st))
                && negb (checks.Status_eqb (checks.Report_Status report) checks.StatusOK
                         && checks.Status_eqb (lastStatus st) checks.StatusUndefined)
             then [SendImmediate]
             else []),
         mkCheckerState (checks.Report_Status report) (checks.Report_Message report))
  end.

(** Where a call of the function handed to [util.Periodically] stands: the
    places where it is about to read or to write [lastStatus] or
    [lastMessage], the two sends it blocks in, and its two ways of
    returning. *)
Inductive checkPoint : Type :=
| atCheck            (* [checker.Check()] has not returned *)
| atSameStatus       (* reads [lastStatus] for [report.Status == lastStatus] *)
| atSameMessage      (* reads [lastMessage] for [report.Message == lastMessage] *)
| atSendReport       (* in [checkReportCh <- report] *)
| atChanged          (* reads [lastStatus] for [report.Status != lastStatus] *)
| atFirst            (* reads [lastStatus] for [lastStatus == checks.StatusUndefined] *)
| atSendImmediate    (* in [reportCheckImmediateCh <- struct{}{}] *)
| atSetStatus        (* before [lastStatus = report.Status] *)
| atSetMessage       (* before [lastMessage = report.Message] *)
| returnedEarly      (* returned after the error log, or as nothing has changed *)
| returned.          (* returned at the end of the function *)

(** One call of the function: what its [checker.Check()] returns, and where
    the call stands. *)
Record checkCall : Type := mkCheckCall {
  checked : checks.Report + error;
  point : checkPoint
}.

(** The next step of a call, up to and including its next access to the
    shared variables or its next send.  The tests on the report alone are
    taken together with the step before them. *)
Definition stepCall (st : checkerState) (call : checkCall)
  : list checkerEvent * checkerState * checkCall :=
  let goto p := mkCheckCall (checked call) p in
  match checked call with
  | inr err =>
      match point call with
      | atCheck => ([LogCheckFailed err], st, goto returnedEarly)
      | _ => ([], st, call)
      end
  | inl report =>
      let status := checks.Report_Status report in
      match point call with
      | atCheck =>
          ([], st,
           goto (if checks.Status_eqb status checks.StatusOK
                 then atSameStatus else atSendReport))
      | atSameStatus =>
          ([], st,
           goto (if checks.Status_eqb status (lastStatus st)
                 then atSameMessage else atSendReport))
      | atSameMessage =>
          ([], st,
           goto (if String.eqb (checks.Report_Message report) (lastMessage st)
                 then returnedEarly (* Do not report if nothing has changed *)
                 else atSendReport))
      | atSendReport => ([SendReport report], st, goto atChanged)
      | atChanged =>
          ([], st,
           goto (if negb (checks.Status_eqb status (lastStatus st))
                 then if checks.Status_eqb status checks.StatusOK
                      then atFirst else atSendImmediate
                 else atSetStatus))
      | atFirst =>
          ([], st,
           goto (if checks.Status_eqb (lastStatus st) checks.StatusUndefined
                 then atSetStatus else atSendImmediate))
      | atSendImmediate => ([SendImmediate], st, goto atSetStatus)
      | atSetStatus =>
          ([], mkCheckerState status (lastMessage st), goto atSetMessage)
      | atSetMessage =>
          ([], mkCheckerState (lastStatus st) (checks.Report_Message report),
           goto returned)
      | returnedEarly | returned => ([], st, call)
      end
  end.

(** A checker goroutine: the variables its calls share, the calls started
    so far, and what was logged and sent so far. *)
Record checkerRun : Type := mkCheckerRun {
  remembered : checkerState;
  calls : list checkCall;
  sentSoFar : list checkerEvent
}.

(** What happens next: [util.Periodically] starts the function once more,
    or the [i]-th call started takes its next step. *)
Inductive turn : Type :=
| Tick (checked : checks.Report + error)
| Step (i : nat).

Fixpoint setNth {A} (i : nat) (x : A) (l : list A) : list A :=
  match l, i with
  | [], _ => []
  | _ :: l', O => x :: l'
  | y :: l', S i' => y :: setNth i' x l'
  end.

Definition takeTurn (run : checkerRun) (t : turn) : checkerRun :=
  match t with
  | Tick checked =>
      mkCheckerRun (remembered run) (calls run ++ [mkCheckCall checked atCheck])
        (sentSoFar run)
  | Step i =>
      match nth_error (calls run) i with
      | Some call =>
          let '(evs, st, call') := stepCall (remembered run) call in
          mkCheckerRun st (setNth i call' (calls run)) (sentSoFar run ++ evs)
      | None => run
      end
  end.

(** Modelled from the spec: [util.Periodically] is declared in package
    util, not in this file.  The spec has the check "invoked on the check's
    own interval"; nothing makes an invocation wait for the one before, so
    a call may start, and run, while earlier calls are still under way, for
    one blocked in a send.  [Periodically] is the checker goroutine under
    the turns given: every order of the calls' steps is a list of turns,
    also the one in which each call returns before the next starts.  The
    accesses to [lastStatus] and [lastMessage] are not synchronised in the
    code; each is taken as one step, which sees the last value written. *)
Definition Periodically (turns : list turn) (run : checkerRun) : checkerRun :=
  fold_left takeTurn turns run.

(** The turns of a call that runs from its start to its return with no
    step of another call in between, as the [i]-th call started; and the
    turns of checks made one by one, none starting before the last has
    returned. *)
Definition alone (i : nat) (checked : checks.Report + error) : list turn :=
  Tick checked :: repeat (Step i) 9.

Fixpoint oneByOne (i : nat) (results : list (checks.Report + error))
  : list turn :=
  match results with
  | [] => []
  | checked :: rest => alone i checked ++ oneByOne (S i) rest
  end.

Definition startOfChecker (st : checkerState) : checkerRun :=
  mkCheckerRun st [] [].

(** ** The aggregator of [runCheckersLoop] *)

(** Which case of the aggregator's [select] fires. *)
Inductive aggWake : Type :=
| wakeMinute       (* [case <-time.After(1 * time.Minute)] *)
| wakeTerm         (* [case <-termCheckerCh] *)
| wakeImmediate.   (* [case <-reportCheckImmediateCh] *)

Inductive aggEvent : Type :=
| CallReportCheckMonitors (hostID : string) (reports : list checks.Report)
    (err : option error)
| LogReportFailed (err : error).

(** The reports that the goroutines started after failed calls are still
    sending back on [checkReportCh], and the events so far. *)
Record aggState : Type := mkAggState {
  requeueing : list checks.Report;
  aggTrace : list aggEvent
}.

(** What the rest of the world does during one pass of the aggregator's
    [for]: the case of its [select]; the senders that its drain finds ready
    on [checkReportCh], namely the first [backAgain] of the reports being
    requeued and the reports [fromCheckers] of checker goroutines; and what
    [c.API.ReportCheckMonitors] returns if it is called. *)
Record aggEnv : Type := mkAggEnv {
  wokenBy : aggWake;
  backAgain : nat;
  fromCheckers : list checks.Report;
  reportErr : option error
}.

(** One pass of the aggregator's [for], after its [select]: the drain, the
    call unless nothing was drained, and the requeueing goroutine if the
    call failed.  The debug logs are left out. *)
Definition aggregatePass (c : Context) (e : aggEnv) (st : aggState) : aggState :=
  let reports := firstn (backAgain e) (requeueing st) ++ fromCheckers e in
  let waiting := skipn (backAgain e) (requeueing st) in
  match reports with
  | [] => mkAggState waiting (aggTrace st) (* [continue] *)
  | _ :: _ =>
      let err := reportErr e in
      let tr := aggTrace st ++ [CallReportCheckMonitors (ID (ctxHost c)) reports err] in
      match err with
      | Some err => mkAggState (waiting ++ reports) (tr ++ [LogReportFailed err])
      | None => mkAggState waiting tr
      end
  end.

(** The aggregator goroutine over the passes given: whether it has ended
    ([exit]) and its state. *)
Fixpoint aggregator (c : Context) (es : list aggEnv) (st : aggState)
  : bool * aggState :=
  match es with
  | [] => (false, st)
  | e :: es' =>
      let st' := aggregatePass c e st in
      match wokenBy e with
      | wakeTerm => (true, st')
      | _ => aggregator c es' st'
      end
  end.

(** ** prepareCustomIdentiferHosts and Prepare *)

(** Modelled from the spec: [config.PluginConfig] is declared in package
    config.  Of a plugin's configuration this file reads the optional custom
    identifier only. *)
Record PluginConfig : Type := mkPluginConfig {
  pluginCommand : string;
  pluginCustomIdentifier : option string
}.

(** [conf.Plugin], a map from kinds to maps from names to configurations,
    as its entries in the order a [range] visits them. *)
Definition Plugin : Type := list (string * list (string * PluginConfig)).

(** [customIdentifiers[ci] = true] on the [map[string]bool] that serves as
    a set. *)
Definition setIdentifier (set : list string) (ci : string) : list string :=
  if existsb (String.eqb ci) set then set else set ++ [ci].

(** The inner and the outer loop over [conf.Plugin]. *)
Definition identifiersOf (set : list string)
    (pluginConfigs : string * list (string * PluginConfig)) : list string :=
  fold_left (fun set pluginConfig =>
               match pluginCustomIdentifier (snd pluginConfig) with
               | Some ci => setIdentifier set ci
               | None => set
               end) (snd pluginConfigs) set.

Definition customIdentifiers (plugin : Plugin) : list string :=
  fold_left identifiersOf plugin [].

(** The loop over the set of identifiers, in the order they are visited:
    one lookup each, no retry; a failed lookup is logged and skipped. *)
Fixpoint findHosts (api : API) (identifiers : list string)
    (s : list (string * Host) * list hostEvent)
  : list (string * Host) * list hostEvent :=
  match identifiers with
  | [] => s
  | ci :: rest =>
      let r := FindHostByCustomIdentifier api (snd s) ci in
      let tr := snd s ++ [CallFindHostByCustomIdentifier ci r] in
      match r with
      | inr e =>
          findHosts api rest
            (fst s,
             tr ++ [Warningf ("Failed to retrieve the host of custom_identifier: "
                              ++ ci ++ ", " ++ Error e)%string])
      | inl host => findHosts api rest ((ci, host) :: fst s, tr)
      end
  end.

(** [prepareCustomIdentiferHosts].  Go visits the keys of a map in an order
    of its own choosing: [rangeOver] is that order; [history] is what
    happened before the call. *)
Definition prepareCustomIdentiferHosts (plugin : Plugin) (api : API)
    (rangeOver : list string -> list string) (history : list hostEvent)
  : list (string * Host) * list hostEvent :=
  findHosts api (rangeOver (customIdentifiers plugin)) ([], history).

(** [Prepare]; [newAPI] is what [mackerel.NewAPI] returns. *)
Definition Prepare (conf : Config) (store : HostIDStorage)
    (collected : hostSpecs + error) (plugin : Plugin) (newAPI : API + error)
    (rangeOver : list string -> list string)
  : (Context + error) * list hostEvent :=
  match newAPI with
  | inr e => (inr (Errorf "Failed to prepare an api: " e), [])
  | inl api =>
      match prepareHost conf store collected api with
      | (inr e, tr) => (inr (Errorf "Failed to prepare host: " e), tr)
      | (inl host, tr) =>
          let (hosts, tr) :=
            prepareCustomIdentiferHosts plugin api rangeOver tr in
          (inl (mkContext conf host hosts), tr)
      end
  end.

(** * Package metrics: the filesystem generator *)

Module metrics.

(** Modelled from the spec: [util.DfStat] and [util.CollectDfValues] are
    declared in package util; a [DfStat] is one line of df's output, of which
    the generator reads the name and the two [uint64] counts of kilobytes. *)
Record DfStat : Type := mkDfStat {
  DfName : string;
  Blocks : Z;
  Used : Z
}.

(** [Values], a [map[string]float64], as its entries, each key once. *)
Definition Values : Type := list (string * spec_float).

Fixpoint getValue (m : Values) (k : string) : option spec_float :=
  match m with
  | [] => None
  | (k', v) :: m' => if String.eqb k' k then Some v else getValue m' k
  end.

(** [ret[k] = v]. *)
Definition setValue (m : Values) (k : string) (v : spec_float) : Values :=
  (k, v) :: filter (fun kv => negb (String.eqb (fst kv) k)) m.

(** [float64(n)] of an unsigned integer and the product of two [float64]:
    IEEE 754 binary64, rounding to nearest even. *)
Definition float64 (n : Z) : spec_float := binary_normalize 53 1024 n 0 false.

Definition mul (x y : spec_float) : spec_float := SFmul 53 1024 x y.

(** [strings.HasPrefix] and [strings.TrimPrefix]. *)
Fixpoint cutPrefix (s prefix : string) : option string :=
  match prefix, s with
  | EmptyString, _ => Some s
  | String p prefix', String c s' =>
      if Ascii.eqb c p then cutPrefix s' prefix' else None
  | String _ _, EmptyString => None
  end.

Definition HasPrefix (s prefix : string) : bool :=
  match cutPrefix s prefix with
  | Some _ => true
  | None => false
  end.

Definition TrimPrefix (s prefix : string) : string :=
  match cutPrefix s prefix with
  | Some rest => rest
  | None => s
  end.

Definition byteOf (c : ascii) : Z := Z.of_N (N_of_ascii c).

(** The byte at index [k] exists and lies in [lo, hi]. *)
Definition byteIn (lo hi : Z) (s : string) (k : nat) : bool :=
  match String.get k s with
  | Some c => (lo <=? byteOf c) && (byteOf c <=? hi)
  | None => false
  end.

(** The width [utf8.DecodeRuneInString] gives the first rune of a string: the
    length of a well-formed UTF-8 encoding, 1 for a byte that starts none. *)
Definition runeWidth (s : string) : nat :=
  match s with
  | EmptyString => 0
  | String c _ =>
      let b := byteOf c in
      if b <? 194 then 1
      else if b <? 224 then
        if byteIn 128 191 s 1 then 2 else 1
      else if b <? 240 then
        let second := if b =? 224 then byteIn 160 191 s 1
                      else if b =? 237 then byteIn 128 159 s 1
                      else byteIn 128 191 s 1 in
        if second && byteIn 128 191 s 2 then 3 else 1
      else if b <? 245 then
        let second := if b =? 240 then byteIn 144 191 s 1
                      else if b =? 244 then byteIn 128 143 s 1
                      else byteIn 128 191 s 1 in
        if second && byteIn 128 191 s 2 && byteIn 128 191 s 3 then 4 else 1
      else 1
  end.

(** The complement of [sanitizerReg]'s class: [A-Za-z0-9_-]. *)
Definition safe (c : ascii) : bool :=
  let b := byteOf c in
  ((65 <=? b) && (b <=? 90)) || ((97 <=? b) && (b <=? 122))
  || ((48 <=? b) && (b <=? 57)) || (b =? 95) || (b =? 45).

(** [sanitizerReg.ReplaceAllString(s, "_")]: every rune outside the class
    becomes one underscore; [skip] counts the bytes still to drop of a rune
    that has been replaced. *)
Fixpoint replaceAll (s : string) (skip : nat) : string :=
  match s with
  | EmptyString => EmptyString
  | String c rest =>
      match skip with
      | S k => replaceAll rest k
      | O =>
          if safe c then String c (replaceAll rest 0)
          else String "_" (replaceAll rest (runeWidth s - 1))
      end
  end.

Definition sanitize (s : string) : string := replaceAll s 0.

(** [FilesystemGenerator]; [IgnoreRegexp] as its [MatchString], [None] when
    the pointer is nil. *)
Record FilesystemGenerator : Type := mkFilesystemGenerator {
  IgnoreRegexp : option (string -> bool)
}.

(** The body of the loop of [Generate]. *)
Definition generateOne (g : FilesystemGenerator) (ret : Values) (dfs : DfStat)
  : Values :=
  let name := DfName dfs in
  if HasPrefix name "/dev/mapper/docker-"
     || match IgnoreRegexp g with
        | Some MatchString => MatchString name
        | None => false
        end
  then ret
  else
    let device := TrimPrefix name "/dev/" in
    if negb (String.eqb name device)
    then
      let device := sanitize device in
      (* kilo bytes -> bytes *)
      let ret := setValue ret ("filesystem." ++ device ++ ".size")%string
                   (mul (float64 (Blocks dfs)) (float64 1024)) in
      setValue ret ("filesystem." ++ device ++ ".used")%string
        (mul (float64 (Used dfs)) (float64 1024))
    else ret.

(** [Generate], given what [util.CollectDfValues] returned. *)
Definition Generate (g : FilesystemGenerator) (collected : list DfStat + error)
  : Values + error :=
  match collected with
  | inr err => inr err
  | inl filesystems => inl (fold_left (generateOne g) filesystems [])
  end.

End metrics.

(** ** Inputs of the examples *)

(** A configuration with the agent's defaults: a base post interval of one
    minute, at most 60 retries of a batch. *)
Definition conf60 : Config :=
  mkConfig 60 360 30 60 60 "" "" [] "".

Definition host_abc : Host := mkHost "abc" "web01" "working".

Definition ctx_abc : Context := mkContext conf60 host_abc [].

(** ** The delay of the Default state as the spec words it *)

(** "Remaining seconds until this host's assigned offset within the base
    interval": the time from [now] to the next instant whose position in
    the interval is [offset]. *)
Definition remainingUntilOffset (interval offset now : Z) : Z :=
  (offset - now) mod interval.

Definition report_ok : checks.Report :=
  checks.mkReport "disk" checks.StatusOK "all good" 0.

Definition report_critical : checks.Report :=
  checks.mkReport "disk" checks.StatusCritical "full" 60.

(** ** Invariants of the scheduler *)

(** A sample that [enqueueLoop] lets through. *)
Definition finiteValue (v : CreatingMetricsValue) : Prop :=
  IsNaN (Value v) = false /\ IsInf (Value v) 0 = false.

Definition finiteBatch (v : postValue) : Prop :=
  Forall finiteValue (values v).

(** The events of [loop] and [enqueueLoop]: a post carries finite samples
    only, and the host status is not theirs to touch. *)
Definition loopEvent (ev : event) : Prop :=
  match ev with
  | PostMetricsValues postValues _ => Forall finiteValue postValues
  | CallUpdateHostStatusOnStop _ _ _ => False
  | LogStatusOnStopFailed _ => False
  | _ => True
  end.

Definition wellFormed (st : loopSt) : Prop :=
  Forall finiteBatch (postQueue st)
  /\ Forall finiteBatch (sending st)
  /\ Forall loopEvent (trace st).

Definition stateOf (o : outcome) : loopSt :=
  match o with
  | Next st => st
  | Return _ st => st
  end.

(** A batch after one more failed delivery. *)
Definition retried (v : postValue) : postValue :=
  mkPostValue (values v) (retryCnt v + 1).

(** The log entry of an abandoned batch. *)
Definition abandoned (v : postValue) : event :=
  LogAbandoned (json_Marshal (values v)).

(** The float64 1.0. *)
Definition one : spec_float := S754_finite false 4503599627370496 (-52).

Definition sample_cpu : CreatingMetricsValue := mkValue "abc" "cpu" 120 one.

Definition sample_mem : CreatingMetricsValue := mkValue "abc" "memory" 180 one.

(** A fresh batch, and one that has already failed 60 times. *)
Definition batch_new : postValue := mkPostValue [sample_cpu] 0.

Definition batch_worn : postValue := mkPostValue [sample_mem] 60.

Definition serverError : error := MackerelError false "503 Service Unavailable".

Definition unauthorized : error := MackerelError true "401 Unauthorized".

Definition noArrival : arrival := mkArrival 0 [].

(** A pass during which no producer gets through. *)
Definition quietPass (fired : pick) (woken : wake) (postErr : option error)
  : cycleEnv :=
  mkCycleEnv noArrival fired noArrival 110 noArrival woken postErr noArrival.

(** A snapshot with one finite value, a NaN and an infinity. *)
Definition result_mixed : MetricsResult :=
  mkResult 120
    [mkValues [("cpu", one); ("broken", S754_nan); ("overflow", S754_infinity false)]
       None].

(** A pass that starts with the arrival of the batch of [result_mixed]. *)
Definition passWith (result : MetricsResult) (fired : pick) (woken : wake)
    (postErr : option error) : cycleEnv :=
  mkCycleEnv (mkArrival 0 [result]) fired noArrival 110 noArrival woken postErr
    noArrival.

Definition st_terminating : loopSt :=
  mkLoopSt loopStateTerminating [batch_new] [] [].

(** [tr'] is [tr] with more events after it. *)
Definition extends (tr tr' : list event) : Prop :=
  exists more, tr' = tr ++ more.

(** One snapshot arrives and is posted; then the agent is told to stop. *)
Definition env_post_then_term : loopEnv :=
  mkLoopEnv timerFired
    [passWith result_mixed pickPostQueue timerFired None;
     quietPass pickTerm timerFired None].

(** Two snapshots are queued when the agent is told to stop, and it is told
    again before the drain is over. *)
Definition env_double_term : loopEnv :=
  mkLoopEnv timerFired
    [mkCycleEnv (mkArrival 0 [result_mixed; result_mixed]) pickTerm noArrival 110
       noArrival timerFired None noArrival;
     quietPass pickPostQueue termReceived None].

Definition ctx_on_stop : Context :=
  mkContext (mkConfig 60 360 30 60 60 "" "poweroff" [] "") host_abc [].

(** ** The remote calls of prepareHost, for the statements about retries *)

(** The four remote operations that [prepareHost] wraps in [retry.Retry]. *)
Inductive operation : Type :=
| opFindHostByCustomIdentifier (ci : string)
| opCreateHost (spec : HostSpec)
| opFindHost
| opUpdateHostStatus (id hostSt : string).

(** The closure of [prepareHost] that makes the call. *)
Definition attempt (api : API) (op : operation) : vars -> option error * vars :=
  match op with
  | opFindHostByCustomIdentifier ci => tryFindHostByCustomIdentifier api ci
  | opCreateHost spec => tryCreateHost api spec
  | opFindHost => tryFindHost api
  | opUpdateHostStatus id hostSt => tryUpdateHostStatus api id hostSt
  end.

Definition errorOf {A} (r : A + error) : option error :=
  match r with
  | inl _ => None
  | inr e => Some e
  end.

(** The error, if any, that the service gives to the call made now. *)
Definition answer (api : API) (op : operation) (s : vars) : option error :=
  match op with
  | opFindHostByCustomIdentifier ci =>
      errorOf (FindHostByCustomIdentifier api (events s) ci)
  | opCreateHost spec => errorOf (CreateHost api (events s) spec)
  | opFindHost => errorOf (FindHost api (events s) (hostID s))
  | opUpdateHostStatus id hostSt => UpdateHostStatus api (events s) id hostSt
  end.

(** The error of a remote call event ([Some None] for a call that
    succeeded), [None] for the other events. *)
Definition callError (ev : hostEvent) : option (option error) :=
  match ev with
  | CallFindHostByCustomIdentifier _ r => Some (errorOf r)
  | CallCreateHost _ r => Some (errorOf r)
  | CallFindHost _ r => Some (errorOf r)
  | CallUpdateHostStatus _ _ r => Some r
  | _ => None
  end.

Definition isCall (ev : hostEvent) : bool :=
  match callError ev with
  | Some _ => true
  | None => false
  end.

Definition isSleep (seconds : Z) (ev : hostEvent) : bool :=
  match ev with
  | Sleep d => d =? seconds
  | _ => false
  end.

(** The error of the last remote call of a trace, [None] if that call
    succeeded or none was made. *)
Definition lastAnswer (tr : list hostEvent) : option error :=
  fold_left (fun acc ev => match callError ev with
                           | Some r => r
                           | None => acc
                           end) tr None.

(** A service on which every call succeeds. *)
Definition api_up : API :=
  mkAPI (fun _ _ => inl host_abc) (fun _ _ => inl "abc")
        (fun _ _ => inl host_abc) (fun _ _ _ => None).

(** A service that knows no host by custom identifier (a client error) and
    answers the other calls. *)
Definition api_unknown_identifier : API :=
  mkAPI (fun _ _ => inr (MackerelError true "404 Not Found")) (fun _ _ => inl "abc")
        (fun _ _ => inl host_abc) (fun _ _ _ => None).

(** A service that refuses the API key, and one that is down. *)
Definition api_unauthorized : API :=
  mkAPI (fun _ _ => inr unauthorized) (fun _ _ => inr unauthorized)
        (fun _ _ => inr unauthorized) (fun _ _ _ => Some unauthorized).

Definition api_down : API :=
  mkAPI (fun _ _ => inr serverError) (fun _ _ => inr serverError)
        (fun _ _ => inr serverError) (fun _ _ _ => Some serverError).

(** No host ID was saved yet; saving works. *)
Definition store_empty : HostIDStorage :=
  mkStorage ("", Some (ErrorString "open /var/lib/mackerel-agent/id: no such file"))
            (fun _ => None) (Some "/var/lib/mackerel-agent/id").

(** The host ID abc was saved by an earlier run. *)
Definition store_abc : HostIDStorage :=
  mkStorage ("abc", None) (fun _ => None) (Some "/var/lib/mackerel-agent/id").

Definition specs_cloud : hostSpecs :=
  mkSpecs "web01" [] [] "i-0123456789.ec2.amazonaws.com".

Definition specs_plain : hostSpecs := mkSpecs "web01" [] [] "".

Definition vars0 : vars := mkVars None "" None [].

(** The number of remote calls, and of sleeps of a given length, in a trace. *)
Definition callsOf (tr : list hostEvent) : nat := len (filter isCall tr).

Definition sleepsOf (seconds : Z) (tr : list hostEvent) : nat :=
  len (filter (isSleep seconds) tr).

(** Invariants of the variables of [prepareHost]: [lastErr] is the error of
    the last remote call; after a lookup, [result] is nil exactly when
    [lastErr] is not. *)
Definition lastErrIsLastAnswer (s : vars) : Prop :=
  lastAnswer (events s) = lastErr s.

Definition resultOrError (s : vars) : Prop :=
  result s = None <-> lastErr s <> None.

(** A service whose lookup by custom identifier is down while the other
    calls are answered. *)
Definition api_lookup_down : API :=
  mkAPI (fun _ _ => inr serverError) (fun _ _ => inl "abc")
        (fun _ _ => inl host_abc) (fun _ _ _ => None).

(** The remote operation a call event belongs to. *)
Inductive callKind : Type :=
| kFindHostByCustomIdentifier
| kCreateHost
| kFindHost
| kUpdateHostStatus.

Definition kind (op : operation) : callKind :=
  match op with
  | opFindHostByCustomIdentifier _ => kFindHostByCustomIdentifier
  | opCreateHost _ => kCreateHost
  | opFindHost => kFindHost
  | opUpdateHostStatus _ _ => kUpdateHostStatus
  end.

Definition kindOf (ev : hostEvent) : option callKind :=
  match ev with
  | CallFindHostByCustomIdentifier _ _ => Some kFindHostByCustomIdentifier
  | CallCreateHost _ _ => Some kCreateHost
  | CallFindHost _ _ => Some kFindHost
  | CallUpdateHostStatus _ _ _ => Some kUpdateHostStatus
  | _ => None
  end.

(** The operation was called in the trace; one of its calls succeeded. *)
Definition called (k : callKind) (tr : list hostEvent) : Prop :=
  exists ev, In ev tr /\ kindOf ev = Some k.

Definition succeeded (k : callKind) (tr : list hostEvent) : Prop :=
  exists ev, In ev tr /\ kindOf ev = Some k /\ callError ev = Some None.

(** Every call of the trace belongs to [k]. *)
Definition onlyKind (k : callKind) (tr : list hostEvent) : Prop :=
  forall ev k', In ev tr -> kindOf ev = Some k' -> k' = k.

(** Every operation other than the lookup by custom identifier that was
    called so far has succeeded. *)
Definition calledSucceeded (tr : list hostEvent) : Prop :=
  forall k, k <> kFindHostByCustomIdentifier -> called k tr -> succeeded k tr.

(** What [prepareHost] owes when it returns: if the last remote call failed
    with [e], the result is an error made from [e]; the result is never the
    nil dereference; and an operation other than the lookup by custom
    identifier that was called without ever succeeding ends the run with an
    error made from the last error. *)
Definition exitOk (out : (Host + error) * list hostEvent) : Prop :=
  (forall e, lastAnswer (snd out) = Some e ->
             exists prefix, fst out = inr (Errorf prefix e))
  /\ fst out <> inr nilDereference
  /\ (calledSucceeded (snd out)
      \/ exists e, lastAnswer (snd out) = Some e).

(** A pass that starts when one pending send of a requeueing goroutine has
    got through. *)
Definition passAfterRequeue (woken : wake) (postErr : option error) : cycleEnv :=
  mkCycleEnv (mkArrival 1 []) pickPostQueue noArrival 110 noArrival woken postErr
    noArrival.

Definition st_first : loopSt := mkLoopSt loopStateFirst [] [] [].

(** ** The ingestion step said in one piece, for the statements about it *)

(** The host a set of values is filed under: the agent's host, or the host
    its custom identifier resolves to; [None] when it does not resolve. *)
Definition resolveHostID (c : Context) (vs : ValuesCustomIdentifier)
  : option string :=
  match CustomIdentifier vs with
  | None => Some (ID (ctxHost c))
  | Some ci =>
      match lookupHost (CustomIdentifierHosts c) ci with
      | Some host => Some (ID host)
      | None => None
      end
  end.

Definition isFinite (f : spec_float) : bool :=
  negb (IsNaN f || IsInf f 0).

(** The samples and the warnings one set of values gives. *)
Definition samplesOf (c : Context) (created : Z) (vs : ValuesCustomIdentifier)
  : list CreatingMetricsValue :=
  match resolveHostID c vs with
  | Some hostID =>
      map (fun nv => mkValue hostID (fst nv) created (snd nv))
          (filter (fun nv => isFinite (snd nv)) (Values vs))
  | None => []
  end.

Definition warningsOf (c : Context) (vs : ValuesCustomIdentifier) : list event :=
  match resolveHostID c vs with
  | Some hostID =>
      map (fun nv => LogInvalidValue hostID (fst nv) (snd nv))
          (filter (fun nv => negb (isFinite (snd nv))) (Values vs))
  | None => []
  end.

(** The sets of values of a snapshot that are filed under some host. *)
Definition resolved (c : Context) (result : MetricsResult)
  : list ValuesCustomIdentifier :=
  filter (fun vs => match resolveHostID c vs with
                    | Some _ => true
                    | None => false
                    end) (ResultValues result).

(** A context in which one custom identifier resolves, and a snapshot with
    values for the agent's host, for that identifier and for an unknown one. *)
Definition host_db : Host := mkHost "db9" "db01" "working".

Definition ctx_ci : Context :=
  mkContext conf60 host_abc [("rds.example", host_db)].

Definition result_ci : MetricsResult :=
  mkResult 240
    [mkValues [("cpu", one); ("broken", S754_nan)] None;
     mkValues [("latency", one)] (Some "rds.example");
     mkValues [("latency", one); ("lost", S754_nan)] (Some "unknown.example")].

(** ** Predicates on the scheduler's runs *)

(** A batch whose count of failed posts is within the configured limit. *)
Definition withinRetryMax (conf : Config) (v : postValue) : Prop :=
  0 <= retryCnt v <= PostMetricsRetryMax conf.

(** A pass in which no termination signal is received. *)
Definition noSignal (e : cycleEnv) : Prop :=
  fired e = pickPostQueue /\ woken e = timerFired.

(** A pass of an undisturbed drain: no producer gets through, a batch is
    received, the timer fires and the post succeeds. *)
Definition drainPass (e : cycleEnv) : Prop :=
  beforeSelect e = noArrival /\ afterSelect e = noArrival
  /\ beforeNextState e = noArrival /\ afterPost e = noArrival
  /\ fired e = pickPostQueue /\ woken e = timerFired /\ postErr e = None.

(** Three batches wait when the agent is told to stop. *)
Definition st_backlog : loopSt :=
  mkLoopSt loopStateTerminating [batch_new; batch_new; batch_new] [] [].

(** The samples of the posts of a trace that succeeded, in order. *)
Definition deliveredSamples (tr : list event) : list CreatingMetricsValue :=
  flat_map (fun ev => match ev with
                      | PostMetricsValues postValues None => postValues
                      | _ => []
                      end) tr.

(** ** Predicates on the events of a checker *)

Definition isCheckLog (ev : checkerEvent) : bool :=
  match ev with
  | LogCheckFailed _ => true
  | _ => false
  end.

Definition report_disk_full : checks.Report :=
  checks.mkReport "disk" checks.StatusCritical "full" 120.

(** A call whose check failed to run; a call that has got past its check;
    past the send of its report; past the place of the immediate signal. *)
Definition failedCall (c : checkCall) : bool :=
  match checked c with
  | inr _ => true
  | inl _ => false
  end.

Definition pastCheck (c : checkCall) : bool :=
  match point c with
  | atCheck => false
  | _ => true
  end.

Definition pastSend (c : checkCall) : bool :=
  match point c with
  | atChanged | atFirst | atSendImmediate | atSetStatus | atSetMessage
  | returned => true
  | _ => false
  end.

Definition pastImmediate (c : checkCall) : bool :=
  match point c with
  | atSetStatus | atSetMessage | returned => true
  | _ => false
  end.

(** The reports sent, in order, and the reports of the calls that are past
    their send. *)
Definition reportsSent (evs : list checkerEvent) : list checks.Report :=
  flat_map (fun ev => match ev with
                      | SendReport report => [report]
                      | _ => []
                      end) evs.

Definition reportsPastSend (cs : list checkCall) : list checks.Report :=
  flat_map (fun c => match checked c with
                     | inl report => if pastSend c then [report] else []
                     | inr _ => []
                     end) cs.

Definition isImmediate (ev : checkerEvent) : bool :=
  match ev with
  | SendImmediate => true
  | _ => false
  end.

Definition isReport (ev : checkerEvent) : bool :=
  match ev with
  | SendReport _ => true
  | _ => false
  end.

(** The place, among the calls whose check ran, of the [i]-th call started;
    [started] tells of each call started whether its check failed. *)
Fixpoint position (started : list bool) (i : nat) : nat :=
  match started, i with
  | failed :: started', S i' => (if failed then 0 else 1) + position started' i'
  | _, _ => 0
  end.

(** The turns without the calls whose check failed to run. *)
Fixpoint dropFailed (started : list bool) (turns : list turn) : list turn :=
  match turns with
  | [] => []
  | Tick (inr _) :: rest => dropFailed (started ++ [true]) rest
  | Tick (inl report) :: rest =>
      Tick (inl report) :: dropFailed (started ++ [false]) rest
  | Step i :: rest =>
      match nth_error started i with
      | Some false => Step (position started i) :: dropFailed started rest
      | _ => dropFailed started rest
      end
  end.

(** Two checks of a full disk overlap: the second starts while the first
    is blocked in its send. *)
Definition turns_overlapping : list turn :=
  [Tick (inl report_critical); Step 0; Tick (inl report_disk_full); Step 1;
   Step 0; Step 1; Step 0; Step 1; Step 0; Step 1; Step 0; Step 1; Step 0;
   Step 1].

(** ** Predicates on the aggregator's runs *)

(** The reports of the calls of a trace that succeeded. *)
Definition deliveredReports (tr : list aggEvent) : list checks.Report :=
  flat_map (fun ev => match ev with
                      | CallReportCheckMonitors _ reports None => reports
                      | _ => []
                      end) tr.

(** The passes that are run: those up to the first one woken by the
    termination signal, that one included. *)
Fixpoint passesRun (es : list aggEnv) : list aggEnv :=
  match es with
  | [] => []
  | e :: es' =>
      match wokenBy e with
      | wakeTerm => [e]
      | _ => e :: passesRun es'
      end
  end.

Definition agg_start : aggState := mkAggState [] [].

Definition agg_pass_fail : aggEnv :=
  mkAggEnv wakeImmediate 0 [report_critical] (Some serverError).

Definition agg_pass_term : aggEnv := mkAggEnv wakeTerm 1 [] None.

(** ** The shape of a run of prepareHost, for the statements about it *)

(** An event that a retried call of [op] can leave in the trace: a call of
    [op] with its arguments, a warning or a sleep. *)
Definition fits (op : operation) (ev : hostEvent) : Prop :=
  match ev, op with
  | Warningf _, _ => True
  | Sleep _, _ => True
  | CallFindHostByCustomIdentifier ci _, opFindHostByCustomIdentifier ci' => ci = ci'
  | CallCreateHost spec _, opCreateHost spec' => spec = spec'
  | CallFindHost _ _, opFindHost => True
  | CallUpdateHostStatus id st _, opUpdateHostStatus id' st' => id = id' /\ st = st'
  | _, _ => False
  end.

(** The seconds slept in a trace. *)
Definition sleepSeconds (tr : list hostEvent) : Z :=
  fold_right (fun ev acc => match ev with
                            | Sleep seconds => seconds + acc
                            | _ => acc
                            end) 0 tr.

(** What [n] attempts at [op], [i] seconds apart, can leave in the trace. *)
Definition segment (op : operation) (n : nat) (i : Z) (seg : list hostEvent)
  : Prop :=
  Forall (fits op) seg
  /\ (callsOf seg <= n)%nat
  /\ 0 <= sleepSeconds seg <= Z.of_nat (pred n) * i.

(** The host specification [prepareHost] registers. *)
Definition registeredSpec (conf : Config) (sp : hostSpecs) : HostSpec :=
  mkHostSpec (hostname sp) (meta sp) (interfaces sp) (Roles conf)
    (DisplayName conf) (customIdentifier sp).

(** A run of [prepareHost] is, in this order: the lookup by custom
    identifier, the creation, the lookup of the host, the update of its
    status and the saving of its ID, each of which may be absent. *)
Definition registrationShape (conf : Config) (store : HostIDStorage)
    (sp : hostSpecs) (out : (Host + error) * list hostEvent) : Prop :=
  exists lookup create find update save,
    snd out = lookup ++ create ++ find ++ update ++ save
    /\ (lookup = []
        \/ (snd (LoadHostID store) <> None /\ customIdentifier sp <> ""
            /\ segment (opFindHostByCustomIdentifier (customIdentifier sp)) 3 2
                 lookup))
    /\ (create = []
        \/ (snd (LoadHostID store) <> None
            /\ ~ succeeded kFindHostByCustomIdentifier lookup
            /\ segment (opCreateHost (registeredSpec conf sp)) 20 3 create))
    /\ (find = []
        \/ (~ succeeded kFindHostByCustomIdentifier lookup
            /\ segment opFindHost 20 3 find))
    /\ (update = []
        \/ (OnStart conf <> ""
            /\ exists id, segment (opUpdateHostStatus id (OnStart conf)) 20 3 update))
    /\ ((save = [] /\ exists e, fst out = inr e)
        \/ exists h r, save = [CallSaveHostID (ID h) r]
                       /\ match r with
                          | None => fst out = inl h
                          | Some e => exists e', fst out = inr e'
                          end).

(** A configuration that puts the host on standby when the agent starts. *)
Definition conf_standby : Config :=
  mkConfig 60 360 30 60 60 "standby" "" ["web:app"] "front".

(** ** Predicates on the lookups of plugin hosts *)

(** The identifiers looked up in a trace, in order. *)
Definition lookedUp (tr : list hostEvent) : list string :=
  flat_map (fun ev => match ev with
                      | CallFindHostByCustomIdentifier ci _ => [ci]
                      | _ => []
                      end) tr.

(** Some plugin is configured with the custom identifier. *)
Definition configured (plugin : Plugin) (ci : string) : Prop :=
  exists pluginConfigs pluginConfig,
    In pluginConfigs plugin /\ In pluginConfig (snd pluginConfigs)
    /\ pluginCustomIdentifier (snd pluginConfig) = Some ci.

(** Two plugins share an identifier, one has none, one has an identifier the
    service does not know. *)
Definition plugin_rds : Plugin :=
  [("metrics", [("rds", mkPluginConfig "mackerel-plugin-aws-rds" (Some "rds.example"));
                ("uptime", mkPluginConfig "mackerel-plugin-uptime" None)]);
   ("checks", [("rds-alive", mkPluginConfig "check-tcp" (Some "rds.example"));
               ("cache", mkPluginConfig "check-redis" (Some "cache.example"))])].

Definition api_rds : API :=
  mkAPI (fun _ ci => if (ci =? "rds.example")%string then inl host_db
                     else inr (MackerelError true "404 Not Found"))
        (fun _ _ => inl "abc") (fun _ _ => inl host_abc) (fun _ _ _ => None).

(** ** Predicates on the filesystem metrics *)

(** Every byte of the string is in [A-Za-z0-9_-]. *)
Fixpoint allSafe (s : string) : bool :=
  match s with
  | EmptyString => true
  | String c rest => metrics.safe c && allSafe rest
  end.

(** The device a line of df is reported under, and whether it is reported. *)
Definition deviceOf (dfs : metrics.DfStat) : string :=
  metrics.sanitize (metrics.TrimPrefix (metrics.DfName dfs) "/dev/").

Definition ignoredBy (g : metrics.FilesystemGenerator) (name : string) : bool :=
  match metrics.IgnoreRegexp g with
  | Some MatchString => MatchString name
  | None => false
  end.

Definition reportedBy (g : metrics.FilesystemGenerator) (dfs : metrics.DfStat)
  : Prop :=
  metrics.HasPrefix (metrics.DfName dfs) "/dev/" = true
  /\ metrics.HasPrefix (metrics.DfName dfs) "/dev/mapper/docker-" = false
  /\ ignoredBy g (metrics.DfName dfs) = false.

Definition sizeKey (device : string) : string :=
  ("filesystem." ++ device ++ ".size")%string.

Definition usedKey (device : string) : string :=
  ("filesystem." ++ device ++ ".used")%string.

Definition bytesOf (kilobytes : Z) : spec_float :=
  metrics.mul (metrics.float64 kilobytes) (metrics.float64 1024).

(** A generator that ignores loop devices, and the lines of a df: a root
    disk, a docker volume, a tmpfs, a loop device, and two volumes whose names
    differ only in a character that is replaced. *)
Definition gen_no_loop : metrics.FilesystemGenerator :=
  metrics.mkFilesystemGenerator (Some (fun name => metrics.HasPrefix name "/dev/loop")).

Definition df_lines : list metrics.DfStat :=
  [metrics.mkDfStat "/dev/sda1" 1000 400;
   metrics.mkDfStat "/dev/mapper/docker-8:1-1234" 500 100;
   metrics.mkDfStat "tmpfs" 64 0;
   metrics.mkDfStat "/dev/loop0" 10 10;
   metrics.mkDfStat "/dev/mapper/vg0.data" 2000 1;
   metrics.mkDfStat "/dev/mapper/vg0-data" 3000 2;
   metrics.mkDfStat "/dev/mapper/vg0:data" 4000 3].

(** ** The retry policy as it shows in the trace of prepareHost *)

(** The attempts allowed and the seconds slept between two attempts:
    [retry.Retry(3, 2*time.Second, ...)] for the lookup by custom
    identifier, [retryNum] and [retryInterval] for the other calls. *)
Definition attempts (k : callKind) : nat :=
  match k with
  | kFindHostByCustomIdentifier => 3
  | _ => 20
  end.

Definition spacing (k : callKind) : Z :=
  match k with
  | kFindHostByCustomIdentifier => 2
  | _ => 3
  end.

Definition isKind (k : callKind) (ev : hostEvent) : bool :=
  match kindOf ev, k with
  | Some kFindHostByCustomIdentifier, kFindHostByCustomIdentifier
  | Some kCreateHost, kCreateHost
  | Some kFindHost, kFindHost
  | Some kUpdateHostStatus, kUpdateHostStatus => true
  | _, _ => false
  end.

(** The calls of operation [k] in a trace. *)
Definition callsOfKind (k : callKind) (tr : list hostEvent) : nat :=
  len (filter (isKind k) tr).

(** The trace does not go on with a sleep. *)
Definition notSleeping (tr : list hostEvent) : Prop :=
  match tr with
  | Sleep _ :: _ => False
  | _ => True
  end.

(** What comes after a call of [k] that failed with [e].  Not retriedRun: the
    warning, then no sleep and never again a call of [k].  Retried: the
    warning, the sleep of the fixed spacing, the next call of [k]. *)
Definition stopsAfter (k : callKind) (e : error) (after : list hostEvent) : Prop :=
  exists rest,
    after = Warningf (Error e) :: rest /\ ~ called k rest /\ notSleeping rest.

Definition retriesAfter (k : callKind) (e : error) (after : list hostEvent)
  : Prop :=
  exists next rest,
    after = Warningf (Error e) :: Sleep (spacing k) :: next :: rest
    /\ kindOf next = Some k.

(** The events of one retriedRun operation with [n] attempts allowed: an
    attempt is the call and, if it failed, the warning; it is followed by
    the sleep and another attempt exactly when it failed with an error that
    is no client error and attempts are left. *)
Inductive retriedRun (op : operation) (i : Z) : nat -> list hostEvent -> Prop :=
| retriedRun_none : retriedRun op i 0 []
| retriedRun_ok (n : nat) (call : hostEvent) :
    fits op call -> kindOf call = Some (kind op) -> callError call = Some None ->
    retriedRun op i (S n) [call]
| retriedRun_client (n : nat) (call : hostEvent) (e : error) :
    fits op call -> kindOf call = Some (kind op) ->
    callError call = Some (Some e) -> isClientError e = true ->
    retriedRun op i (S n) [call; Warningf (Error e)]
| retriedRun_last (call : hostEvent) (e : error) :
    fits op call -> kindOf call = Some (kind op) ->
    callError call = Some (Some e) -> isClientError e = false ->
    retriedRun op i 1 [call; Warningf (Error e)]
| retriedRun_again (n : nat) (call : hostEvent) (e : error) (rest : list hostEvent) :
    fits op call -> kindOf call = Some (kind op) ->
    callError call = Some (Some e) -> isClientError e = false ->
    retriedRun op i (S n) rest ->
    retriedRun op i (S (S n)) (call :: Warningf (Error e) :: Sleep i :: rest).

(** The policy on a trace in which [used] attempts were made before. *)
Definition policyFrom (used : nat) (tr : list hostEvent) : Prop :=
  forall before call after k r,
    tr = before ++ call :: after ->
    kindOf call = Some k -> callError call = Some r ->
    match r with
    | None => ~ called k after
    | Some e =>
        if isClientError e || (attempts k <=? S (used + callsOfKind k before))%nat
        then stopsAfter k e after
        else retriesAfter k e after
    end.

(** One operation of the registration: not called, or retriedRun under its
    policy. *)
Definition part (op : operation) (seg : list hostEvent) : Prop :=
  seg = [] \/ retriedRun op (spacing (kind op)) (attempts (kind op)) seg.

(** The trace of [prepareHost] by operation. *)
Definition registrationRuns (conf : Config) (sp : hostSpecs)
    (tr : list hostEvent) : Prop :=
  exists lookup create find update save,
    tr = lookup ++ create ++ find ++ update ++ save
    /\ part (opFindHostByCustomIdentifier (customIdentifier sp)) lookup
    /\ part (opCreateHost (registeredSpec conf sp)) create
    /\ part opFindHost find
    /\ (exists id, part (opUpdateHostStatus id (OnStart conf)) update)
    /\ (forall k, ~ called k save) /\ notSleeping save
    /\ (called kFindHostByCustomIdentifier lookup ->
        ~ succeeded kFindHostByCustomIdentifier lookup ->
        called kCreateHost create).

(** The steps of one call taken in a row, [n] of them; [evs] is what was
    sent before. *)
Fixpoint runCall (n : nat) (st : checkerState) (call : checkCall)
    (evs : list checkerEvent) : list checkerEvent * checkerState * checkCall :=
  match n with
  | O => (evs, st, call)
  | S n' =>
      let '(more, st', call') := stepCall st call in
      runCall n' st' call' (evs ++ more)
  end.

(** A call with a report that is not OK never comes to where a report is
    withheld. *)
Definition neverWithheld (c : checkCall) : Prop :=
  match checked c with
  | inl report =>
      checks.Report_Status report <> checks.StatusOK ->
      point c <> atSameStatus /\ point c <> atSameMessage
      /\ point c <> returnedEarly
  | inr _ => True
  end.

(** * Properties *)

(** ** SHA-1 test vectors (FIPS 180-4) *)

Example sha1_abc :
  sha1.Sum (bytes_of_string "abc") =
  [0xa9; 0x99; 0x3e; 0x36; 0x47; 0x06; 0x81; 0x6a; 0xba; 0x3e;
   0x25; 0x71; 0x78; 0x50; 0xc2; 0x6c; 0x9c; 0xd0; 0xd8; 0x9d].
Proof. vm_compute. reflexivity. Qed.

Example sha1_empty :
  sha1.Sum (bytes_of_string "") =
  [0xda; 0x39; 0xa3; 0xee; 0x5e; 0x6b; 0x4b; 0x0d; 0x32; 0x55;
   0xbf; 0xef; 0x95; 0x60; 0x18; 0x90; 0xaf; 0xd8; 0x07; 0x09].
Proof. vm_compute. reflexivity. Qed.

Example sha1_two_blocks :
  sha1.Sum (bytes_of_string
    "abcdbcdecdefdefgefghfghighijhijkijkljklmklmnlmnomnopnopq") =
  [0x84; 0x98; 0x3e; 0x44; 0x1c; 0x3b; 0xd2; 0x6e; 0xba; 0xae;
   0x4a; 0xa1; 0xf9; 0x51; 0x29; 0xe5; 0xe5; 0x46; 0x70; 0xf1].
Proof. vm_compute. reflexivity. Qed.

(** ** Delay assignment *)

Lemma be_bytes_range (n : nat) (x b : Z) :
  In b (sha1.be_bytes n x) -> 0 <= b < 256.
Proof.
  unfold sha1.be_bytes. rewrite in_map_iff.
  intros [i [<- _]]. apply Z.mod_pos_bound. lia.
Qed.

Lemma Sum_bytes (data : list Z) :
  Forall (fun b => 0 <= b < 256) (sha1.Sum data).
Proof.
  unfold sha1.Sum. apply Forall_forall. intros b Hb.
  apply in_flat_map in Hb. destruct Hb as [x [_ Hb]].
  exact (be_bytes_range _ _ _ Hb).
Qed.

Lemma Sum_length (data : list Z) : len (sha1.Sum data) = sha1.Size.
Proof. reflexivity. Qed.

Lemma Sum_last_byte (data : list Z) :
  0 <= nth (sha1.Size - 1) (sha1.Sum data) 0 < 256.
Proof.
  pose proof (Sum_bytes data) as H. rewrite Forall_forall in H.
  apply H. apply nth_In. rewrite Sum_length. unfold sha1.Size. lia.
Qed.

Lemma rem_nonneg_any (a b : Z) : 0 <= a -> 0 <= Z.rem a b.
Proof.
  intros Ha. destruct (Z.eq_dec b 0) as [-> | Hb].
  - now rewrite Zquot.Zrem_0_r.
  - now apply Z.rem_nonneg.
Qed.

Lemma delayByHost_nonneg (conf : Config) (host : Host) :
  0 <= delayByHost conf host.
Proof. unfold delayByHost. apply rem_nonneg_any, Sum_last_byte. Qed.

Lemma delayByHost_range (conf : Config) (host : Host) :
  0 < PostMetricsInterval conf ->
  0 <= delayByHost conf host < PostMetricsInterval conf.
Proof.
  intros Hpos. unfold delayByHost.
  apply Z.rem_bound_pos; [apply Sum_last_byte | exact Hpos].
Qed.

(** C6.  [delayByHost] is a function of the host identifier and the base
    post interval alone: two hosts with the same ID get the same delay,
    whatever their other fields, and for a positive interval the delay lies
    in [0, interval). *)
Theorem delayByHost_deterministic_in_range (conf : Config) (host : Host) :
  0 < PostMetricsInterval conf ->
  0 <= delayByHost conf host < PostMetricsInterval conf
  /\ (forall host' : Host, ID host' = ID host ->
        delayByHost conf host' = delayByHost conf host)
  /\ delayByHost conf host =
       Z.rem (nth 19 (sha1.Sum (bytes_of_string (ID host))) 0)
             (PostMetricsInterval conf).
Proof.
  intros Hpos. split; [| split].
  - now apply delayByHost_range.
  - intros host' Heq. unfold delayByHost. now rewrite Heq.
  - reflexivity.
Qed.

Example delayByHost_abc : delayByHost conf60 host_abc = 37.
Proof. vm_compute. reflexivity. Qed.

Lemma delayByHost_deterministic_in_range_witness :
  0 <= delayByHost conf60 host_abc < 60
  /\ (forall host' : Host, ID host' = "abc" ->
        delayByHost conf60 host' = delayByHost conf60 host_abc)
  /\ delayByHost conf60 host_abc =
       Z.rem (nth 19 (sha1.Sum (bytes_of_string "abc")) 0) 60.
Proof.
  apply (delayByHost_deterministic_in_range conf60 host_abc). simpl. lia.
Defined.

(** ** The delay before a post *)

Lemma remainingUntilOffset_spec (interval offset now : Z) :
  0 < interval -> 0 <= offset < interval ->
  0 <= remainingUntilOffset interval offset now < interval
  /\ (now + remainingUntilOffset interval offset now) mod interval = offset.
Proof.
  intros Hi Ho. unfold remainingUntilOffset. split.
  - apply Z.mod_pos_bound; lia.
  - rewrite Zplus_mod_idemp_r.
    replace (now + (offset - now)) with offset by lia.
    apply Z.mod_small; lia.
Qed.

(** The delays of the other states, as the table of the spec gives them. *)
Lemma delaySeconds_other_states (conf : Config) (d now : Z) :
  delaySeconds conf d loopStateFirst now = 0
  /\ delaySeconds conf d loopStateQueued now = PostMetricsDequeueDelaySeconds conf
  /\ delaySeconds conf d loopStateHadError now = PostMetricsRetryDelaySeconds conf
  /\ delaySeconds conf d loopStateTerminating now = 1.
Proof. repeat split. Qed.

(** C4, as the code has it.  In the Default state, with [elapsed] the
    position of the clock in the base interval: while the host's offset has
    not passed ([elapsed <= offset]) the delay is the remaining seconds
    until the offset; once it has passed the delay is 0 and the post goes
    out at once, it does not wait for the offset of the next interval. *)
Theorem delaySeconds_default (conf : Config) (host : Host) (now : Z) :
  0 < PostMetricsInterval conf -> 0 <= now ->
  let interval := PostMetricsInterval conf in
  let offset := delayByHost conf host in
  let elapsed := now mod interval in
  let delay := delaySeconds conf offset loopStateDefault now in
  delay = Z.max 0 (offset - elapsed)
  /\ (elapsed <= offset -> delay = remainingUntilOffset interval offset now)
  /\ (offset < elapsed -> delay = 0).
Proof.
  intros Hi Hnow interval offset elapsed delay.
  assert (Ho : 0 <= offset < interval).
  { apply delayByHost_range; exact Hi. }
  assert (He : 0 <= elapsed < interval) by (apply Z.mod_pos_bound; exact Hi).
  assert (Hrem : Z.rem now interval = elapsed).
  { apply Z.rem_mod_nonneg; lia. }
  assert (Hd : delay = if elapsed <? offset then offset - elapsed else 0).
  { unfold delay, delaySeconds. fold interval. now rewrite Hrem. }
  split; [| split].
  - rewrite Hd. destruct (Z.ltb_spec elapsed offset); lia.
  - intros Hle. rewrite Hd. unfold remainingUntilOffset.
    assert (Hm : (offset - now) mod interval = offset - elapsed).
    { rewrite <- (Zminus_mod_idemp_r offset now interval). fold elapsed.
      apply Z.mod_small. lia. }
    rewrite Hm. destruct (Z.ltb_spec elapsed offset); lia.
  - intros Hlt. rewrite Hd. destruct (Z.ltb_spec elapsed offset); lia.
Qed.

Lemma delaySeconds_default_witness :
  let delay := delaySeconds conf60 (delayByHost conf60 host_abc) loopStateDefault 130 in
  delay = Z.max 0 (delayByHost conf60 host_abc - 130 mod 60)
  /\ (130 mod 60 <= delayByHost conf60 host_abc ->
      delay = remainingUntilOffset 60 (delayByHost conf60 host_abc) 130)
  /\ (delayByHost conf60 host_abc < 130 mod 60 -> delay = 0).
Proof.
  apply (delaySeconds_default conf60 host_abc 130); simpl; lia.
Defined.

(** C4 as stated fails: at second 50 of the minute a host whose offset is
    37 posts at once (delay 0), while the remaining seconds until its offset
    are 47; the difference of the two positions, -13, is not the delay
    either. *)
Lemma delaySeconds_default_not_remaining :
  delayByHost conf60 host_abc = 37
  /\ delaySeconds conf60 (delayByHost conf60 host_abc) loopStateDefault 110 = 0
  /\ remainingUntilOffset 60 (delayByHost conf60 host_abc) 110 = 47
  /\ delaySeconds conf60 (delayByHost conf60 host_abc) loopStateDefault 110
     <> remainingUntilOffset 60 (delayByHost conf60 host_abc) 110
  /\ delaySeconds conf60 (delayByHost conf60 host_abc) loopStateDefault 110
     <> delayByHost conf60 host_abc - 110 mod 60.
Proof. vm_compute. repeat split; discriminate. Qed.

(** ** The checker runner *)

Lemma Status_eqb_eq (a b : checks.Status) : checks.Status_eqb a b = true <-> a = b.
Proof. destruct a, b; simpl; split; intros H; congruence. Qed.




(** The spec's examples, the checks made one by one: the same healthy
    report twice is sent once and never escalates; OK followed by Critical
    escalates. *)
Example checks_ok_twice :
  sentSoFar (Periodically (oneByOne 0 [inl report_ok; inl report_ok])
               (startOfChecker initialCheckerState))
  = [SendReport report_ok].
Proof. reflexivity. Qed.

Example checks_ok_then_critical :
  sentSoFar (Periodically (oneByOne 0 [inl report_ok; inl report_critical])
               (startOfChecker initialCheckerState))
  = [SendReport report_ok; SendReport report_critical; SendImmediate].
Proof. reflexivity. Qed.

(** Two overlapping checks of the same problem both compare with the
    status remembered before either has written: both escalate. *)
Example overlapping_checks_escalate_twice :
  sentSoFar (Periodically turns_overlapping
               (startOfChecker (mkCheckerState checks.StatusOK "all good")))
  = [SendReport report_critical; SendReport report_disk_full;
     SendImmediate; SendImmediate].
Proof. reflexivity. Qed.

(** A check that fails to run is logged and leaves the state alone. *)
Lemma checkOnce_error (st : checkerState) (err : error) :
  checkOnce st (inr err) = ([LogCheckFailed err], st).
Proof. reflexivity. Qed.

(** ** Ingestion and the well-formedness of the scheduler's state *)

Lemma appendValues_ok (hostID : string) (created : Z)
    (entries : list (string * spec_float)) :
  forall acc,
    Forall finiteValue (fst acc) -> Forall loopEvent (snd acc) ->
    Forall finiteValue (fst (appendValues hostID created entries acc))
    /\ Forall loopEvent (snd (appendValues hostID created entries acc)).
Proof.
  induction entries as [| [name value] rest IH]; intros acc Hv Hl; simpl.
  - now split.
  - destruct (IsNaN value || IsInf value 0) eqn:Hbad.
    + apply IH; simpl; [exact Hv |].
      apply Forall_app. split; [exact Hl | now repeat constructor].
    + apply orb_false_elim in Hbad. apply IH; simpl; [| exact Hl].
      apply Forall_app. split; [exact Hv |].
      constructor; [exact Hbad | constructor].
Qed.

Lemma collectValues_ok (c : Context) (created : Z)
    (vs : list ValuesCustomIdentifier) :
  forall acc,
    Forall finiteValue (fst acc) -> Forall loopEvent (snd acc) ->
    Forall finiteValue (fst (collectValues c created vs acc))
    /\ Forall loopEvent (snd (collectValues c created vs acc)).
Proof.
  induction vs as [| v rest IH]; intros acc Hv Hl; simpl.
  - now split.
  - destruct (CustomIdentifier v) as [ci |].
    + destruct (lookupHost (CustomIdentifierHosts c) ci) as [host |].
      * apply IH; now apply appendValues_ok.
      * now apply IH.
    + apply IH; now apply appendValues_ok.
Qed.

Lemma enqueue_ok (c : Context) (result : MetricsResult) :
  finiteBatch (fst (enqueue c result))
  /\ Forall loopEvent (snd (enqueue c result)).
Proof.
  unfold enqueue, finiteBatch.
  pose proof (collectValues_ok c (Created result) (ResultValues result) ([], [])
                (Forall_nil _) (Forall_nil _)) as H.
  destruct (collectValues c (Created result) (ResultValues result) ([], []))
    as [creatingValues logs]. exact H.
Qed.

Lemma Forall_split_at {A} (P : A -> Prop) (n : nat) (l : list A) :
  Forall P l -> Forall P (firstn n l) /\ Forall P (skipn n l).
Proof.
  intros H. rewrite <- (firstn_skipn n l) in H.
  now apply Forall_app in H.
Qed.

Lemma arrive_wf (c : Context) (a : arrival) (st : loopSt) :
  wellFormed st -> wellFormed (arrive c a st).
Proof.
  intros (Hq & Hs & Ht). unfold wellFormed, arrive; simpl.
  destruct (Forall_split_at _ (requeued a) _ Hs) as [Hs1 Hs2].
  repeat split.
  - rewrite !Forall_app. repeat split; [exact Hq | exact Hs1 |].
    rewrite Forall_forall. intros v Hv.
    rewrite map_map in Hv. apply in_map_iff in Hv.
    destruct Hv as [r [<- _]]. apply enqueue_ok.
  - exact Hs2.
  - rewrite Forall_app. split; [exact Ht |].
    rewrite Forall_forall. intros ev Hev.
    apply in_flat_map in Hev. destruct Hev as [x [Hx Hev]].
    apply in_map_iff in Hx. destruct Hx as [r [<- _]].
    pose proof (enqueue_ok c r) as [_ Hl].
    rewrite Forall_forall in Hl. now apply Hl.
Qed.

(** ** One pass of the scheduler *)

Lemma postValues_concat (origPostValues : list postValue) :
  forall acc,
    fold_left (fun acc v => acc ++ values v) origPostValues acc
    = acc ++ flat_map values origPostValues.
Proof.
  induction origPostValues as [| v rest IH]; intros acc; simpl.
  - now rewrite app_nil_r.
  - rewrite IH. now rewrite app_assoc.
Qed.

Lemma receive_cons (c : Context) (e : cycleEnv) (s : loopState)
    (v : postValue) (q pending : list postValue) (tr : list event) :
  let st1 := arrive c (afterSelect e) (mkLoopSt s q pending tr) in
  receive c e (mkLoopSt s (v :: q) pending tr)
  = Some (v :: firstn 1 (postQueue st1),
          mkLoopSt s (skipn 1 (postQueue st1)) (sending st1) (trace st1)).
Proof.
  intros st1. subst st1. unfold receive, arrive. simpl.
  destruct (q ++ firstn (requeued (afterSelect e)) pending
              ++ map fst (map (enqueue c) (produced (afterSelect e))))
    as [| nextValues q']; reflexivity.
Qed.

Lemma receive_nil (c : Context) (e : cycleEnv) (st : loopSt) :
  postQueue st = [] -> receive c e st = None.
Proof. intros H. unfold receive. now rewrite H. Qed.

Lemma receive_wf (c : Context) (e : cycleEnv) (st : loopSt)
    (orig : list postValue) (st' : loopSt) :
  wellFormed st -> receive c e st = Some (orig, st') ->
  Forall finiteBatch orig /\ wellFormed st' /\ lState st' = lState st.
Proof.
  intros Hwf Hr. destruct st as [s q pending tr].
  destruct q as [| v q]; [discriminate |].
  rewrite receive_cons in Hr. injection Hr as <- <-.
  destruct Hwf as (Hq & Hs & Ht). simpl in Hq, Hs, Ht.
  inversion Hq as [| ? ? Hv Hq']; subst.
  assert (Hwf1 : wellFormed (arrive c (afterSelect e) (mkLoopSt s q pending tr))).
  { apply arrive_wf. now repeat split. }
  destruct Hwf1 as (Hq1 & Hs1 & Ht1).
  destruct (Forall_split_at _ 1 _ Hq1) as [Hf Hk].
  repeat split; simpl; try assumption.
  now constructor.
Qed.

Lemma requeue_spec (conf : Config) (orig : list postValue) :
  forall st,
    requeue conf orig st
    = mkLoopSt (lState st) (postQueue st)
        (sending st
         ++ filter (fun v => retryCnt v <=? PostMetricsRetryMax conf)
              (map retried orig))
        (trace st
         ++ map abandoned
              (filter (fun v => PostMetricsRetryMax conf <? retryCnt v)
                 (map retried orig))).
Proof.
  induction orig as [| v rest IH]; intros st; simpl.
  - rewrite !app_nil_r. now destruct st.
  - rewrite (Z.leb_antisym (PostMetricsRetryMax conf) (retryCnt v + 1)).
    destruct (PostMetricsRetryMax conf <? retryCnt v + 1) eqn:Hgt; simpl.
    + rewrite IH. simpl. unfold abandoned at 2. simpl.
      now rewrite <- app_assoc.
    + rewrite IH. simpl. unfold retried at 2.
      now rewrite <- app_assoc.
Qed.

Lemma abandoned_loopEvent (l : list postValue) :
  Forall loopEvent (map abandoned l).
Proof.
  rewrite Forall_forall. intros ev Hev. apply in_map_iff in Hev.
  now destruct Hev as [v [<- _]].
Qed.

Lemma requeue_wf (conf : Config) (orig : list postValue) (st : loopSt) :
  Forall finiteBatch orig -> wellFormed st -> wellFormed (requeue conf orig st).
Proof.
  intros Ho (Hq & Hs & Ht). rewrite requeue_spec.
  repeat split; simpl.
  - exact Hq.
  - apply Forall_app. split; [exact Hs |].
    rewrite Forall_forall in *. intros v Hv.
    apply filter_In in Hv. destruct Hv as [Hv _].
    apply in_map_iff in Hv. destruct Hv as [v0 [<- Hv0]].
    exact (Ho v0 Hv0).
  - apply Forall_app. split; [exact Ht | apply abandoned_loopEvent].
Qed.

Lemma concat_values_finite (orig : list postValue) :
  Forall finiteBatch orig -> Forall finiteValue (flat_map values orig).
Proof.
  induction 1 as [| v rest Hv _ IH]; simpl.
  - constructor.
  - apply Forall_app. now split.
Qed.

Lemma log_wf (ev : event) (st : loopSt) :
  loopEvent ev -> wellFormed st -> wellFormed (log ev st).
Proof.
  intros Hev (Hq & Hs & Ht). repeat split; simpl; try assumption.
  apply Forall_app. split; [exact Ht | now constructor].
Qed.

Lemma setState_wf (s : loopState) (st : loopSt) :
  wellFormed st -> wellFormed (setState s st).
Proof. intros (Hq & Hs & Ht). now repeat split. Qed.

Create HintDb sched discriminated.

#[local] Hint Resolve arrive_wf log_wf setState_wf requeue_wf
  concat_values_finite : sched.

#[local] Hint Extern 1 (loopEvent _) => exact I : sched.

Lemma deliver_wf (c : Context) (e : cycleEnv) (orig : list postValue)
    (st : loopSt) :
  Forall finiteBatch orig -> wellFormed st ->
  wellFormed (stateOf (deliver c e orig st)).
Proof.
  intros Ho Hwf. unfold deliver. rewrite postValues_concat. simpl app.
  assert (Hpost : loopEvent (PostMetricsValues (flat_map values orig) (postErr e)))
    by (simpl; auto with sched).
  destruct (postErr e) as [err |].
  - simpl stateOf.
    match goal with
    | |- context [if ?b then _ else _] => destruct b
    end; auto 6 with sched.
  - match goal with
    | |- context [if ?b then _ else _] => destruct b
    end; simpl; auto with sched.
Qed.

#[local] Hint Resolve deliver_wf : sched.

Lemma cycle_wf (c : Context) (d : Z) (e : cycleEnv) (st : loopSt) :
  wellFormed st -> wellFormed (stateOf (cycle c d e st)).
Proof.
  intros Hwf. unfold cycle.
  pose proof (arrive_wf c (beforeSelect e) st Hwf) as Hwf0.
  destruct (fired e).
  - destruct (isTerminating (lState (arrive c (beforeSelect e) st)));
      [exact Hwf0 |].
    match goal with
    | |- context [if ?b then _ else _] => destruct b
    end; simpl; auto with sched.
  - destruct (receive c e (arrive c (beforeSelect e) st)) as [[orig st1] |] eqn:Hr;
      [| exact Hwf0].
    destruct (receive_wf _ _ _ _ _ Hwf0 Hr) as (Ho & Hwf1 & _).
    destruct (woken e); [auto 7 with sched |].
    match goal with
    | |- context [if ?b then _ else _] => destruct b
    end; [simpl |]; auto 8 with sched.
Qed.

Lemma cycles_wf (c : Context) (d : Z) (es : list cycleEnv) :
  forall st, wellFormed st -> wellFormed (snd (cycles c d es st)).
Proof.
  induction es as [| e es IH]; intros st Hwf; simpl.
  - exact Hwf.
  - pose proof (cycle_wf c d e st Hwf) as H.
    destruct (cycle c d e st) as [st' | err st']; simpl in H.
    + now apply IH.
    + exact H.
Qed.

Lemma loop_events (c : Context) (env : loopEnv) :
  Forall loopEvent (snd (loop c env)).
Proof.
  unfold loop. destruct (initialWake env).
  - match goal with
    | |- context [cycles ?c ?d ?es ?st] =>
        pose proof (cycles_wf c d es st) as H;
        destruct (cycles c d es st) as [r st']
    end.
    simpl in *. apply H. repeat split; simpl; repeat constructor.
  - simpl. repeat constructor.
Qed.

(** *** Retries of a failed post *)

(** C1.  When the post of the batches [orig] fails, the pass goes on to the
    next one; every batch of [orig] gets its [retryCnt] raised by exactly 1;
    the batches whose raised count exceeds [PostMetricsRetryMax] are logged
    as abandoned and not requeued, and exactly the others are sent back on
    [postQueue] by the goroutine.  The buffered queue itself is as it was. *)
Theorem failed_post_retries_or_abandons (c : Context) (e : cycleEnv)
    (orig : list postValue) (st : loopSt) (err : error) :
  postErr e = Some err ->
  let max := PostMetricsRetryMax (ctxConfig c) in
  exists st',
    deliver c e orig st = Next st'
    /\ postQueue st' = postQueue st
    /\ sending st'
       = sending st ++ filter (fun v => retryCnt v <=? max) (map retried orig)
    /\ trace st'
       = trace st
         ++ [PostMetricsValues (flat_map values orig) (Some err); LogPostFailed err]
         ++ map abandoned (filter (fun v => max <? retryCnt v) (map retried orig))
    /\ (forall v, In v orig ->
          retryCnt (retried v) = retryCnt v + 1
          /\ values (retried v) = values v
          /\ (In (retried v)
                (filter (fun v => max <? retryCnt v) (map retried orig))
              <-> max < retryCnt v + 1)
          /\ (In (retried v)
                (filter (fun v => retryCnt v <=? max) (map retried orig))
              <-> ~ max < retryCnt v + 1)).
Proof.
  intros He max. unfold deliver. rewrite He, postValues_concat. simpl app.
  eexists. split; [reflexivity |].
  rewrite requeue_spec. fold max. simpl.
  split; [| split; [| split]].
  - now destruct (isTerminating (lState st)).
  - now destruct (isTerminating (lState st)).
  - destruct (isTerminating (lState st)); simpl; now rewrite <- !app_assoc.
  - intros v Hv. split; [reflexivity | split; [reflexivity |]].
    rewrite !filter_In. simpl. rewrite Z.ltb_lt, Z.leb_le.
    pose proof (in_map retried _ _ Hv) as Hin.
    split; split; intros H; try split; try tauto; lia.
Qed.

Lemma failed_post_retries_or_abandons_witness :
  exists st',
    deliver ctx_abc (quietPass pickPostQueue timerFired (Some serverError))
      [batch_worn; batch_new] st_terminating = Next st'
    /\ postQueue st' = [batch_new]
    /\ sending st' = [] ++ [mkPostValue [sample_cpu] 1]
    /\ trace st'
       = []
         ++ [PostMetricsValues [sample_mem; sample_cpu] (Some serverError);
             LogPostFailed serverError]
         ++ [LogAbandoned (Some [sample_mem])]
    /\ (forall v, In v [batch_worn; batch_new] ->
          retryCnt (retried v) = retryCnt v + 1
          /\ values (retried v) = values v
          /\ (In (retried v) [mkPostValue [sample_mem] 61] <-> 60 < retryCnt v + 1)
          /\ (In (retried v) [mkPostValue [sample_cpu] 1] <-> ~ 60 < retryCnt v + 1)).
Proof.
  exact (failed_post_retries_or_abandons ctx_abc
           (quietPass pickPostQueue timerFired (Some serverError))
           [batch_worn; batch_new] st_terminating serverError eq_refl).
Defined.

(** The spec's end-to-end example: the post of a batch fails twice and
    succeeds at the third delivery.  After the second failure the batch
    waits to be requeued with [retryCnt] 2; after the success nothing of it
    is left in the queue or on its way to it. *)
Example post_fails_twice_then_succeeds :
  let failing := [passWith result_mixed pickPostQueue timerFired (Some serverError);
                  passAfterRequeue timerFired (Some serverError)] in
  let st2 := snd (cycles ctx_abc 37 failing st_first) in
  let st3 := snd (cycles ctx_abc 37 (failing ++ [passAfterRequeue timerFired None])
                    st_first) in
  sending st2 = [mkPostValue [sample_cpu] 2]
  /\ postQueue st2 = []
  /\ lState st2 = loopStateHadError
  /\ sending st3 = [] /\ postQueue st3 = []
  /\ lState st3 = loopStateDefault
  /\ filter (fun ev => match ev with
                       | PostMetricsValues _ _ | After _ => true
                       | _ => false
                       end) (trace st3)
     = [After 0; PostMetricsValues [sample_cpu] (Some serverError);
        After 60; PostMetricsValues [sample_cpu] (Some serverError);
        After 60; PostMetricsValues [sample_cpu] None].
Proof. vm_compute. repeat split. Qed.

Lemma deliver_trace (c : Context) (e : cycleEnv) (orig : list postValue)
    (st : loopSt) :
  exists more,
    trace (stateOf (deliver c e orig st))
    = trace st ++ PostMetricsValues (flat_map values orig) (postErr e) :: more.
Proof.
  unfold deliver. rewrite postValues_concat. simpl app.
  destruct (postErr e) as [err |].
  - simpl stateOf. rewrite requeue_spec. cbn [trace].
    eexists.
    match goal with
    | |- context [if ?b then _ else _] => destruct b
    end; cbn [trace log setState]; rewrite <- !app_assoc; reflexivity.
  - match goal with
    | |- context [if ?b then _ else _] => destruct b
    end; cbn [stateOf trace arrive log]; rewrite <- app_assoc;
      eexists; reflexivity.
Qed.

(** *** Merging *)

(** C2.  A pass that receives a batch [v] takes exactly one more batch when
    [postQueue] is not empty at that moment and none when it is empty; the
    rest of the queue stays queued, however long it is.  So [origPostValues]
    holds one or two batches, and the post of the pass carries the samples
    of these batches and nothing else. *)
Theorem receive_merges_at_most_two (c : Context) (e : cycleEnv)
    (s : loopState) (v : postValue) (q pending : list postValue)
    (tr : list event) :
  let st1 := arrive c (afterSelect e) (mkLoopSt s q pending tr) in
  let orig := v :: firstn 1 (postQueue st1) in
  receive c e (mkLoopSt s (v :: q) pending tr)
  = Some (orig, mkLoopSt s (skipn 1 (postQueue st1)) (sending st1) (trace st1))
  /\ (1 <= len orig <= 2)%nat
  /\ (postQueue st1 = [] <-> orig = [v])
  /\ (forall nextValues rest, postQueue st1 = nextValues :: rest ->
        orig = [v; nextValues] /\ skipn 1 (postQueue st1) = rest)
  /\ (forall st2, exists more,
        trace (stateOf (deliver c e orig st2))
        = trace st2 ++ PostMetricsValues (flat_map values orig) (postErr e) :: more).
Proof.
  intros st1 orig. split; [apply receive_cons |].
  subst orig. split; [| split; [| split]].
  - destruct (postQueue st1) as [| n r]; simpl; lia.
  - destruct (postQueue st1) as [| n r]; simpl; split; congruence.
  - intros n r ->. now split.
  - intros st2. apply deliver_trace.
Qed.

Lemma receive_merges_at_most_two_witness :
  receive ctx_abc (quietPass pickPostQueue timerFired None)
    (mkLoopSt loopStateFirst [batch_new; batch_worn; batch_new] [] [])
  = Some ([batch_new; batch_worn], mkLoopSt loopStateFirst [batch_new] [] []).
Proof.
  exact (proj1 (receive_merges_at_most_two ctx_abc
                  (quietPass pickPostQueue timerFired None) loopStateFirst
                  batch_new [batch_worn; batch_new] [] [])).
Defined.

(** Three batches are queued; the pass posts the first two together and
    leaves the third. *)
Example cycle_merges_two_of_three :
  let st := mkLoopSt loopStateFirst [batch_new; batch_worn; batch_new] [] [] in
  cycle ctx_abc 37 (quietPass pickPostQueue timerFired None) st
  = Next (mkLoopSt loopStateQueued [batch_new] []
            [After 0; PostMetricsValues [sample_cpu; sample_mem] None]).
Proof. reflexivity. Qed.

(** *** Termination *)

Lemma cycle_error_forceReturn (c : Context) (d : Z) (e : cycleEnv)
    (st st' : loopSt) (err : error) :
  cycle c d e st = Return (Some err) st' -> err = forceReturn.
Proof.
  unfold cycle, deliver.
  repeat match goal with
         | |- context [match ?x with _ => _ end] =>
             match x with
             | receive _ _ _ => destruct x as [[? ?] |]
             | _ => destruct x
             end
         end; intros H; try discriminate; now inversion H.
Qed.

(** C3.  When the scheduler is already Terminating and receives a
    termination signal, at the first [select] of a pass or at the one that
    waits before the post, the pass returns the forced-exit error, and so
    does [loop] whatever would have come next; this is not the nil of a
    completed drain. *)
Theorem second_termination_forces_return (c : Context) (d : Z) (e : cycleEnv)
    (st : loopSt) :
  lState st = loopStateTerminating ->
  fired e = pickTerm
  \/ (fired e = pickPostQueue /\ woken e = termReceived
      /\ postQueue (arrive c (beforeSelect e) st) <> []) ->
  (exists st', cycle c d e st = Return (Some forceReturn) st')
  /\ (forall es, fst (cycles c d (e :: es) st) = Returned (Some forceReturn))
  /\ Returned (Some forceReturn) <> Returned None.
Proof.
  intros Hterm Hsig.
  assert (Hc : exists st', cycle c d e st = Return (Some forceReturn) st').
  { unfold cycle.
    assert (H0 : lState (arrive c (beforeSelect e) st) = loopStateTerminating)
      by exact Hterm.
    destruct Hsig as [-> | (-> & -> & Hq)].
    - rewrite H0. simpl. eexists; reflexivity.
    - destruct (arrive c (beforeSelect e) st) as [s0 q0 p0 t0] eqn:Harr.
      simpl in H0, Hq. subst s0.
      destruct q0 as [| v q0]; [congruence |].
      rewrite receive_cons. cbv beta iota zeta.
      unfold nextState. simpl. eexists; reflexivity. }
  split; [exact Hc | split].
  - intros es. destruct Hc as [st' Hc]. simpl. now rewrite Hc.
  - discriminate.
Qed.

Lemma second_termination_forces_return_witness :
  ((exists st', cycle ctx_abc 37 (quietPass pickTerm timerFired None) st_terminating
                = Return (Some forceReturn) st')
   /\ (forall es, fst (cycles ctx_abc 37
                         (quietPass pickTerm timerFired None :: es) st_terminating)
                  = Returned (Some forceReturn))
   /\ Returned (Some forceReturn) <> Returned None)
  /\ ((exists st', cycle ctx_abc 37 (quietPass pickPostQueue termReceived None)
                     st_terminating
                   = Return (Some forceReturn) st')
      /\ (forall es, fst (cycles ctx_abc 37
                            (quietPass pickPostQueue termReceived None :: es)
                            st_terminating)
                     = Returned (Some forceReturn))
      /\ Returned (Some forceReturn) <> Returned None).
Proof.
  split.
  - apply (second_termination_forces_return ctx_abc 37
             (quietPass pickTerm timerFired None) st_terminating eq_refl).
    left. reflexivity.
  - apply (second_termination_forces_return ctx_abc 37
             (quietPass pickPostQueue termReceived None) st_terminating eq_refl).
    right. repeat split. discriminate.
Defined.

(** The first termination signal, or the end of the drain, returns nil. *)
Example first_termination_returns_nil :
  cycle ctx_abc 37 (quietPass pickTerm timerFired None)
    (mkLoopSt loopStateDefault [] [] [])
  = Return None (mkLoopSt loopStateTerminating [] [] [])
  /\ cycle ctx_abc 37 (quietPass pickPostQueue timerFired None) st_terminating
     = Return None
         (mkLoopSt loopStateTerminating [] []
            [After 1; PostMetricsValues [sample_cpu] None]).
Proof. split; reflexivity. Qed.

(** *** The events of a run only accumulate *)

Lemma extends_refl (tr : list event) : extends tr tr.
Proof. exists []. now rewrite app_nil_r. Qed.

Lemma extends_trans (a b c : list event) :
  extends a b -> extends b c -> extends a c.
Proof.
  intros [m1 ->] [m2 ->]. exists (m1 ++ m2). now rewrite app_assoc.
Qed.

Lemma extends_app (tr more : list event) : extends tr (tr ++ more).
Proof. now exists more. Qed.

Lemma arrive_extends (c : Context) (a : arrival) (st : loopSt) :
  extends (trace st) (trace (arrive c a st)).
Proof. apply extends_app. Qed.

Lemma receive_extends (c : Context) (e : cycleEnv) (st : loopSt)
    (orig : list postValue) (st' : loopSt) :
  receive c e st = Some (orig, st') -> extends (trace st) (trace st').
Proof.
  destruct st as [s q pending tr]. destruct q as [| v q]; [discriminate |].
  rewrite receive_cons. intros H. injection H as _ <-. apply extends_app.
Qed.

Lemma deliver_extends (c : Context) (e : cycleEnv) (orig : list postValue)
    (st : loopSt) :
  extends (trace st) (trace (stateOf (deliver c e orig st))).
Proof.
  destruct (deliver_trace c e orig st) as [more ->]. apply extends_app.
Qed.

Lemma cycle_extends (c : Context) (d : Z) (e : cycleEnv) (st : loopSt) :
  extends (trace st) (trace (stateOf (cycle c d e st))).
Proof.
  apply (extends_trans _ _ _ (arrive_extends c (beforeSelect e) st)).
  unfold cycle. destruct (fired e).
  - destruct (isTerminating (lState (arrive c (beforeSelect e) st))).
    + apply extends_refl.
    + match goal with
      | |- context [if ?b then _ else _] => destruct b
      end; apply extends_app.
  - destruct (receive c e (arrive c (beforeSelect e) st)) as [[orig st1] |] eqn:Hr.
    + apply (extends_trans _ _ _ (receive_extends _ _ _ _ _ Hr)).
      assert (Hlog : forall ev s,
                extends (trace st1)
                  (trace (log ev (setState s (arrive c (beforeNextState e) st1))))).
      { intros ev s. cbn [log trace setState].
        eapply extends_trans; [apply arrive_extends | apply extends_app]. }
      destruct (woken e).
      * eapply extends_trans; [apply Hlog | apply deliver_extends].
      * match goal with
        | |- context [if ?b then _ else _] => destruct b
        end.
        -- apply Hlog.
        -- eapply extends_trans; [| apply deliver_extends].
           exact (Hlog _ _).
    + apply extends_refl.
Qed.

Lemma cycles_extends (c : Context) (d : Z) (es : list cycleEnv) :
  forall st, extends (trace st) (trace (snd (cycles c d es st))).
Proof.
  induction es as [| e es IH]; intros st; simpl.
  - apply extends_refl.
  - pose proof (cycle_extends c d e st) as H.
    destruct (cycle c d e st) as [st' | err st']; simpl in H.
    + eapply extends_trans; [exact H | apply IH].
    + exact H.
Qed.

Lemma cycles_error_forceReturn (c : Context) (d : Z) (es : list cycleEnv) :
  forall st err,
    fst (cycles c d es st) = Returned (Some err) -> err = forceReturn.
Proof.
  induction es as [| e es IH]; intros st err; simpl.
  - discriminate.
  - destruct (cycle c d e st) as [st' | [err' |] st'] eqn:Hc; simpl.
    + apply IH.
    + intros H. injection H as <-. eapply cycle_error_forceReturn; exact Hc.
    + discriminate.
Qed.

Lemma loop_error_forceReturn (c : Context) (env : loopEnv) (err : error) :
  fst (loop c env) = Returned (Some err) -> err = forceReturn.
Proof.
  unfold loop. destruct (initialWake env); [| discriminate].
  match goal with
  | |- context [cycles ?c ?d ?es ?st] =>
      pose proof (cycles_error_forceReturn c d es st err) as H;
      destruct (cycles c d es st) as [r st']
  end.
  exact H.
Qed.

(** *** The initial wait *)

(** C9.  [loop] first arms a timer of half the host's delay (integer
    division).  If the termination signal comes first, [loop] returns nil
    and has done nothing else; if the timer fires, the plugin generators are
    initialised, the checkers started, and the passes begin.  Half the delay
    is less than the delay unless the delay is 0. *)
Theorem loop_initial_half_delay (c : Context) (ps : list cycleEnv) :
  let d := delayByHost (ctxConfig c) (ctxHost c) in
  loop c (mkLoopEnv termReceived ps) = (Returned None, [After (d / 2)])
  /\ extends [After (d / 2); InitPluginGenerators; StartCheckers]
       (snd (loop c (mkLoopEnv timerFired ps)))
  /\ Z.quot d 2 = d / 2
  /\ 0 <= d / 2 <= d
  /\ (0 < d -> d / 2 < d).
Proof.
  intros d. pose proof (delayByHost_nonneg (ctxConfig c) (ctxHost c)) as Hd.
  fold d in Hd.
  assert (Hq : Z.quot d 2 = d / 2) by (apply Z.quot_div_nonneg; lia).
  split; [| split; [| split; [| split]]].
  - unfold loop. simpl. fold d. now rewrite Hq.
  - unfold loop. simpl initialWake. cbv iota. fold d. rewrite Hq.
    match goal with
    | |- context [cycles ?c ?d ?es ?st] =>
        pose proof (cycles_extends c d es st) as H;
        destruct (cycles c d es st) as [r st']
    end.
    exact H.
  - exact Hq.
  - split; [apply Z.div_pos; lia | apply Z.div_le_upper_bound; lia].
  - intros Hpos. apply Z.div_lt_upper_bound; lia.
Qed.

Lemma loop_initial_half_delay_witness :
  loop ctx_abc (mkLoopEnv termReceived [quietPass pickTerm timerFired None])
  = (Returned None, [After (delayByHost conf60 host_abc / 2)]).
Proof.
  exact (proj1 (loop_initial_half_delay ctx_abc
                  [quietPass pickTerm timerFired None])).
Defined.

Example loop_initial_delay_abc :
  loop ctx_abc (mkLoopEnv termReceived []) = (Returned None, [After 18]).
Proof. vm_compute. reflexivity. Qed.

(** *** Non-finite samples *)

(** The batch built from one set of values: exactly the entries that are
    neither NaN nor infinite, in order. *)
Lemma appendValues_keeps_finite (hostID : string) (created : Z)
    (entries : list (string * spec_float)) :
  forall acc,
    fst (appendValues hostID created entries acc)
    = fst acc
      ++ map (fun nv => mkValue hostID (fst nv) created (snd nv))
           (filter (fun nv => negb (IsNaN (snd nv) || IsInf (snd nv) 0)) entries).
Proof.
  induction entries as [| [name value] rest IH]; intros acc; simpl.
  - now rewrite app_nil_r.
  - destruct (IsNaN value || IsInf value 0); simpl; rewrite IH; simpl.
    + reflexivity.
    + now rewrite <- app_assoc.
Qed.

(** C7.  A batch made by the ingestion loop holds no sample whose value is
    NaN or infinite, and no post of [loop] carries one: whatever the agent
    produced, whenever the producers got through and whichever posts
    failed. *)
Theorem nonfinite_never_posted (c : Context) :
  (forall (result : MetricsResult) (v : CreatingMetricsValue),
      In v (values (fst (enqueue c result))) ->
      IsNaN (Value v) = false /\ IsInf (Value v) 0 = false)
  /\ (forall (env : loopEnv) (postValues : list CreatingMetricsValue)
             (err : option error) (v : CreatingMetricsValue),
        In (PostMetricsValues postValues err) (snd (loop c env)) ->
        In v postValues ->
        IsNaN (Value v) = false /\ IsInf (Value v) 0 = false).
Proof.
  split.
  - intros result v Hv. pose proof (enqueue_ok c result) as [H _].
    unfold finiteBatch in H. rewrite Forall_forall in H. exact (H v Hv).
  - intros env postValues err v Hpost Hv.
    pose proof (loop_events c env) as H. rewrite Forall_forall in H.
    specialize (H _ Hpost). simpl in H. rewrite Forall_forall in H.
    exact (H v Hv).
Qed.

Example enqueue_result_mixed :
  enqueue ctx_abc result_mixed
  = (mkPostValue [sample_cpu] 0,
     [LogInvalidValue "abc" "broken" S754_nan;
      LogInvalidValue "abc" "overflow" (S754_infinity false)]).
Proof. reflexivity. Qed.

Example loop_post_then_term :
  loop ctx_abc env_post_then_term
  = (Returned None,
     [After 18; InitPluginGenerators; StartCheckers;
      LogInvalidValue "abc" "broken" S754_nan;
      LogInvalidValue "abc" "overflow" (S754_infinity false);
      After 0; PostMetricsValues [sample_cpu] None]).
Proof. vm_compute. reflexivity. Qed.

Lemma nonfinite_never_posted_witness :
  IsNaN (Value sample_cpu) = false /\ IsInf (Value sample_cpu) 0 = false.
Proof.
  apply (proj2 (nonfinite_never_posted ctx_abc) env_post_then_term
           [sample_cpu] None sample_cpu).
  - rewrite loop_post_then_term. simpl. tauto.
  - simpl. tauto.
Defined.

(** *** Run *)

Lemma loop_no_status_update (c : Context) (env : loopEnv) (id status : string)
    (r : option error) :
  ~ In (CallUpdateHostStatusOnStop id status r) (snd (loop c env)).
Proof.
  intros Hin. pose proof (loop_events c env) as H. rewrite Forall_forall in H.
  exact (H _ Hin).
Qed.

(** C10.  [Run] returns what [loop] returned.  It calls [UpdateHostStatus]
    with the on-stop status if and only if [loop] returned nil and an on-stop
    status is configured.  When [loop] returns an error, which can only be
    the forced exit of a second termination signal, [Run] does nothing more
    and returns that error. *)
Theorem Run_on_stop_status (c : Context) (env : loopEnv) (e : option error) :
  fst (Run c env e) = fst (loop c env)
  /\ ((exists id status r,
         In (CallUpdateHostStatusOnStop id status r) (snd (Run c env e)))
      <-> fst (loop c env) = Returned None /\ OnStop (ctxConfig c) <> "")
  /\ (forall err, fst (loop c env) = Returned (Some err) ->
        err = forceReturn /\ Run c env e = (Returned (Some err), snd (loop c env)))
  /\ (fst (loop c env) = Returned None -> OnStop (ctxConfig c) <> "" ->
        extends
          (snd (loop c env)
           ++ [CallUpdateHostStatusOnStop (ID (ctxHost c)) (OnStop (ctxConfig c)) e])
          (snd (Run c env e))).
Proof.
  pose proof (loop_no_status_update c env) as Hno.
  pose proof (loop_error_forceReturn c env) as Hforce.
  unfold Run. destruct (loop c env) as [r tr]. simpl in Hno, Hforce.
  assert (Hquiet : ~ exists id status r,
                       In (CallUpdateHostStatusOnStop id status r) tr).
  { intros (id & status & r' & Hin). exact (Hno _ _ _ Hin). }
  destruct r as [| [err |]]; cbn [fst snd].
  - split; [reflexivity | split; [| split]].
    + split; [intros H; now apply Hquiet in H | intros [H _]; discriminate].
    + intros err H. discriminate.
    + intros H. discriminate.
  - split; [reflexivity | split; [| split]].
    + split; [intros H; now apply Hquiet in H | intros [H _]; discriminate].
    + intros err' H. injection H as <-. split; [now apply Hforce | reflexivity].
    + intros H. discriminate.
  - destruct (String.eqb_spec (OnStop (ctxConfig c)) "") as [Heq | Hne];
      cbn [negb fst snd].
    + split; [reflexivity | split; [| split]].
      * split; [intros H; now apply Hquiet in H | intros [_ H]; contradiction].
      * intros err H. discriminate.
      * intros _ H. contradiction.
    + split; [reflexivity | split; [| split]].
      * split; [intros _; now split |].
        intros _. exists (ID (ctxHost c)), (OnStop (ctxConfig c)), e.
        apply in_or_app. right. now left.
      * intros err H. discriminate.
      * intros _ _. rewrite app_assoc. apply extends_app.
Qed.

Lemma Run_on_stop_status_witness :
  forceReturn = forceReturn
  /\ Run ctx_on_stop env_double_term None
     = (Returned (Some forceReturn), snd (loop ctx_on_stop env_double_term)).
Proof.
  apply (proj1 (proj2 (proj2 (Run_on_stop_status ctx_on_stop env_double_term None)))
           forceReturn).
  vm_compute. reflexivity.
Defined.

Example Run_after_drain :
  Run ctx_on_stop env_post_then_term None
  = (Returned None,
     snd (loop ctx_on_stop env_post_then_term)
     ++ [CallUpdateHostStatusOnStop "abc" "poweroff" None]).
Proof. vm_compute. reflexivity. Qed.

Example Run_double_termination :
  Run ctx_on_stop env_double_term None
  = (Returned (Some forceReturn), snd (loop ctx_on_stop env_double_term))
  /\ forall id status r,
       ~ In (CallUpdateHostStatusOnStop id status r)
            (snd (Run ctx_on_stop env_double_term None)).
Proof.
  assert (H : Run ctx_on_stop env_double_term None
              = (Returned (Some forceReturn), snd (loop ctx_on_stop env_double_term)))
    by (vm_compute; reflexivity).
  split; [exact H |].
  intros id status r. rewrite H. apply loop_no_status_update.
Qed.

(** ** Host registration *)

Example prepareHost_up :
  prepareHost conf60 store_empty (inl specs_plain) api_up
  = (inl host_abc,
     [CallCreateHost (mkHostSpec "web01" [] [] [] "" "") (inl "abc");
      CallFindHost "abc" (inl host_abc);
      CallSaveHostID "abc" None]).
Proof. reflexivity. Qed.

Example prepareHost_unauthorized :
  prepareHost conf60 store_abc (inl specs_plain) api_unauthorized
  = (inr (ErrorString
            ("Failed to find this host on mackerel (You may want to delete file "
             ++ doubleQuote ++ "/var/lib/mackerel-agent/id" ++ doubleQuote
             ++ " to register this host to an another organization): 401 Unauthorized")%string),
     [CallFindHost "abc" (inr unauthorized); Warningf "401 Unauthorized"]).
Proof. reflexivity. Qed.

Example prepareHost_down :
  let r := prepareHost conf60 store_empty (inl specs_plain) api_down in
  fst r = inr (ErrorString "Failed to register this host: 503 Service Unavailable")
  /\ len (filter isCall (snd r)) = 20%nat
  /\ len (filter (isSleep 3) (snd r)) = 19%nat
  /\ len (snd r) = 59%nat.
Proof. vm_compute. repeat split. Qed.

(** *** One attempt *)

Lemma lastAnswer_snoc (tr : list hostEvent) (ev : hostEvent) :
  lastAnswer (tr ++ [ev])
  = match callError ev with
    | Some r => r
    | None => lastAnswer tr
    end.
Proof. unfold lastAnswer. now rewrite fold_left_app. Qed.

Lemma lastAnswer_call (tr more : list hostEvent) (call : hostEvent)
    (r : option error) :
  callError call = Some r ->
  Forall (fun ev => callError ev = None) more ->
  lastAnswer (tr ++ call :: more) = r.
Proof.
  intros Hc Hm. unfold lastAnswer. rewrite fold_left_app. simpl. rewrite Hc.
  induction Hm as [| ev more Hev _ IH]; simpl.
  - reflexivity.
  - now rewrite Hev.
Qed.

Section RetryPolicy.

(** A service and one of the operations that [prepareHost] retries. *)
Variable api : API.
Variable op : operation.

(** What one attempt does: one call, a warning if it failed, [lastErr] set
    to the answer; the closure reports the error to [retry.Retry] unless it
    is a client error. *)
Lemma attempt_spec (s : vars) :
  fst (attempt api op s)
  = match answer api op s with
    | Some e => if isClientError e then None else Some e
    | None => None
    end
  /\ lastErr (snd (attempt api op s)) = answer api op s
  /\ exists call,
       callError call = Some (answer api op s)
       /\ kindOf call = Some (kind op)
       /\ events (snd (attempt api op s))
          = events s
            ++ call :: match answer api op s with
                       | Some e => [Warningf (Error e)]
                       | None => []
                       end.
Proof.
  destruct op as [ci | spec | | id hostSt]; simpl;
    [ unfold tryFindHostByCustomIdentifier;
      destruct (FindHostByCustomIdentifier api (events s) ci) as [h | e]
    | unfold tryCreateHost; destruct (CreateHost api (events s) spec) as [h | e]
    | unfold tryFindHost; destruct (FindHost api (events s) (hostID s)) as [h | e]
    | unfold tryUpdateHostStatus;
      destruct (UpdateHostStatus api (events s) id hostSt) as [e |] ];
    simpl; try destruct (isClientError e); simpl;
    (split; [reflexivity | split; [reflexivity |]]);
    eexists; (split; [| split; [| rewrite <- ?app_assoc; reflexivity]]);
    reflexivity.
Qed.

Lemma attempt_calls (s : vars) (i : Z) :
  callsOf (events (snd (attempt api op s))) = S (callsOf (events s))
  /\ sleepsOf i (events (snd (attempt api op s))) = sleepsOf i (events s).
Proof.
  destruct (attempt_spec s) as (_ & _ & call & Hc & _ & ->).
  unfold callsOf, sleepsOf. rewrite !filter_app, !length_app.
  assert (Hcall : isCall call = true) by (unfold isCall; now rewrite Hc).
  assert (Hsl : isSleep i call = false) by (destruct call; simpl in *; congruence).
  simpl. rewrite Hcall, Hsl.
  destruct (answer api op s); simpl; lia.
Qed.

Lemma attempt_lastErrIsLastAnswer (s : vars) :
  lastErrIsLastAnswer (snd (attempt api op s)).
Proof.
  destruct (attempt_spec s) as (_ & Hl & call & Hc & _ & He).
  unfold lastErrIsLastAnswer. rewrite He, Hl.
  apply lastAnswer_call; [exact Hc |].
  destruct (answer api op s); repeat constructor.
Qed.

Lemma attempt_resultOrError (s : vars) :
  match op with
  | opFindHost | opFindHostByCustomIdentifier _ => True
  | _ => False
  end ->
  resultOrError (snd (attempt api op s)).
Proof.
  unfold resultOrError.
  destruct op as [ci | spec | | id hostSt]; simpl; try contradiction; intros _;
    [ unfold tryFindHostByCustomIdentifier;
      destruct (FindHostByCustomIdentifier api (events s) ci) as [h | e]
    | unfold tryFindHost; destruct (FindHost api (events s) (hostID s)) as [h | e] ];
    simpl; try destruct (isClientError e); simpl; split; congruence.
Qed.

(** *** The retry policy *)

Lemma Retry_preserves (P : vars -> Prop) (fn : vars -> option error * vars) :
  (forall s, P s -> P (snd (fn s))) ->
  (forall i s, P s -> P (emit (Sleep i) s)) ->
  forall n i s, P s -> P (snd (Retry n i fn s)).
Proof.
  intros Hfn Hsleep n i. induction n as [| n IH]; intros s Hs; simpl.
  - exact Hs.
  - pose proof (Hfn s Hs) as H. destruct (fn s) as [err s']. simpl in H.
    destruct err as [e |]; [| exact H].
    destruct n as [| n']; [exact H |].
    apply IH, Hsleep, H.
Qed.

Lemma Retry_establishes (P : vars -> Prop) (fn : vars -> option error * vars) :
  (forall s, P (snd (fn s))) ->
  (forall i s, P s -> P (emit (Sleep i) s)) ->
  forall n i s, P (snd (Retry (S n) i fn s)).
Proof.
  intros Hfn Hsleep n i s. cbn [Retry].
  pose proof (Hfn s) as H. destruct (fn s) as [err s']. simpl in H.
  destruct err as [e |]; [| exact H].
  destruct n as [| n']; [exact H |].
  apply Retry_preserves; [intros; apply Hfn | exact Hsleep |].
  apply Hsleep, H.
Qed.

Lemma Retry_stops (s : vars) (n : nat) (i : Z) :
  fst (attempt api op s) = None ->
  Retry (S n) i (attempt api op) s = (None, snd (attempt api op s)).
Proof.
  intros H. cbn [Retry]. destruct (attempt api op s) as [err s'].
  simpl in H. now subst err.
Qed.

Lemma Retry_goes_on (s : vars) (n : nat) (i : Z)
    (e : error) :
  fst (attempt api op s) = Some e ->
  Retry (S (S n)) i (attempt api op) s
  = Retry (S n) i (attempt api op) (emit (Sleep i) (snd (attempt api op s)))
  /\ Retry 1 i (attempt api op) s = (Some e, snd (attempt api op s)).
Proof.
  intros H. cbn [Retry]. destruct (attempt api op s) as [err s'].
  simpl in H. subst err. now split.
Qed.

Lemma Retry_calls_le (i : Z) (n : nat) :
  forall s,
    (callsOf (events (snd (Retry n i (attempt api op) s)))
     <= callsOf (events s) + n)%nat.
Proof.
  induction n as [| n IH]; intros s.
  - simpl. lia.
  - pose proof (attempt_calls s i) as [Hc _].
    destruct (fst (attempt api op s)) as [e |] eqn:Hf.
    + destruct n as [| n'].
      * rewrite (proj2 (Retry_goes_on s 0 i e Hf)). simpl. lia.
      * rewrite (proj1 (Retry_goes_on s n' i e Hf)).
        specialize (IH (emit (Sleep i) (snd (attempt api op s)))).
        assert (Hs : callsOf (events (emit (Sleep i) (snd (attempt api op s))))
                     = callsOf (events (snd (attempt api op s)))).
        { unfold callsOf. simpl. rewrite filter_app, length_app. simpl. lia. }
        lia.
    + rewrite (Retry_stops s n i Hf). simpl. lia.
Qed.

Lemma Retry_always_failing (i : Z) :
  (forall s, exists e, answer api op s = Some e /\ isClientError e = false) ->
  forall n s,
    callsOf (events (snd (Retry (S n) i (attempt api op) s)))
    = (callsOf (events s) + S n)%nat
    /\ sleepsOf i (events (snd (Retry (S n) i (attempt api op) s)))
       = (sleepsOf i (events s) + n)%nat
    /\ exists e, fst (Retry (S n) i (attempt api op) s) = Some e
                 /\ lastErr (snd (Retry (S n) i (attempt api op) s)) = Some e
                 /\ isClientError e = false.
Proof.
  intros Hdown n. induction n as [| n IH]; intros s.
  - destruct (Hdown s) as (e & Ha & Hc).
    destruct (attempt_spec s) as (Hf & Hl & _).
    rewrite Ha, Hc in Hf. rewrite Ha in Hl.
    pose proof (attempt_calls s i) as [Hn Hs].
    rewrite (proj2 (Retry_goes_on s 0 i e Hf)). simpl.
    repeat split; try lia. now exists e.
  - destruct (Hdown s) as (e & Ha & Hc).
    destruct (attempt_spec s) as (Hf & _).
    rewrite Ha, Hc in Hf.
    pose proof (attempt_calls s i) as [Hn Hs].
    rewrite (proj1 (Retry_goes_on s n i e Hf)).
    destruct (IH (emit (Sleep i) (snd (attempt api op s)))) as (Hn' & Hs' & He').
    assert (H1 : callsOf (events (emit (Sleep i) (snd (attempt api op s))))
                 = callsOf (events (snd (attempt api op s)))).
    { unfold callsOf. simpl. rewrite filter_app, length_app. simpl. lia. }
    assert (H2 : sleepsOf i (events (emit (Sleep i) (snd (attempt api op s))))
                 = S (sleepsOf i (events (snd (attempt api op s))))).
    { unfold sleepsOf. simpl. rewrite filter_app, length_app. simpl.
      rewrite Z.eqb_refl. simpl. lia. }
    repeat split; try lia. exact He'.
Qed.

(** *** prepareHost as a whole *)

Lemma emit_invariants (ev : hostEvent) (s : vars) :
  callError ev = None ->
  (lastErrIsLastAnswer s -> lastErrIsLastAnswer (emit ev s))
  /\ (resultOrError s -> resultOrError (emit ev s)).
Proof.
  intros Hev. split; [| trivial].
  unfold lastErrIsLastAnswer. simpl. rewrite lastAnswer_snoc, Hev. trivial.
Qed.

Lemma doRetry_lastErrIsLastAnswer (n : nat)
    (i : Z) (s : vars) :
  lastErrIsLastAnswer s ->
  lastErrIsLastAnswer (snd (Retry n i (attempt api op) s)).
Proof.
  apply Retry_preserves.
  - intros s' _. apply attempt_lastErrIsLastAnswer.
  - intros i' s'. now apply emit_invariants.
Qed.

Lemma doRetry_resultOrError (n : nat) (i : Z)
    (s : vars) :
  match op with
  | opFindHost | opFindHostByCustomIdentifier _ => True
  | _ => False
  end ->
  resultOrError (snd (Retry (S n) i (attempt api op) s)).
Proof.
  intros Hop. apply Retry_establishes.
  - intros s'. now apply attempt_resultOrError.
  - intros i' s'. now apply emit_invariants.
Qed.

Lemma succeeded_app_l (k : callKind) (tr more : list hostEvent) :
  succeeded k tr -> succeeded k (tr ++ more).
Proof.
  intros (ev & Hin & Hk). exists ev. split; [| exact Hk].
  apply in_or_app. now left.
Qed.

Lemma succeeded_app_r (k : callKind) (tr more : list hostEvent) :
  succeeded k more -> succeeded k (tr ++ more).
Proof.
  intros (ev & Hin & Hk). exists ev. split; [| exact Hk].
  apply in_or_app. now right.
Qed.

Lemma calledSucceeded_app (k : callKind) (tr more : list hostEvent) :
  calledSucceeded tr -> onlyKind k more ->
  k = kFindHostByCustomIdentifier \/ succeeded k more ->
  calledSucceeded (tr ++ more).
Proof.
  intros Htr Honly Hk k' Hk' (ev & Hin & Hev).
  apply in_app_or in Hin. destruct Hin as [Hin | Hin].
  - apply succeeded_app_l, Htr; [exact Hk' |]. now exists ev.
  - pose proof (Honly ev k' Hin Hev) as ->.
    destruct Hk as [-> | Hs]; [congruence |].
    now apply succeeded_app_r.
Qed.

Lemma calledSucceeded_quiet (tr : list hostEvent) (ev : hostEvent) :
  kindOf ev = None -> calledSucceeded tr -> calledSucceeded (tr ++ [ev]).
Proof.
  intros Hev Htr.
  apply (calledSucceeded_app kFindHostByCustomIdentifier); [exact Htr | | now left].
  intros ev' k' [<- | []] Hk'. congruence.
Qed.

(** What a retried call adds to the trace: calls of its operation only,
    and one that succeeded if [lastErr] is nil afterwards. *)
Lemma Retry_kind (i : Z) (n : nat) :
  forall s,
    exists more,
      events (snd (Retry n i (attempt api op) s)) = events s ++ more
      /\ onlyKind (kind op) more
      /\ ((0 < n)%nat -> lastErr (snd (Retry n i (attempt api op) s)) = None ->
          succeeded (kind op) more).
Proof.
  induction n as [| n IH]; intros s.
  - exists []. simpl. rewrite app_nil_r.
    split; [reflexivity | split; [intros ev k' [] | lia]].
  - destruct (attempt_spec s) as (Hf & Hl & call & Hc & Hk & He).
    set (warn := match answer api op s with
                 | Some e => [Warningf (Error e)]
                 | None => []
                 end) in He.
    assert (Hwarn : forall ev k', In ev warn -> kindOf ev = Some k' -> False).
    { subst warn. destruct (answer api op s); intros ev k' Hin Hev.
      - destruct Hin as [<- | []]. discriminate Hev.
      - destruct Hin. }
    destruct (fst (attempt api op s)) as [e |] eqn:Hfst.
    + assert (Hans : lastErr (snd (attempt api op s)) <> None).
      { rewrite Hl. destruct (answer api op s) as [e' |]; [discriminate |].
        discriminate Hf. }
      destruct n as [| n'].
      * rewrite (proj2 (Retry_goes_on s 0 i e Hfst)). simpl snd.
        exists (call :: warn). split; [exact He | split].
        -- intros ev k' [<- | Hin] Hev; [congruence |].
           now elim (Hwarn ev k' Hin Hev).
        -- intros _ Hnone. now elim Hans.
      * rewrite (proj1 (Retry_goes_on s n' i e Hfst)).
        destruct (IH (emit (Sleep i) (snd (attempt api op s))))
          as (more & Hm & Honly & Hsucc).
        exists ((call :: warn) ++ Sleep i :: more).
        split; [| split].
        -- rewrite Hm. simpl events. rewrite He.
           rewrite <- !app_assoc. reflexivity.
        -- intros ev k' Hin Hev. apply in_app_or in Hin.
           destruct Hin as [[<- | Hin] | [<- | Hin]].
           ++ congruence.
           ++ now elim (Hwarn ev k' Hin Hev).
           ++ discriminate Hev.
           ++ exact (Honly ev k' Hin Hev).
        -- intros _ Hnone.
           apply succeeded_app_r. destruct (Hsucc ltac:(lia) Hnone)
             as (ev & Hin & Hev).
           exists ev. split; [now right | exact Hev].
    + rewrite (Retry_stops s n i Hfst). simpl snd.
      exists (call :: warn). split; [exact He | split].
      * intros ev k' [<- | Hin] Hev; [congruence |].
        now elim (Hwarn ev k' Hin Hev).
      * intros _ Hnone. exists call. split; [now left |].
        split; [exact Hk |]. rewrite Hc. f_equal. now rewrite <- Hl.
Qed.

Lemma doRetry_calledSucceeded (n : nat) (i : Z)
    (s : vars) :
  calledSucceeded (events s) ->
  kind op = kFindHostByCustomIdentifier
  \/ ((0 < n)%nat /\ lastErr (snd (Retry n i (attempt api op) s)) = None) ->
  calledSucceeded (events (snd (Retry n i (attempt api op) s))).
Proof.
  intros Hs Hop.
  destruct (Retry_kind i n s) as (more & -> & Honly & Hsucc).
  apply (calledSucceeded_app (kind op)); [exact Hs | exact Honly |].
  destruct Hop as [Hk | [Hn Hl]]; [now left | right; now apply Hsucc].
Qed.

Lemma doRetry_invariants (s : vars) :
  lastErrIsLastAnswer s -> calledSucceeded (events s) ->
  lastErrIsLastAnswer (doRetry (attempt api op) s)
  /\ (match op with
      | opFindHost | opFindHostByCustomIdentifier _ => True
      | _ => False
      end -> resultOrError (doRetry (attempt api op) s))
  /\ (lastErr (doRetry (attempt api op) s) = None ->
      calledSucceeded (events (doRetry (attempt api op) s))).
Proof.
  intros Hs Hcs. split; [| split].
  - now apply doRetry_lastErrIsLastAnswer.
  - intros Hop. now apply (doRetry_resultOrError 19 retryInterval s).
  - intros Hl. apply doRetry_calledSucceeded; [exact Hcs |].
    right. split; [unfold retryNum; lia | exact Hl].
Qed.

End RetryPolicy.

Ltac error_exit Hinv Hl :=
  split; [| split]; simpl fst; simpl snd;
  [ let e' := fresh "e" in
    let He' := fresh "He" in
    intros e' He'; rewrite Hinv, Hl in He'; injection He' as <-;
    eexists; reflexivity
  | let H := fresh "H" in
    intros H; injection H as H; discriminate H
  | right; eexists; rewrite Hinv; exact Hl ].

Lemma saveHostID_exitOk (store : HostIDStorage) (r : Host) (s : vars) :
  lastErrIsLastAnswer s -> lastErr s = None -> calledSucceeded (events s) ->
  exitOk (saveHostID store r s).
Proof.
  intros Hinv Hnone Hcs. unfold saveHostID, exitOk.
  assert (Hla : lastAnswer (events (emit (CallSaveHostID (ID r)
                                            (SaveHostID store (ID r))) s)) = None).
  { simpl. rewrite lastAnswer_snoc. simpl. now rewrite Hinv. }
  assert (Hcs' : calledSucceeded (events (emit (CallSaveHostID (ID r)
                                                  (SaveHostID store (ID r))) s))).
  { simpl. now apply calledSucceeded_quiet. }
  destruct (SaveHostID store (ID r)) as [e |]; simpl fst; simpl snd;
    (split; [intros e' He'; simpl in Hla; congruence | split; [| now left]]).
  - intros H. injection H as H. discriminate H.
  - discriminate.
Qed.

Lemma setStatusAndSave_exitOk (conf : Config) (store : HostIDStorage)
    (api : API) (s : vars) :
  lastErrIsLastAnswer s -> lastErr s = None -> result s <> None ->
  calledSucceeded (events s) ->
  exitOk (setStatusAndSave conf store api s).
Proof.
  intros Hinv Hnone Hres Hcs. unfold setStatusAndSave.
  destruct (result s) as [r |]; [| congruence].
  destruct (negb (OnStart conf =? "")%string
            && negb (OnStart conf =? Status r)%string).
  - destruct (doRetry_invariants api (opUpdateHostStatus (ID r) (OnStart conf))
                s Hinv Hcs) as (Hinv' & _ & Hcs').
    simpl attempt in Hinv', Hcs'.
    destruct (lastErr (doRetry (tryUpdateHostStatus api (ID r) (OnStart conf)) s))
      as [e |] eqn:Hl.
    + error_exit Hinv' Hl.
    + apply saveHostID_exitOk; [exact Hinv' | exact Hl | now apply Hcs'].
  - now apply saveHostID_exitOk.
Qed.

Lemma prepareHost_exitOk (conf : Config) (store : HostIDStorage)
    (collected : hostSpecs + error) (api : API) :
  exitOk (prepareHost conf store collected api).
Proof.
  unfold prepareHost. destruct collected as [sp | e0].
  2: { split; [| split]; simpl.
       - intros e H. discriminate H.
       - intros H. injection H as H. discriminate H.
       - left. intros k _ (ev & [] & _). }
  cbv zeta.
  set (s0 := mkVars None (fst (LoadHostID store)) None []).
  assert (H0 : lastErrIsLastAnswer s0) by reflexivity.
  assert (C0 : calledSucceeded (events s0)) by (intros k _ (ev & [] & _)).
  destruct (snd (LoadHostID store)) as [loadErr |].
  - (* create *)
    match goal with
    | |- context [result ?x] =>
        match x with
        | (if _ then _ else _) => set (s1 := x)
        end
    end.
    assert (H1 : lastErrIsLastAnswer s1
                 /\ (result s1 <> None -> lastErr s1 = None)
                 /\ calledSucceeded (events s1)).
    { subst s1. destruct (negb (customIdentifier sp =? "")%string).
      - set (sR := snd (Retry 3 2
                     (tryFindHostByCustomIdentifier api (customIdentifier sp)) s0)).
        assert (Ha : lastErrIsLastAnswer sR)
          by exact (doRetry_lastErrIsLastAnswer api
                      (opFindHostByCustomIdentifier (customIdentifier sp)) 3 2 s0 H0).
        assert (Hb : resultOrError sR)
          by exact (doRetry_resultOrError api
                      (opFindHostByCustomIdentifier (customIdentifier sp)) 2 2 s0 I).
        assert (Hc : calledSucceeded (events sR))
          by exact (doRetry_calledSucceeded api
                      (opFindHostByCustomIdentifier (customIdentifier sp)) 3 2 s0 C0
                      (or_introl eq_refl)).
        clearbody sR. unfold resultOrError, lastErrIsLastAnswer in *.
        destruct sR as [res hid le evs]. simpl in *.
        destruct res as [r |]; simpl; (split; [exact Ha | split; [| exact Hc]]).
        + intros _. destruct le as [e |]; [| reflexivity].
          assert (Hnil : Some r = None) by (apply (proj2 Hb); discriminate).
          discriminate Hnil.
        + intros H. now elim H.
      - split; [exact H0 | split; [| exact C0]]. intros H. now elim H. }
    destruct H1 as (H1 & H1r & C1).
    destruct (result s1) as [r1 |] eqn:Hr1.
    + apply setStatusAndSave_exitOk; [exact H1 | | congruence | exact C1].
      apply H1r. discriminate.
    + match goal with
      | |- context [doRetry (tryCreateHost api ?spec) s1] =>
          destruct (doRetry_invariants api (opCreateHost spec) s1 H1 C1)
            as (H2 & _ & C2);
          simpl attempt in H2, C2;
          destruct (lastErr (doRetry (tryCreateHost api spec) s1)) as [e |] eqn:Hl2;
          [ error_exit H2 Hl2 |];
          specialize (C2 eq_refl);
          destruct (doRetry_invariants api opFindHost
                      (doRetry (tryCreateHost api spec) s1) H2 C2)
            as (H3 & H3r & C3);
          simpl attempt in H3, H3r, C3; specialize (H3r I);
          destruct (lastErr (doRetry (tryFindHost api)
                               (doRetry (tryCreateHost api spec) s1)))
            as [e |] eqn:Hl3;
          [ error_exit H3 Hl3 |]
      end.
      apply setStatusAndSave_exitOk; [exact H3 | exact Hl3 | | now apply C3].
      unfold resultOrError in H3r. rewrite Hl3 in H3r.
      intros Hnil. apply (proj1 H3r Hnil). reflexivity.
  - (* check the hostID is valid or not *)
    destruct (doRetry_invariants api opFindHost s0 H0 C0) as (H1 & H1r & C1).
    simpl attempt in H1, H1r, C1. specialize (H1r I).
    destruct (lastErr (doRetry (tryFindHost api) s0)) as [e |] eqn:Hl1.
    + destruct (HostIDFile store) as [file |]; error_exit H1 Hl1.
    + apply setStatusAndSave_exitOk; [exact H1 | exact Hl1 | | now apply C1].
      unfold resultOrError in H1r. rewrite Hl1 in H1r.
      intros Hnil. apply (proj1 H1r Hnil). reflexivity.
Qed.

Lemma prepareHost_no_nil (conf : Config) (store : HostIDStorage)
    (collected : hostSpecs + error) (api : API) :
  fst (prepareHost conf store collected api) <> inr nilDereference.
Proof. apply prepareHost_exitOk. Qed.

(** C8 as stated fails for the lookup by custom identifier: it is a remote
    call of the registration, retried under the same rule (3 attempts, 2
    seconds apart), but when it never succeeds, after a client error or
    after transient ones, [prepareHost] does not return an error: it goes
    on, creates the host and returns it. *)
Lemma failed_lookup_is_not_fatal :
  prepareHost conf60 store_empty (inl specs_cloud) api_unknown_identifier
  = (inl host_abc,
     [CallFindHostByCustomIdentifier "i-0123456789.ec2.amazonaws.com"
        (inr (MackerelError true "404 Not Found"));
      Warningf "404 Not Found";
      CallCreateHost
        (mkHostSpec "web01" [] [] [] "" "i-0123456789.ec2.amazonaws.com")
        (inl "abc");
      CallFindHost "abc" (inl host_abc);
      CallSaveHostID "abc" None])
  /\ prepareHost conf60 store_empty (inl specs_cloud) api_lookup_down
     = (inl host_abc,
        [CallFindHostByCustomIdentifier "i-0123456789.ec2.amazonaws.com"
           (inr serverError);
         Warningf "503 Service Unavailable"; Sleep 2;
         CallFindHostByCustomIdentifier "i-0123456789.ec2.amazonaws.com"
           (inr serverError);
         Warningf "503 Service Unavailable"; Sleep 2;
         CallFindHostByCustomIdentifier "i-0123456789.ec2.amazonaws.com"
           (inr serverError);
         Warningf "503 Service Unavailable";
         CallCreateHost
           (mkHostSpec "web01" [] [] [] "" "i-0123456789.ec2.amazonaws.com")
           (inl "abc");
         CallFindHost "abc" (inl host_abc);
         CallSaveHostID "abc" None])
  /\ called kFindHostByCustomIdentifier
       (snd (prepareHost conf60 store_empty (inl specs_cloud) api_unknown_identifier))
  /\ ~ succeeded kFindHostByCustomIdentifier
         (snd (prepareHost conf60 store_empty (inl specs_cloud)
                 api_unknown_identifier))
  /\ ~ (exists e,
          fst (prepareHost conf60 store_empty (inl specs_cloud)
                 api_unknown_identifier) = inr e)
  /\ ~ (exists e,
          fst (prepareHost conf60 store_empty (inl specs_cloud) api_lookup_down)
          = inr e).
Proof.
  split; [reflexivity | split; [reflexivity | split; [| split; [| split]]]].
  - eexists. split; [left; reflexivity | reflexivity].
  - intros (ev & Hin & Hk & Herr). vm_compute in Hin.
    repeat (destruct Hin as [<- | Hin]; [discriminate |]). exact Hin.
  - intros [e He]; vm_compute in He; discriminate He.
  - intros [e He]; vm_compute in He; discriminate He.
Qed.

(** * Further properties of the code *)

(** ** The ingestion step *)

Lemma appendValues_logs (hostID : string) (created : Z)
    (entries : list (string * spec_float)) :
  forall acc,
    snd (appendValues hostID created entries acc)
    = snd acc
      ++ map (fun nv => LogInvalidValue hostID (fst nv) (snd nv))
           (filter (fun nv => negb (isFinite (snd nv))) entries).
Proof.
  unfold isFinite.
  induction entries as [| [name value] rest IH]; intros acc; simpl.
  - now rewrite app_nil_r.
  - destruct (IsNaN value || IsInf value 0); simpl; rewrite IH; simpl.
    + now rewrite <- app_assoc.
    + reflexivity.
Qed.

Lemma collectValues_content (c : Context) (created : Z)
    (vs : list ValuesCustomIdentifier) :
  forall acc,
    collectValues c created vs acc
    = (fst acc ++ flat_map (samplesOf c created) vs,
       snd acc ++ flat_map (warningsOf c) vs).
Proof.
  induction vs as [| v rest IH]; intros [accv accl]; simpl.
  - now rewrite !app_nil_r.
  - unfold samplesOf, warningsOf, resolveHostID.
    destruct (CustomIdentifier v) as [ci |].
    + destruct (lookupHost (CustomIdentifierHosts c) ci) as [host |].
      * rewrite IH, appendValues_keeps_finite, appendValues_logs. simpl.
        now rewrite <- !app_assoc.
      * rewrite IH. reflexivity.
    + rewrite IH, appendValues_keeps_finite, appendValues_logs. simpl.
      now rewrite <- !app_assoc.
Qed.

Lemma enqueue_eq (c : Context) (result : MetricsResult) :
  enqueue c result
  = (mkPostValue (flat_map (samplesOf c (Created result)) (ResultValues result)) 0,
     flat_map (warningsOf c) (ResultValues result)).
Proof.
  unfold enqueue. rewrite collectValues_content. reflexivity.
Qed.

(** X1.  What one snapshot becomes: a fresh batch ([retryCnt] 0) holding,
    for each set of values in order, the finite entries filed under the
    host the set resolves to, and one warning for each non-finite entry; a
    set whose custom identifier does not resolve gives neither samples nor
    warnings. *)
Theorem enqueue_content (c : Context) (result : MetricsResult) :
  enqueue c result
  = (mkPostValue (flat_map (samplesOf c (Created result)) (ResultValues result)) 0,
     flat_map (warningsOf c) (ResultValues result)).
Proof. exact (enqueue_eq c result). Qed.

Lemma filter_partition_length {A} (f : A -> bool) (l : list A) :
  (len (filter f l) + len (filter (fun x => negb (f x)) l) = len l)%nat.
Proof.
  induction l as [| x l IH]; simpl; [reflexivity |].
  destruct (f x); simpl; lia.
Qed.

(** X2.  Nothing of a resolved set of values vanishes unnoticed: the
    samples of the batch and the warnings logged add up to the entries of
    the sets that resolve to a host. *)
Theorem enqueue_accounts_for_entries (c : Context) (result : MetricsResult) :
  (len (values (fst (enqueue c result))) + len (snd (enqueue c result))
   = len (flat_map Values (resolved c result)))%nat.
Proof.
  rewrite enqueue_eq. simpl. unfold resolved.
  induction (ResultValues result) as [| vs rest IH]; simpl; [reflexivity |].
  rewrite !length_app. unfold samplesOf at 1, warningsOf at 1.
  destruct (resolveHostID c vs) as [h |]; simpl.
  - rewrite length_app, !length_map.
    pose proof (filter_partition_length (fun nv => isFinite (snd nv)) (Values vs)).
    lia.
  - exact IH.
Qed.

(** X3.  Every sample of a batch bears the time of its snapshot, and its
    host is the agent's host or one of the hosts resolved for a custom
    identifier. *)
Theorem enqueue_stamps_samples (c : Context) (result : MetricsResult)
    (v : CreatingMetricsValue) :
  In v (values (fst (enqueue c result))) ->
  Time v = Created result
  /\ (HostID v = ID (ctxHost c)
      \/ exists ci host, lookupHost (CustomIdentifierHosts c) ci = Some host
                         /\ HostID v = ID host)
  /\ exists vs, In vs (ResultValues result)
                /\ In (MetricName v, Value v) (Values vs).
Proof.
  rewrite enqueue_eq. simpl. intros Hv.
  apply in_flat_map in Hv. destruct Hv as (vs & Hvs & Hv).
  unfold samplesOf, resolveHostID in Hv.
  destruct (CustomIdentifier vs) as [ci |].
  - destruct (lookupHost (CustomIdentifierHosts c) ci) as [host |] eqn:Hl;
      [| destruct Hv].
    apply in_map_iff in Hv. destruct Hv as ([n x] & <- & Hin).
    apply filter_In in Hin. destruct Hin as [Hin _]. simpl.
    split; [reflexivity | split].
    + right. now exists ci, host.
    + now exists vs.
  - apply in_map_iff in Hv. destruct Hv as ([n x] & <- & Hin).
    apply filter_In in Hin. destruct Hin as [Hin _]. simpl.
    split; [reflexivity | split; [now left | now exists vs]].
Qed.

Example enqueue_result_ci :
  enqueue ctx_ci result_ci
  = (mkPostValue [mkValue "abc" "cpu" 240 one; mkValue "db9" "latency" 240 one] 0,
     [LogInvalidValue "abc" "broken" S754_nan]).
Proof. reflexivity. Qed.

Lemma enqueue_stamps_samples_witness :
  Time (mkValue "db9" "latency" 240 one) = 240
  /\ (HostID (mkValue "db9" "latency" 240 one) = "abc"
      \/ exists ci host, lookupHost [("rds.example", host_db)] ci = Some host
                         /\ HostID (mkValue "db9" "latency" 240 one) = ID host)
  /\ exists vs, In vs (ResultValues result_ci)
                /\ In ("latency", one) (Values vs).
Proof.
  apply (enqueue_stamps_samples ctx_ci result_ci (mkValue "db9" "latency" 240 one)).
  simpl. tauto.
Defined.

(** ** The scheduler *)

Lemma receive_lState (c : Context) (e : cycleEnv) (st : loopSt)
    (orig : list postValue) (st' : loopSt) :
  receive c e st = Some (orig, st') -> lState st' = lState st.
Proof.
  destruct st as [s q pending tr]. destruct q as [| v q]; [discriminate |].
  rewrite receive_cons. intros H. now injection H as _ <-.
Qed.

Lemma requeue_lState (conf : Config) (orig : list postValue) (st : loopSt) :
  lState (requeue conf orig st) = lState st.
Proof. now rewrite requeue_spec. Qed.

Lemma cycle_terminating (c : Context) (d : Z) (e : cycleEnv) (st : loopSt) :
  lState st = loopStateTerminating ->
  lState (stateOf (cycle c d e st)) = loopStateTerminating.
Proof.
  intros Ht. unfold cycle.
  assert (H0 : lState (arrive c (beforeSelect e) st) = loopStateTerminating)
    by exact Ht.
  destruct (fired e).
  - rewrite H0. exact H0.
  - destruct (receive c e (arrive c (beforeSelect e) st)) as [[orig st1] |] eqn:Hr;
      [| exact H0].
    pose proof (receive_lState _ _ _ _ _ Hr) as H1. rewrite H0 in H1.
    unfold nextState. cbn [lState arrive setState log]. rewrite H1.
    cbn [isTerminating lState].
    destruct (woken e); [| reflexivity].
    unfold deliver. cbn [lState log].
    destruct (postErr e) as [err |].
    + cbn [isTerminating stateOf]. now rewrite requeue_lState.
    + cbn [lState arrive isTerminating andb].
      match goal with
      | |- context [if ?b then _ else _] => destruct b
      end; reflexivity.
Qed.

(** X4.  Terminating is final: once the scheduler has been told to stop,
    no pass, whatever arrives and whatever fails, brings it back to another
    state. *)
Theorem terminating_is_final (c : Context) (d : Z) (es : list cycleEnv)
    (st : loopSt) :
  lState st = loopStateTerminating ->
  lState (snd (cycles c d es st)) = loopStateTerminating.
Proof.
  revert st. induction es as [| e es IH]; intros st Ht; simpl; [exact Ht |].
  pose proof (cycle_terminating c d e st Ht) as H.
  destruct (cycle c d e st) as [st' | err st']; simpl in H.
  - now apply IH.
  - exact H.
Qed.

Lemma terminating_is_final_witness :
  lState (snd (cycles ctx_abc 37
                 [passWith result_mixed pickPostQueue timerFired (Some serverError)]
                 st_terminating))
  = loopStateTerminating.
Proof.
  exact (terminating_is_final ctx_abc 37
           [passWith result_mixed pickPostQueue timerFired (Some serverError)]
           st_terminating eq_refl).
Defined.

Lemma deliver_nil_drained (c : Context) (e : cycleEnv) (orig : list postValue)
    (st st' : loopSt) :
  deliver c e orig st = Return None st' ->
  lState st' = loopStateTerminating /\ postQueue st' = [].
Proof.
  unfold deliver. destruct (postErr e) as [err |]; [discriminate |].
  match goal with
  | |- context [isTerminating (lState ?x) && (?n <=? 0)%nat] =>
      destruct (lState x) eqn:Hs; cbn [isTerminating andb]; try discriminate;
      destruct (Nat.leb_spec n 0) as [Hle | Hgt]; [| discriminate]
  end.
  intros H. injection H as <-. split; [exact Hs |].
  apply length_zero_iff_nil. lia.
Qed.

Lemma cycle_nil_drained (c : Context) (d : Z) (e : cycleEnv) (st st' : loopSt) :
  cycle c d e st = Return None st' ->
  lState st' = loopStateTerminating /\ postQueue st' = [].
Proof.
  unfold cycle.
  destruct (fired e).
  - destruct (isTerminating (lState (arrive c (beforeSelect e) st)));
      [discriminate |].
    match goal with
    | |- context [if (?n <=? 0)%nat then _ else _] =>
        destruct (Nat.leb_spec n 0) as [Hle | Hgt]
    end; [| discriminate].
    intros H. injection H as <-. split; [reflexivity |].
    apply length_zero_iff_nil. lia.
  - destruct (receive c e (arrive c (beforeSelect e) st)) as [[orig st1] |];
      [| discriminate].
    destruct (woken e); [apply deliver_nil_drained |].
    match goal with
    | |- context [if ?b then _ else _] => destruct b
    end; [discriminate | apply deliver_nil_drained].
Qed.

(** X5.  [loop] returns nil from its passes only when the drain is over:
    the scheduler is Terminating and [postQueue] is empty at that moment.
    (Batches that requeueing goroutines are still sending are not waited
    for.) *)
Theorem nil_return_means_drained (c : Context) (d : Z) (es : list cycleEnv)
    (st st' : loopSt) :
  cycles c d es st = (Returned None, st') ->
  lState st' = loopStateTerminating /\ postQueue st' = [].
Proof.
  revert st. induction es as [| e es IH]; intros st; simpl; [discriminate |].
  destruct (cycle c d e st) as [st1 | [err |] st1] eqn:Hc.
  - apply IH.
  - discriminate.
  - intros H. injection H as <-. eapply cycle_nil_drained; exact Hc.
Qed.

Lemma nil_return_means_drained_witness :
  lState (mkLoopSt loopStateTerminating [] []
            [After 1; PostMetricsValues [sample_cpu] None])
  = loopStateTerminating
  /\ postQueue (mkLoopSt loopStateTerminating [] []
                  [After 1; PostMetricsValues [sample_cpu] None]) = [].
Proof.
  apply (nil_return_means_drained ctx_abc 37
           [quietPass pickPostQueue timerFired None] st_terminating).
  reflexivity.
Defined.

Lemma cycle_no_signal (c : Context) (d : Z) (e : cycleEnv) (st : loopSt) :
  noSignal e -> lState st <> loopStateTerminating ->
  exists st', cycle c d e st = Next st' /\ lState st' <> loopStateTerminating.
Proof.
  intros [Hf Hw] Hnt. unfold cycle. rewrite Hf.
  destruct (receive c e (arrive c (beforeSelect e) st)) as [[orig st1] |] eqn:Hr.
  - pose proof (receive_lState _ _ _ _ _ Hr) as H1.
    cbn [lState arrive] in H1. rewrite Hw.
    assert (Hn : isTerminating (lState st1) = false).
    { rewrite H1. destruct (lState st); try reflexivity. congruence. }
    unfold deliver, nextState. cbn [lState arrive setState log]. rewrite Hn.
    destruct (postErr e) as [err |].
    + eexists. split; [reflexivity |]. rewrite requeue_lState.
      match goal with
      | |- context [if (0 <? ?n)%nat then _ else _] => destruct (0 <? n)%nat
      end; cbn [isTerminating lState setState]; discriminate.
    + match goal with
      | |- context [if (0 <? ?n)%nat then _ else _] => destruct (0 <? n)%nat
      end; cbn [isTerminating andb lState]; eexists;
        (split; [reflexivity | discriminate]).
  - eexists. split; [reflexivity | exact Hnt].
Qed.

(** X6.  Without a termination signal [loop] never returns: as long as no
    pass receives one, the passes go on, whatever the posts answer, and the
    scheduler does not become Terminating. *)
Theorem no_signal_never_returns (c : Context) (d : Z) (es : list cycleEnv)
    (st : loopSt) :
  Forall noSignal es -> lState st <> loopStateTerminating ->
  fst (cycles c d es st) = Running
  /\ lState (snd (cycles c d es st)) <> loopStateTerminating.
Proof.
  intros Hes. revert st. induction Hes as [| e es He _ IH]; intros st Hnt; simpl.
  - now split.
  - destruct (cycle_no_signal c d e st He Hnt) as (st' & -> & Hnt').
    now apply IH.
Qed.

Lemma no_signal_never_returns_witness :
  fst (cycles ctx_abc 37
         [passWith result_mixed pickPostQueue timerFired (Some serverError);
          passAfterRequeue timerFired None] st_first) = Running
  /\ lState (snd (cycles ctx_abc 37
                    [passWith result_mixed pickPostQueue timerFired (Some serverError);
                     passAfterRequeue timerFired None] st_first))
     <> loopStateTerminating.
Proof.
  apply (no_signal_never_returns ctx_abc 37
           [passWith result_mixed pickPostQueue timerFired (Some serverError);
            passAfterRequeue timerFired None] st_first).
  - repeat constructor.
  - discriminate.
Defined.

Lemma enqueue_fresh (c : Context) (result : MetricsResult) :
  retryCnt (fst (enqueue c result)) = 0.
Proof. now rewrite enqueue_eq. Qed.

Lemma arrive_withinRetryMax (c : Context) (a : arrival) (st : loopSt) :
  0 <= PostMetricsRetryMax (ctxConfig c) ->
  Forall (withinRetryMax (ctxConfig c)) (postQueue st ++ sending st) ->
  Forall (withinRetryMax (ctxConfig c))
    (postQueue (arrive c a st) ++ sending (arrive c a st)).
Proof.
  intros Hmax H. apply Forall_app in H. destruct H as [Hq Hs].
  destruct (Forall_split_at _ (requeued a) _ Hs) as [Hs1 Hs2].
  unfold arrive. cbn [postQueue sending].
  rewrite !Forall_app. repeat split; try assumption.
  rewrite Forall_forall. intros v Hv. rewrite map_map in Hv.
  apply in_map_iff in Hv. destruct Hv as (r & <- & _).
  unfold withinRetryMax. rewrite enqueue_fresh. lia.
Qed.

Lemma receive_withinRetryMax (c : Context) (e : cycleEnv) (st : loopSt)
    (orig : list postValue) (st' : loopSt) :
  0 <= PostMetricsRetryMax (ctxConfig c) ->
  Forall (withinRetryMax (ctxConfig c)) (postQueue st ++ sending st) ->
  receive c e st = Some (orig, st') ->
  Forall (withinRetryMax (ctxConfig c)) orig
  /\ Forall (withinRetryMax (ctxConfig c)) (postQueue st' ++ sending st').
Proof.
  intros Hmax H Hr. destruct st as [s q pending tr].
  destruct q as [| v q]; [discriminate |].
  rewrite receive_cons in Hr. injection Hr as <- <-.
  cbn [postQueue sending] in H. inversion H as [| ? ? Hv H']; subst.
  pose proof (arrive_withinRetryMax c (afterSelect e) (mkLoopSt s q pending tr)
                Hmax H') as Ha.
  apply Forall_app in Ha. destruct Ha as [Hq Hs].
  destruct (Forall_split_at _ 1 _ Hq) as [Hf Hk].
  split.
  - constructor; assumption.
  - cbn [postQueue sending]. apply Forall_app. now split.
Qed.

Lemma deliver_failed (c : Context) (e : cycleEnv) (orig : list postValue)
    (st : loopSt) (err : error) :
  postErr e = Some err ->
  postQueue (stateOf (deliver c e orig st)) = postQueue st
  /\ sending (stateOf (deliver c e orig st))
     = sending st
       ++ filter (fun v => retryCnt v <=? PostMetricsRetryMax (ctxConfig c))
            (map retried orig)
  /\ lState (stateOf (deliver c e orig st))
     = if isTerminating (lState st) then lState st else loopStateHadError.
Proof.
  intros He. unfold deliver. rewrite He. cbn [stateOf].
  rewrite requeue_spec. cbn [postQueue sending lState log].
  destruct (isTerminating (lState st)); now repeat split.
Qed.

Lemma deliver_withinRetryMax (c : Context) (e : cycleEnv)
    (orig : list postValue) (st : loopSt) :
  0 <= PostMetricsRetryMax (ctxConfig c) ->
  Forall (withinRetryMax (ctxConfig c)) orig ->
  Forall (withinRetryMax (ctxConfig c)) (postQueue st ++ sending st) ->
  Forall (withinRetryMax (ctxConfig c))
    (postQueue (stateOf (deliver c e orig st))
     ++ sending (stateOf (deliver c e orig st))).
Proof.
  intros Hmax Ho H. destruct (postErr e) as [err |] eqn:He.
  - destruct (deliver_failed c e orig st err He) as (-> & -> & _).
    rewrite app_assoc. apply Forall_app. split; [exact H |].
    rewrite Forall_forall in *. intros v Hv.
    apply filter_In in Hv. destruct Hv as [Hv Hle].
    apply in_map_iff in Hv. destruct Hv as (v0 & <- & Hv0).
    specialize (Ho v0 Hv0). unfold withinRetryMax in *. simpl in *.
    apply Z.leb_le in Hle. lia.
  - unfold deliver. rewrite He.
    match goal with
    | |- context [if ?b then _ else _] => destruct b
    end; cbn [stateOf]; now apply arrive_withinRetryMax.
Qed.

Lemma cycle_withinRetryMax (c : Context) (d : Z) (e : cycleEnv) (st : loopSt) :
  0 <= PostMetricsRetryMax (ctxConfig c) ->
  Forall (withinRetryMax (ctxConfig c)) (postQueue st ++ sending st) ->
  Forall (withinRetryMax (ctxConfig c))
    (postQueue (stateOf (cycle c d e st)) ++ sending (stateOf (cycle c d e st))).
Proof.
  intros Hmax H. unfold cycle.
  pose proof (arrive_withinRetryMax c (beforeSelect e) st Hmax H) as H0.
  destruct (fired e).
  - destruct (isTerminating (lState (arrive c (beforeSelect e) st)));
      [exact H0 |].
    match goal with
    | |- context [if ?b then _ else _] => destruct b
    end; cbn [stateOf];
      exact (arrive_withinRetryMax c (afterSelect e)
               (setState loopStateTerminating (arrive c (beforeSelect e) st))
               Hmax H0).
  - destruct (receive c e (arrive c (beforeSelect e) st)) as [[orig st1] |] eqn:Hr;
      [| exact H0].
    destruct (receive_withinRetryMax _ _ _ _ _ Hmax H0 Hr) as [Ho H1].
    pose proof (arrive_withinRetryMax c (beforeNextState e) st1 Hmax H1) as H2.
    destruct (woken e).
    + apply deliver_withinRetryMax; assumption.
    + match goal with
      | |- context [if ?b then _ else _] => destruct b
      end; [exact H2 | apply deliver_withinRetryMax; assumption].
Qed.

(** X7.  With a retry limit that is not negative, a batch that is queued,
    or on its way back to the queue, has failed at most
    [PostMetricsRetryMax] times: fresh batches start at 0, a failed post
    adds 1, and a batch that would exceed the limit is not requeued.  So no
    batch is posted more than [PostMetricsRetryMax] + 1 times. *)
Theorem queued_batches_within_retry_max (c : Context) (d : Z)
    (es : list cycleEnv) (st : loopSt) :
  0 <= PostMetricsRetryMax (ctxConfig c) ->
  Forall (withinRetryMax (ctxConfig c)) (postQueue st ++ sending st) ->
  Forall (withinRetryMax (ctxConfig c))
    (postQueue (snd (cycles c d es st)) ++ sending (snd (cycles c d es st))).
Proof.
  intros Hmax. revert st. induction es as [| e es IH]; intros st H; simpl.
  - exact H.
  - pose proof (cycle_withinRetryMax c d e st Hmax H) as H1.
    destruct (cycle c d e st) as [st' | err st']; cbn [stateOf] in H1.
    + now apply IH.
    + exact H1.
Qed.

Lemma queued_batches_within_retry_max_witness :
  Forall (withinRetryMax conf60)
    (postQueue (snd (cycles ctx_abc 37
                       [passWith result_mixed pickPostQueue timerFired
                          (Some serverError)]
                       (mkLoopSt loopStateDefault [batch_worn] [] [])))
     ++ sending (snd (cycles ctx_abc 37
                        [passWith result_mixed pickPostQueue timerFired
                           (Some serverError)]
                        (mkLoopSt loopStateDefault [batch_worn] [] [])))).
Proof.
  apply (queued_batches_within_retry_max ctx_abc 37
           [passWith result_mixed pickPostQueue timerFired (Some serverError)]
           (mkLoopSt loopStateDefault [batch_worn] [] [])).
  - simpl. lia.
  - repeat constructor; simpl; lia.
Defined.

Lemma arrive_noArrival (c : Context) (st : loopSt) :
  arrive c noArrival st = st.
Proof.
  destruct st as [s q pending tr]. unfold arrive. simpl.
  now rewrite !app_nil_r.
Qed.

Lemma deliveredSamples_app (tr more : list event) :
  deliveredSamples (tr ++ more) = deliveredSamples tr ++ deliveredSamples more.
Proof. unfold deliveredSamples. apply flat_map_app. Qed.

Lemma deliveredSamples_pass (tr : list event) (d : Z)
    (vs : list CreatingMetricsValue) :
  deliveredSamples (tr ++ [After d; PostMetricsValues vs None])
  = deliveredSamples tr ++ vs.
Proof.
  rewrite deliveredSamples_app. unfold deliveredSamples at 2. simpl.
  now rewrite app_nil_r.
Qed.

Lemma cycle_drainPass (c : Context) (d : Z) (e : cycleEnv) (v : postValue)
    (q pending : list postValue) (tr : list event) :
  drainPass e ->
  let st' := mkLoopSt loopStateTerminating (skipn 1 q) pending
               (tr ++ [After 1;
                       PostMetricsValues (flat_map values (v :: firstn 1 q)) None]) in
  cycle c d e (mkLoopSt loopStateTerminating (v :: q) pending tr)
  = match skipn 1 q with
    | [] => Return None st'
    | _ :: _ => Next st'
    end.
Proof.
  intros (Hb & Ha & Hn & Hp & Hf & Hw & He) st'. subst st'.
  unfold cycle. rewrite Hb, Hf, arrive_noArrival, receive_cons.
  rewrite Ha, Hn, Hw. rewrite !arrive_noArrival.
  cbn [postQueue sending trace lState].
  unfold deliver, nextState, delaySeconds.
  cbn [lState setState log isTerminating postQueue sending trace].
  rewrite He, Hp, postValues_concat, arrive_noArrival.
  cbn [lState postQueue isTerminating andb app].
  unfold log, setState.
  cbn [lState postQueue sending trace isTerminating andb].
  rewrite <- app_assoc. cbn [app].
  destruct (skipn 1 q); reflexivity.
Qed.

(** X8.  An undisturbed drain ends: when the scheduler is Terminating with
    [n] batches queued, no producer gets through and the posts succeed,
    then within [(n + 1) / 2] passes [loop] returns nil, and by then every
    sample that was queued has been delivered exactly once, in queue
    order. *)
Theorem drain_completes (c : Context) (d : Z) (es : list cycleEnv)
    (st : loopSt) :
  lState st = loopStateTerminating ->
  postQueue st <> [] ->
  Forall drainPass es ->
  (len (postQueue st) <= 2 * len es)%nat ->
  exists st',
    cycles c d es st = (Returned None, st')
    /\ postQueue st' = []
    /\ sending st' = sending st
    /\ deliveredSamples (trace st')
       = deliveredSamples (trace st) ++ flat_map values (postQueue st).
Proof.
  intros Ht Hq Hes. revert st Ht Hq.
  induction Hes as [| e es He _ IH]; intros [s q pending tr] Ht Hq Hlen;
    cbn [lState postQueue sending trace] in *; subst s.
  - destruct q; [congruence | simpl in Hlen; lia].
  - destruct q as [| v q]; [congruence |].
    cbn [cycles]. rewrite (cycle_drainPass c d e v q pending tr He).
    destruct q as [| x [| y q']]; cbn [skipn firstn].
    + eexists. split; [reflexivity |]. cbn [postQueue sending trace].
      repeat split. now rewrite deliveredSamples_pass.
    + eexists. split; [reflexivity |]. cbn [postQueue sending trace].
      repeat split. now rewrite deliveredSamples_pass.
    + match goal with
      | |- context [cycles c d es ?s] =>
          destruct (IH s eq_refl ltac:(discriminate)) as (st' & -> & H1 & H2 & H3)
      end.
      { cbn [postQueue]. simpl in Hlen. simpl. lia. }
      exists st'. split; [reflexivity |]. split; [exact H1 |].
      split; [exact H2 |]. rewrite H3. cbn [trace postQueue].
      rewrite deliveredSamples_pass. cbn [flat_map].
      rewrite <- !app_assoc. reflexivity.
Qed.

Lemma drain_completes_witness :
  exists st',
    cycles ctx_abc 37
      [quietPass pickPostQueue timerFired None;
       quietPass pickPostQueue timerFired None] st_backlog
    = (Returned None, st')
    /\ postQueue st' = []
    /\ sending st' = []
    /\ deliveredSamples (trace st') = [] ++ [sample_cpu; sample_cpu; sample_cpu].
Proof.
  apply (drain_completes ctx_abc 37
           [quietPass pickPostQueue timerFired None;
            quietPass pickPostQueue timerFired None] st_backlog).
  - reflexivity.
  - discriminate.
  - repeat constructor.
  - simpl. lia.
Defined.

(** X9.  The scheduler never waits a negative time when the two configured
    delays are not negative, and in the Default state the wait is at most
    the host's offset, hence shorter than the base interval. *)
Theorem delaySeconds_bounds (conf : Config) (host : Host) (s : loopState)
    (now : Z) :
  0 <= PostMetricsDequeueDelaySeconds conf ->
  0 <= PostMetricsRetryDelaySeconds conf ->
  0 < PostMetricsInterval conf -> 0 <= now ->
  0 <= delaySeconds conf (delayByHost conf host) s now
  /\ delaySeconds conf (delayByHost conf host) loopStateDefault now
     <= delayByHost conf host < PostMetricsInterval conf.
Proof.
  intros Hd Hr Hi Hnow.
  pose proof (delayByHost_range conf host Hi) as Ho.
  assert (He : 0 <= Z.rem now (PostMetricsInterval conf))
    by (apply rem_nonneg_any; exact Hnow).
  split.
  - destruct s; simpl; try lia.
    destruct (Z.ltb_spec (Z.rem now (PostMetricsInterval conf))
                (delayByHost conf host)); lia.
  - simpl.
    destruct (Z.ltb_spec (Z.rem now (PostMetricsInterval conf))
                (delayByHost conf host)); lia.
Qed.

Lemma delaySeconds_bounds_witness :
  0 <= delaySeconds conf60 (delayByHost conf60 host_abc) loopStateHadError 110
  /\ delaySeconds conf60 (delayByHost conf60 host_abc) loopStateDefault 110
     <= delayByHost conf60 host_abc < 60.
Proof.
  apply (delaySeconds_bounds conf60 host_abc loopStateHadError 110);
    simpl; lia.
Defined.

(** ** The checker runner over many checks *)

Lemma checkOnce_settled (report : checks.Report) :
  checkOnce (mkCheckerState (checks.Report_Status report)
               (checks.Report_Message report)) (inl report)
  = if checks.Status_eqb (checks.Report_Status report) checks.StatusOK
    then ([], mkCheckerState (checks.Report_Status report)
                (checks.Report_Message report))
    else ([SendReport report],
          mkCheckerState (checks.Report_Status report)
            (checks.Report_Message report)).
Proof.
  unfold checkOnce. cbn [lastStatus lastMessage].
  assert (Hs : checks.Status_eqb (checks.Report_Status report)
                 (checks.Report_Status report) = true)
    by (now apply Status_eqb_eq).
  rewrite Hs, String.eqb_refl.
  destruct (checks.Status_eqb (checks.Report_Status report) checks.StatusOK);
    reflexivity.
Qed.

Lemma checkOnce_remembers (st : checkerState) (report : checks.Report) :
  snd (checkOnce st (inl report))
  = mkCheckerState (checks.Report_Status report) (checks.Report_Message report).
Proof.
  unfold checkOnce.
  destruct (checks.Status_eqb (checks.Report_Status report) checks.StatusOK) eqn:Hok;
    destruct (checks.Status_eqb (checks.Report_Status report) (lastStatus st))
      eqn:Hsame;
    destruct (String.eqb (checks.Report_Message report) (lastMessage st)) eqn:Hmsg;
    cbn [andb snd]; try reflexivity.
  apply Status_eqb_eq in Hsame. apply String.eqb_eq in Hmsg.
  destruct st as [ls lm]. simpl in *. now subst.
Qed.

(** *** Lists updated in one place *)

Lemma setNth_split {A} (l : list A) (i : nat) (c : A) :
  nth_error l i = Some c ->
  exists l1 l2, l = l1 ++ c :: l2 /\ forall x, setNth i x l = l1 ++ x :: l2.
Proof.
  revert i. induction l as [| y l IH]; intros [| i] H; try discriminate H.
  - injection H as ->. exists [], l. now split.
  - destruct (IH i H) as (l1 & l2 & -> & Hset).
    exists (y :: l1), l2. split; [reflexivity |].
    intros x. cbn. now rewrite Hset.
Qed.

Lemma nth_error_last {A} (cs : list A) (c : A) :
  nth_error (cs ++ [c]) (len cs) = Some c.
Proof. induction cs as [| y cs IH]; [reflexivity | exact IH]. Qed.

Lemma setNth_last {A} (cs : list A) (c x : A) :
  setNth (len cs) x (cs ++ [c]) = cs ++ [x].
Proof. induction cs as [| y cs IH]; [reflexivity | cbn; now rewrite IH]. Qed.

(** *** Turns *)

Lemma Periodically_app (a b : list turn) (run : checkerRun) :
  Periodically (a ++ b) run = Periodically b (Periodically a run).
Proof. apply fold_left_app. Qed.

Lemma Periodically_invariant (P : checkerRun -> Prop) :
  (forall run t, P run -> P (takeTurn run t)) ->
  forall turns run, P run -> P (Periodically turns run).
Proof.
  intros Hstep turns. induction turns as [| t turns IH]; intros run H;
    [exact H |].
  apply IH, Hstep, H.
Qed.

(** A step of a call changes the run in that call's place only. *)
Lemma takeTurn_Step (run : checkerRun) (i : nat) (c : checkCall) :
  nth_error (calls run) i = Some c ->
  exists l1 l2 evs st' c',
    calls run = l1 ++ c :: l2
    /\ stepCall (remembered run) c = (evs, st', c')
    /\ takeTurn run (Step i)
       = mkCheckerRun st' (l1 ++ c' :: l2) (sentSoFar run ++ evs).
Proof.
  intros Hnth. destruct (setNth_split _ _ _ Hnth) as (l1 & l2 & Hl & Hset).
  destruct (stepCall (remembered run) c) as [[evs st'] c'] eqn:Hstep.
  exists l1, l2, evs, st', c'. split; [exact Hl | split; [reflexivity |]].
  cbn [takeTurn]. now rewrite Hnth, Hstep, Hset.
Qed.

(** *** One step of a call *)

Ltac step_cases c H :=
  destruct c as [[report | err] []]; cbn in H;
  repeat match type of H with
         | context [if ?b then _ else _] => destruct b
         end;
  injection H as <- <- <-.

Lemma stepCall_checked (st : checkerState) (c : checkCall)
    (evs : list checkerEvent) (st' : checkerState) (c' : checkCall) :
  stepCall st c = (evs, st', c') -> checked c' = checked c.
Proof. intros H. step_cases c H; reflexivity. Qed.

Lemma stepCall_failed (st : checkerState) (c : checkCall)
    (evs : list checkerEvent) (st' : checkerState) (c' : checkCall) :
  stepCall st c = (evs, st', c') -> failedCall c = true ->
  st' = st
  /\ filter (fun ev => negb (isCheckLog ev)) evs = []
  /\ (len (filter isCheckLog evs) + (if pastCheck c then 1 else 0)
      = (if pastCheck c' then 1 else 0))%nat.
Proof. intros H Hf. step_cases c H; try discriminate Hf; repeat split. Qed.

Lemma stepCall_ran (st : checkerState) (c : checkCall)
    (evs : list checkerEvent) (st' : checkerState) (c' : checkCall) :
  stepCall st c = (evs, st', c') -> failedCall c = false ->
  filter (fun ev => negb (isCheckLog ev)) evs = evs
  /\ filter isCheckLog evs = [].
Proof. intros H Hf. step_cases c H; try discriminate Hf; repeat split. Qed.

Lemma stepCall_reports (st : checkerState) (c : checkCall)
    (evs : list checkerEvent) (st' : checkerState) (c' : checkCall) :
  stepCall st c = (evs, st', c') ->
  reportsPastSend [c'] = reportsSent evs ++ reportsPastSend [c].
Proof. intros H. step_cases c H; reflexivity. Qed.

Lemma stepCall_counts (st : checkerState) (c : checkCall)
    (evs : list checkerEvent) (st' : checkerState) (c' : checkCall) :
  stepCall st c = (evs, st', c') ->
  (len (filter isReport evs) + (if pastSend c then 1 else 0)
   = (if pastSend c' then 1 else 0))%nat
  /\ (len (filter isImmediate evs) + (if pastImmediate c then 1 else 0)
      <= (if pastImmediate c' then 1 else 0))%nat.
Proof. intros H. step_cases c H; cbn; split; lia. Qed.

Lemma stepCall_neverWithheld (st : checkerState) (c : checkCall)
    (evs : list checkerEvent) (st' : checkerState) (c' : checkCall) :
  stepCall st c = (evs, st', c') -> neverWithheld c -> neverWithheld c'.
Proof.
  intros H. unfold neverWithheld.
  destruct c as [[report | err] p]; cbn [checked point];
    [| intros _; now rewrite (stepCall_checked _ _ _ _ _ H)].
  destruct p; cbn in H;
    try (destruct (checks.Status_eqb (checks.Report_Status report)
                     checks.StatusOK) eqn:Hok);
    repeat match type of H with
           | context [if ?b then _ else _] => destruct b
           end;
    injection H as <- <- <-; cbn [checked point]; intros Hc Hbad;
    try (apply Status_eqb_eq in Hok; contradiction);
    try (specialize (Hc Hbad); destruct Hc as (H1 & H2 & H3); congruence);
    repeat split; discriminate.
Qed.

(** *** The calls whose check failed, left out *)

Lemma position_nth (l : list checkCall) :
  forall i c,
    nth_error l i = Some c -> failedCall c = false ->
    nth_error (filter (fun c => negb (failedCall c)) l)
      (position (map failedCall l) i) = Some c.
Proof.
  induction l as [| y l IH]; intros [| i] c H Hc; try discriminate H.
  - injection H as ->. cbn. now rewrite Hc.
  - cbn [map position filter]. destruct (failedCall y); cbn; now apply IH.
Qed.

Lemma position_setNth (l : list checkCall) :
  forall i c c',
    nth_error l i = Some c -> failedCall c = false -> failedCall c' = false ->
    filter (fun c => negb (failedCall c)) (setNth i c' l)
    = setNth (position (map failedCall l) i) c'
        (filter (fun c => negb (failedCall c)) l).
Proof.
  induction l as [| y l IH]; intros [| i] c c' H Hc Hc'; try discriminate H.
  - injection H as ->. cbn. now rewrite Hc, Hc'.
  - cbn [map position filter setNth].
    destruct (failedCall y); cbn; now rewrite (IH i c c' H Hc Hc').
Qed.

Lemma failed_setNth (l : list checkCall) :
  forall i c c',
    nth_error l i = Some c -> failedCall c = true -> failedCall c' = true ->
    filter (fun c => negb (failedCall c)) (setNth i c' l)
    = filter (fun c => negb (failedCall c)) l.
Proof.
  induction l as [| y l IH]; intros [| i] c c' H Hc Hc'; try discriminate H.
  - injection H as ->. cbn. now rewrite Hc, Hc'.
  - cbn [filter setNth]. now rewrite (IH i c c' H Hc Hc').
Qed.

Lemma map_failedCall_setNth (l : list checkCall) :
  forall i c c',
    nth_error l i = Some c -> failedCall c' = failedCall c ->
    map failedCall (setNth i c' l) = map failedCall l.
Proof.
  induction l as [| y l IH]; intros [| i] c c' H Hc; try discriminate H.
  - injection H as ->. cbn. now rewrite Hc.
  - cbn [map setNth]. now rewrite (IH i c c' H Hc).
Qed.

Lemma failedCall_step (st : checkerState) (c : checkCall)
    (evs : list checkerEvent) (st' : checkerState) (c' : checkCall) :
  stepCall st c = (evs, st', c') -> failedCall c' = failedCall c.
Proof.
  intros H. unfold failedCall. now rewrite (stepCall_checked _ _ _ _ _ H).
Qed.

(** The run without the failed checks goes along with the run. *)
Lemma dropFailed_goes_along (turns : list turn) :
  forall a b,
    remembered b = remembered a ->
    sentSoFar b = filter (fun ev => negb (isCheckLog ev)) (sentSoFar a) ->
    calls b = filter (fun c => negb (failedCall c)) (calls a) ->
    remembered (Periodically (dropFailed (map failedCall (calls a)) turns) b)
    = remembered (Periodically turns a)
    /\ sentSoFar (Periodically (dropFailed (map failedCall (calls a)) turns) b)
       = filter (fun ev => negb (isCheckLog ev)) (sentSoFar (Periodically turns a))
    /\ calls (Periodically (dropFailed (map failedCall (calls a)) turns) b)
       = filter (fun c => negb (failedCall c)) (calls (Periodically turns a)).
Proof.
  induction turns as [| t turns IH]; intros a b Hst Hsent Hcalls.
  - now repeat split.
  - destruct t as [[report | err] | i]; cbn [dropFailed Periodically fold_left].
    + (* a check that runs is started *)
      fold (Periodically turns (takeTurn a (Tick (inl report)))).
      replace (map failedCall (calls a) ++ [false])
        with (map failedCall (calls (takeTurn a (Tick (inl report)))))
        by (cbn; now rewrite map_app).
      fold (Periodically
              (dropFailed (map failedCall (calls (takeTurn a (Tick (inl report)))))
                 turns) (takeTurn b (Tick (inl report)))).
      apply IH; cbn; [exact Hst | exact Hsent |].
      rewrite filter_app, Hcalls. reflexivity.
    + (* a check that fails is started *)
      fold (Periodically turns (takeTurn a (Tick (inr err)))).
      replace (map failedCall (calls a) ++ [true])
        with (map failedCall (calls (takeTurn a (Tick (inr err)))))
        by (cbn; now rewrite map_app).
      fold (Periodically
              (dropFailed (map failedCall (calls (takeTurn a (Tick (inr err)))))
                 turns) b).
      apply IH; cbn; [exact Hst | exact Hsent |].
      rewrite filter_app, Hcalls. cbn. now rewrite app_nil_r.
    + (* a step *)
      fold (Periodically turns (takeTurn a (Step i))).
      rewrite nth_error_map.
      destruct (nth_error (calls a) i) as [c |] eqn:Hnth; cbn [option_map].
      * destruct (stepCall (remembered a) c) as [[evs st'] c'] eqn:Hstep.
        assert (Ha : takeTurn a (Step i)
                     = mkCheckerRun st' (setNth i c' (calls a)) (sentSoFar a ++ evs))
          by (cbn [takeTurn]; now rewrite Hnth, Hstep).
        pose proof (failedCall_step _ _ _ _ _ Hstep) as Hsame.
        assert (Hmap : map failedCall (calls (takeTurn a (Step i)))
                       = map failedCall (calls a)).
        { rewrite Ha. cbn [calls].
          exact (map_failedCall_setNth _ _ _ _ Hnth Hsame). }
        destruct (failedCall c) eqn:Hf.
        -- (* of a failed check: nothing but the log *)
           fold (Periodically (dropFailed (map failedCall (calls a)) turns) b).
           rewrite <- Hmap.
           destruct (stepCall_failed _ _ _ _ _ Hstep Hf) as (-> & Hevs & _).
           apply IH; rewrite Ha; cbn [remembered sentSoFar calls].
           ++ exact Hst.
           ++ now rewrite filter_app, Hevs, app_nil_r.
           ++ rewrite Hcalls. symmetry.
              exact (failed_setNth _ _ _ _ Hnth Hf Hsame).
        -- (* of a check that ran: the same step *)
           cbn [fold_left].
           fold (Periodically (dropFailed (map failedCall (calls a)) turns)
                   (takeTurn b (Step (position (map failedCall (calls a)) i)))).
           rewrite <- Hmap.
           destruct (stepCall_ran _ _ _ _ _ Hstep Hf) as (Hevs & _).
           assert (Hb : takeTurn b (Step (position (map failedCall (calls a)) i))
                        = mkCheckerRun st'
                            (setNth (position (map failedCall (calls a)) i) c'
                               (calls b))
                            (sentSoFar b ++ evs)).
           { cbn [takeTurn].
             now rewrite Hcalls, (position_nth _ _ _ Hnth Hf), Hst, Hstep. }
           apply IH; rewrite Hmap, Ha, Hb; cbn [remembered sentSoFar calls].
           ++ reflexivity.
           ++ now rewrite filter_app, Hevs, Hsent.
           ++ rewrite Hcalls. symmetry.
              exact (position_setNth _ _ _ _ Hnth Hf Hsame).
      * (* of no call *)
        fold (Periodically (dropFailed (map failedCall (calls a)) turns) b).
        assert (Ha : takeTurn a (Step i) = a)
          by (cbn [takeTurn]; now rewrite Hnth).
        rewrite Ha. now apply IH.
Qed.

Lemma logs_counted (st : checkerState) (turns : list turn) :
  len (filter isCheckLog (sentSoFar (Periodically turns (startOfChecker st))))
  = len (filter (fun c => failedCall c && pastCheck c)
           (calls (Periodically turns (startOfChecker st)))).
Proof.
  apply (Periodically_invariant
           (fun run => len (filter isCheckLog (sentSoFar run))
                       = len (filter (fun c => failedCall c && pastCheck c)
                                (calls run)))); [| reflexivity].
  intros run [checked | i] H.
  - cbn. rewrite filter_app, length_app. cbn.
    rewrite andb_false_r. cbn. lia.
  - destruct (nth_error (calls run) i) as [c |] eqn:Hnth;
      [| cbn [takeTurn]; now rewrite Hnth].
    destruct (takeTurn_Step run i c Hnth)
      as (l1 & l2 & evs & st' & c' & Hl & Hstep & ->).
    cbn [sentSoFar calls]. rewrite Hl in H.
    rewrite !filter_app, !length_app in *. cbn [filter] in *.
    pose proof (failedCall_step _ _ _ _ _ Hstep) as Hsame. rewrite Hsame.
    destruct (failedCall c) eqn:Hf; cbn [andb] in *.
    + destruct (stepCall_failed _ _ _ _ _ Hstep Hf) as (_ & _ & Hcount).
      destruct (pastCheck c), (pastCheck c'); cbn [Datatypes.length] in *; lia.
    + destruct (stepCall_ran _ _ _ _ _ Hstep Hf) as (_ & Hnone).
      rewrite Hnone. cbn [Datatypes.length] in *. lia.
Qed.

(** X10.  A check that fails to run is logged and changes nothing else,
    however the calls overlap: the reports and immediate signals sent, the
    status and message remembered and the calls whose check ran are those
    of the same run without the failed checks; and the log holds one entry
    for each failed check that has returned. *)
Theorem failed_checks_only_log (st : checkerState) (turns : list turn) :
  filter (fun ev => negb (isCheckLog ev))
    (sentSoFar (Periodically turns (startOfChecker st)))
  = sentSoFar (Periodically (dropFailed [] turns) (startOfChecker st))
  /\ remembered (Periodically turns (startOfChecker st))
     = remembered (Periodically (dropFailed [] turns) (startOfChecker st))
  /\ filter (fun c => negb (failedCall c))
       (calls (Periodically turns (startOfChecker st)))
     = calls (Periodically (dropFailed [] turns) (startOfChecker st))
  /\ len (filter isCheckLog (sentSoFar (Periodically turns (startOfChecker st))))
     = len (filter (fun c => failedCall c && pastCheck c)
              (calls (Periodically turns (startOfChecker st)))).
Proof.
  destruct (dropFailed_goes_along turns (startOfChecker st) (startOfChecker st)
              eq_refl eq_refl eq_refl) as (H1 & H2 & H3).
  cbn [startOfChecker calls map] in H1, H2, H3.
  repeat split; try (symmetry; assumption).
  apply logs_counted.
Qed.

(** *** The reports sent *)

Lemma reportsSent_app (a b : list checkerEvent) :
  reportsSent (a ++ b) = reportsSent a ++ reportsSent b.
Proof. apply flat_map_app. Qed.

Lemma reportsPastSend_app (a b : list checkCall) :
  reportsPastSend (a ++ b) = reportsPastSend a ++ reportsPastSend b.
Proof. apply flat_map_app. Qed.

(** X12.  A report is never lost on its way, and one whose status is not
    OK is never withheld, however the calls overlap: the reports sent are,
    each as many times, the reports of the calls that have got past their
    send, and a call whose check returned a status other than OK never
    returns without having sent its report. *)
Theorem problem_reports_are_never_withheld (st : checkerState)
    (turns : list turn) :
  Permutation (reportsSent (sentSoFar (Periodically turns (startOfChecker st))))
    (reportsPastSend (calls (Periodically turns (startOfChecker st))))
  /\ forall c report,
       In c (calls (Periodically turns (startOfChecker st))) ->
       checked c = inl report ->
       checks.Report_Status report <> checks.StatusOK ->
       point c <> returnedEarly
       /\ (point c = returned ->
           In (SendReport report)
              (sentSoFar (Periodically turns (startOfChecker st)))).
Proof.
  assert (H : Permutation
                (reportsSent (sentSoFar (Periodically turns (startOfChecker st))))
                (reportsPastSend (calls (Periodically turns (startOfChecker st))))
              /\ Forall neverWithheld
                   (calls (Periodically turns (startOfChecker st)))).
  { apply (Periodically_invariant
             (fun run => Permutation (reportsSent (sentSoFar run))
                           (reportsPastSend (calls run))
                         /\ Forall neverWithheld (calls run)));
      [| split; constructor].
    intros run [checked | i] [Hperm Hall].
    - cbn [takeTurn sentSoFar calls]. split.
      + rewrite reportsPastSend_app. cbn.
        destruct checked; cbn; now rewrite app_nil_r.
      + apply Forall_app. split; [exact Hall |]. constructor; [| constructor].
        unfold neverWithheld. cbn. destruct checked; [| exact I].
        intros _. repeat split; discriminate.
    - destruct (nth_error (calls run) i) as [c |] eqn:Hnth;
        [| cbn [takeTurn]; rewrite Hnth; now split].
      destruct (takeTurn_Step run i c Hnth)
        as (l1 & l2 & evs & st' & c' & Hl & Hstep & ->).
      cbn [sentSoFar calls]. rewrite Hl in Hperm, Hall. split.
      + rewrite reportsSent_app.
        change (c' :: l2) with ([c'] ++ l2).
        change (c :: l2) with ([c] ++ l2) in Hperm.
        rewrite !reportsPastSend_app in *.
        rewrite (stepCall_reports _ _ _ _ _ Hstep).
        eapply Permutation_trans; [apply Permutation_app_comm |].
        rewrite <- !app_assoc.
        eapply Permutation_trans;
          [apply Permutation_app_head, Hperm |].
        apply Permutation_app_swap_app.
      + apply Forall_app in Hall. destruct Hall as [H1 H2].
        inversion H2 as [| x xs Hc H2']; subst.
        apply Forall_app. split; [exact H1 |].
        constructor; [| exact H2'].
        exact (stepCall_neverWithheld _ _ _ _ _ Hstep Hc). }
  destruct H as [Hperm Hall]. split; [exact Hperm |].
  intros c report Hin Hc Hbad. rewrite Forall_forall in Hall.
  specialize (Hall c Hin). unfold neverWithheld in Hall. rewrite Hc in Hall.
  split; [apply (Hall Hbad) |].
  intros Hret.
  assert (Hr : In report
                 (reportsSent (sentSoFar (Periodically turns (startOfChecker st))))).
  { apply (Permutation_in _ (Permutation_sym Hperm)).
    unfold reportsPastSend. apply in_flat_map. exists c. split; [exact Hin |].
    rewrite Hc. unfold pastSend. rewrite Hret. now left. }
  unfold reportsSent in Hr. apply in_flat_map in Hr.
  destruct Hr as (ev & Hev & Hr).
  destruct ev as [err | sent |]; [destruct Hr | | destruct Hr].
  destruct Hr as [<- | []]. exact Hev.
Qed.

(** *** Immediate signals *)

Lemma filter_le_filter {A} (f g : A -> bool) (l : list A) :
  (forall x, f x = true -> g x = true) ->
  (len (filter f l) <= len (filter g l))%nat.
Proof.
  intros Hfg. induction l as [| x l IH]; [cbn; lia |].
  cbn [filter]. destruct (f x) eqn:Hf.
  - rewrite (Hfg x Hf). cbn. lia.
  - destruct (g x); cbn; lia.
Qed.

(** X13.  The immediate signal never runs ahead of the reports: at every
    moment of every run, however the calls overlap, no more immediate
    signals than reports have been sent; a call sends its signal only
    after its report. *)
Theorem immediate_signals_follow_reports (st : checkerState)
    (turns : list turn) :
  (len (filter isImmediate (sentSoFar (Periodically turns (startOfChecker st))))
   <= len (filter isReport (sentSoFar (Periodically turns (startOfChecker st)))))%nat
  /\ len (filter isReport (sentSoFar (Periodically turns (startOfChecker st))))
     = len (filter pastSend (calls (Periodically turns (startOfChecker st)))).
Proof.
  assert (H : len (filter isReport
                     (sentSoFar (Periodically turns (startOfChecker st))))
              = len (filter pastSend
                       (calls (Periodically turns (startOfChecker st))))
              /\ (len (filter isImmediate
                         (sentSoFar (Periodically turns (startOfChecker st))))
                  <= len (filter pastImmediate
                            (calls (Periodically turns (startOfChecker st)))))%nat).
  { apply (Periodically_invariant
             (fun run => len (filter isReport (sentSoFar run))
                         = len (filter pastSend (calls run))
                         /\ (len (filter isImmediate (sentSoFar run))
                             <= len (filter pastImmediate (calls run)))%nat));
      [| split; cbn; lia].
    intros run [checked | i] [Hrep Himm].
    - cbn [takeTurn sentSoFar calls]. rewrite !filter_app, !length_app. cbn.
      split; lia.
    - destruct (nth_error (calls run) i) as [c |] eqn:Hnth;
        [| cbn [takeTurn]; rewrite Hnth; now split].
      destruct (takeTurn_Step run i c Hnth)
        as (l1 & l2 & evs & st' & c' & Hl & Hstep & ->).
      cbn [sentSoFar calls]. rewrite Hl in Hrep, Himm.
      destruct (stepCall_counts _ _ _ _ _ Hstep) as [C1 C2].
      rewrite !filter_app, !length_app in *. cbn [filter] in *.
      destruct (pastSend c), (pastSend c'), (pastImmediate c), (pastImmediate c');
        cbn [Datatypes.length] in *; split; lia. }
  destruct H as [Hrep Himm]. split; [| exact Hrep].
  rewrite Hrep. eapply Nat.le_trans; [exact Himm |].
  apply filter_le_filter. intros c. unfold pastImmediate, pastSend.
  destruct (point c); congruence.
Qed.

(** *** Checks made one by one *)

Lemma steps_of_last (n : nat) :
  forall st c sent cs,
    Periodically (repeat (Step (len cs)) n) (mkCheckerRun st (cs ++ [c]) sent)
    = let '(evs, st', c') := runCall n st c sent in
      mkCheckerRun st' (cs ++ [c']) evs.
Proof.
  induction n as [| n IH]; intros st c sent cs; [reflexivity |].
  cbn [repeat Periodically fold_left takeTurn calls remembered sentSoFar runCall].
  rewrite nth_error_last.
  destruct (stepCall st c) as [[more st'] c'].
  rewrite setNth_last. apply IH.
Qed.

(** A call that runs alone does what [checkOnce] says. *)
Lemma runCall_checkOnce (st : checkerState) (checked : checks.Report + error)
    (sent : list checkerEvent) :
  exists p,
    runCall 9 st (mkCheckCall checked atCheck) sent
    = (sent ++ fst (checkOnce st checked), snd (checkOnce st checked),
       mkCheckCall checked p).
Proof.
  destruct st as [ls lm]. destruct checked as [report | err].
  - unfold checkOnce. cbn [lastStatus lastMessage].
    destruct (checks.Status_eqb (checks.Report_Status report) checks.StatusOK)
      eqn:H1;
      destruct (checks.Status_eqb (checks.Report_Status report) ls) eqn:H2;
      destruct (String.eqb (checks.Report_Message report) lm) eqn:H3;
      destruct (checks.Status_eqb ls checks.StatusUndefined) eqn:H4;
      eexists;
      do 9 (cbn [runCall stepCall checked point lastStatus lastMessage
                 andb negb fst snd];
            rewrite ?H1, ?H2, ?H3, ?H4);
      cbn [runCall andb negb fst snd app];
      rewrite <- ?app_assoc, ?app_nil_r; cbn [app]; reflexivity.
  - cbn. eexists. rewrite ?app_nil_r. reflexivity.
Qed.

Lemma alone_checkOnce (run : checkerRun) (checked : checks.Report + error) :
  exists p,
    Periodically (alone (len (calls run)) checked) run
    = mkCheckerRun (snd (checkOnce (remembered run) checked))
        (calls run ++ [mkCheckCall checked p])
        (sentSoFar run ++ fst (checkOnce (remembered run) checked)).
Proof.
  destruct (runCall_checkOnce (remembered run) checked (sentSoFar run))
    as [p Hp].
  exists p. unfold alone. cbn [Periodically fold_left takeTurn].
  fold (Periodically (repeat (Step (len (calls run))) 9)
          (mkCheckerRun (remembered run)
             (calls run ++ [mkCheckCall checked atCheck]) (sentSoFar run))).
  now rewrite steps_of_last, Hp.
Qed.

Lemma oneByOne_cons (run : checkerRun) (checked : checks.Report + error)
    (rest : list (checks.Report + error)) :
  exists run',
    Periodically (oneByOne (len (calls run)) (checked :: rest)) run
    = Periodically (oneByOne (len (calls run')) rest) run'
    /\ remembered run' = snd (checkOnce (remembered run) checked)
    /\ sentSoFar run' = sentSoFar run ++ fst (checkOnce (remembered run) checked).
Proof.
  destruct (alone_checkOnce run checked) as [p Hp].
  exists (mkCheckerRun (snd (checkOnce (remembered run) checked))
            (calls run ++ [mkCheckCall checked p])
            (sentSoFar run ++ fst (checkOnce (remembered run) checked))).
  split; [| split; reflexivity].
  cbn [oneByOne]. rewrite Periodically_app, Hp. cbn [calls].
  rewrite length_app. cbn [Datatypes.length]. now rewrite Nat.add_1_r.
Qed.

Lemma oneByOne_settled (report : checks.Report) (n : nat) :
  forall run,
    remembered run = mkCheckerState (checks.Report_Status report)
                       (checks.Report_Message report) ->
    remembered (Periodically (oneByOne (len (calls run)) (repeat (inl report) n)) run)
    = remembered run
    /\ sentSoFar (Periodically (oneByOne (len (calls run)) (repeat (inl report) n))
                    run)
       = sentSoFar run
         ++ (if checks.Status_eqb (checks.Report_Status report) checks.StatusOK
             then []
             else repeat (SendReport report) n).
Proof.
  induction n as [| n IH]; intros run Hst.
  - cbn. split; [reflexivity |].
    destruct (checks.Status_eqb _ _); now rewrite app_nil_r.
  - cbn [repeat].
    destruct (oneByOne_cons run (inl report) (repeat (inl report) n))
      as (run' & -> & Hrem & Hsent).
    rewrite Hst, checkOnce_settled in Hrem, Hsent.
    assert (Hst' : remembered run'
                   = mkCheckerState (checks.Report_Status report)
                       (checks.Report_Message report)).
    { rewrite Hrem. now destruct (checks.Status_eqb _ _). }
    destruct (IH run' Hst') as [IH1 IH2]. rewrite IH1, IH2, Hst', Hsent.
    split; [now rewrite Hst |].
    destruct (checks.Status_eqb (checks.Report_Status report) checks.StatusOK);
      cbn [fst]; rewrite <- app_assoc; reflexivity.
Qed.

(** X11.  When its checks do not overlap, a healthy check is reported
    once: however often the same OK report repeats, each call returning
    before the next starts, what is sent is what the first call sent (the
    report, with the immediate signal if it ends a problem, or nothing if
    it was no news), and no later call sends anything.  From a checker's
    start that is the report alone, without the immediate signal. *)
Theorem repeated_ok_sends_once (st : checkerState) (report : checks.Report)
    (n : nat) :
  checks.Report_Status report = checks.StatusOK ->
  sentSoFar (Periodically (oneByOne 0 (repeat (inl report) (S n)))
               (startOfChecker st))
  = fst (checkOnce st (inl report))
  /\ sentSoFar (Periodically (oneByOne 0 (repeat (inl report) (S n)))
                  (startOfChecker initialCheckerState))
     = [SendReport report].
Proof.
  intros Hok.
  assert (Heq : forall st0,
            sentSoFar (Periodically (oneByOne 0 (repeat (inl report) (S n)))
                         (startOfChecker st0))
            = fst (checkOnce st0 (inl report))).
  { intros st0. cbn [repeat].
    destruct (oneByOne_cons (startOfChecker st0) (inl report)
                (repeat (inl report) n)) as (run' & Hrun & Hrem & Hsent).
    cbn [startOfChecker calls Datatypes.length] in Hrun. rewrite Hrun.
    cbn [startOfChecker remembered sentSoFar app] in Hrem, Hsent.
    rewrite checkOnce_remembers in Hrem.
    destruct (oneByOne_settled report n run' Hrem) as [_ H].
    rewrite H, Hsent, Hok. cbn. now rewrite app_nil_r. }
  split; [apply Heq |].
  rewrite Heq. unfold checkOnce, initialCheckerState. now rewrite Hok.
Qed.

Lemma repeated_ok_sends_once_witness :
  sentSoFar (Periodically (oneByOne 0 (repeat (inl report_ok) 5))
               (startOfChecker (mkCheckerState checks.StatusCritical "full")))
  = fst (checkOnce (mkCheckerState checks.StatusCritical "full") (inl report_ok))
  /\ sentSoFar (Periodically (oneByOne 0 (repeat (inl report_ok) 5))
                  (startOfChecker initialCheckerState))
     = [SendReport report_ok].
Proof.
  exact (repeated_ok_sends_once (mkCheckerState checks.StatusCritical "full")
           report_ok 4 eq_refl).
Defined.

(** ** The aggregator *)

Lemma aggregatePass_never_empty (c : Context) (e : aggEnv) (st : aggState) :
  exists more,
    aggTrace (aggregatePass c e st) = aggTrace st ++ more
    /\ forall id reports err,
         In (CallReportCheckMonitors id reports err) more ->
         reports <> [] /\ id = ID (ctxHost c).
Proof.
  unfold aggregatePass.
  destruct (firstn (backAgain e) (requeueing st) ++ fromCheckers e)
    as [| r reports].
  - exists []. cbn [aggTrace]. rewrite app_nil_r. split; [reflexivity |].
    intros id rs err [].
  - destruct (reportErr e) as [err |]; cbn [aggTrace]; rewrite <- ?app_assoc;
      eexists; (split; [reflexivity |]); intros id rs err' Hin; simpl in Hin.
    + destruct Hin as [H | [H | []]]; [| discriminate].
      injection H as <- <- _. split; [discriminate | reflexivity].
    + destruct Hin as [H | []].
      injection H as <- <- _. split; [discriminate | reflexivity].
Qed.

(** X14.  The aggregator never calls the service with nothing to report:
    every [ReportCheckMonitors] call of a run carries at least one report,
    and is made for the agent's host. *)
Theorem aggregator_never_reports_nothing (c : Context) (es : list aggEnv)
    (id : string) (reports : list checks.Report) (err : option error) :
  In (CallReportCheckMonitors id reports err)
     (aggTrace (snd (aggregator c es agg_start))) ->
  reports <> [] /\ id = ID (ctxHost c).
Proof.
  assert (H : forall st,
            (forall id reports err,
                In (CallReportCheckMonitors id reports err) (aggTrace st) ->
                reports <> [] /\ id = ID (ctxHost c)) ->
            forall id reports err,
              In (CallReportCheckMonitors id reports err)
                 (aggTrace (snd (aggregator c es st))) ->
              reports <> [] /\ id = ID (ctxHost c)).
  { induction es as [| e es IH]; intros st Hst; cbn [aggregator].
    - exact Hst.
    - assert (Hpass : forall id reports err,
                In (CallReportCheckMonitors id reports err)
                   (aggTrace (aggregatePass c e st)) ->
                reports <> [] /\ id = ID (ctxHost c)).
      { destruct (aggregatePass_never_empty c e st) as (more & -> & Hmore).
        intros id' rs err' Hin. apply in_app_or in Hin.
        destruct Hin as [Hin | Hin];
          [now apply (Hst _ _ err') | now apply (Hmore _ _ err')]. }
      destruct (wokenBy e);
        [apply IH; exact Hpass | exact Hpass | apply IH; exact Hpass]. }
  apply H. intros id' rs err' [].
Qed.

Lemma perm_requeued {A} (b w o f : list A) :
  Permutation ((b ++ w) ++ o ++ f) ((w ++ b ++ f) ++ o).
Proof.
  apply Permutation_trans with ((w ++ b) ++ o ++ f).
  - apply Permutation_app_tail, Permutation_app_comm.
  - rewrite <- !app_assoc. do 2 apply Permutation_app_head.
    apply Permutation_app_comm.
Qed.

Lemma perm_delivered {A} (b w o f : list A) :
  Permutation ((b ++ w) ++ o ++ f) (w ++ o ++ b ++ f).
Proof.
  apply Permutation_trans with ((w ++ b) ++ o ++ f).
  - apply Permutation_app_tail, Permutation_app_comm.
  - rewrite <- !app_assoc. apply Permutation_app_head.
    apply Permutation_app_swap_app.
Qed.

Lemma deliveredReports_app (tr more : list aggEvent) :
  deliveredReports (tr ++ more) = deliveredReports tr ++ deliveredReports more.
Proof. unfold deliveredReports. apply flat_map_app. Qed.

Lemma aggregatePass_keeps_reports (c : Context) (e : aggEnv) (st : aggState) :
  Permutation
    (requeueing st ++ deliveredReports (aggTrace st) ++ fromCheckers e)
    (requeueing (aggregatePass c e st)
     ++ deliveredReports (aggTrace (aggregatePass c e st))).
Proof.
  unfold aggregatePass.
  rewrite <- (firstn_skipn (backAgain e) (requeueing st)) at 1.
  set (back := firstn (backAgain e) (requeueing st)).
  set (waiting := skipn (backAgain e) (requeueing st)).
  set (old := deliveredReports (aggTrace st)).
  destruct (back ++ fromCheckers e) as [| r reports] eqn:Hr.
  - apply app_eq_nil in Hr. destruct Hr as [-> ->].
    cbn [requeueing aggTrace app]. fold old. now rewrite app_nil_r.
  - rewrite <- Hr. clear Hr.
    destruct (reportErr e) as [err |]; cbn [requeueing aggTrace];
      rewrite !deliveredReports_app; fold old;
      unfold deliveredReports; cbn [flat_map app]; rewrite ?app_nil_r.
    + apply perm_requeued.
    + apply perm_delivered.
Qed.

(** X15.  The aggregator neither loses nor doubles a report: the reports
    it was waiting to requeue, those it had delivered, and those the
    checkers handed to the passes it ran are, after the run, exactly the
    reports it is still requeueing and those delivered by a call that
    succeeded, each as many times as before. *)
Theorem aggregator_keeps_reports (c : Context) (es : list aggEnv)
    (st : aggState) :
  Permutation
    (requeueing st ++ deliveredReports (aggTrace st)
     ++ flat_map fromCheckers (passesRun es))
    (requeueing (snd (aggregator c es st))
     ++ deliveredReports (aggTrace (snd (aggregator c es st)))).
Proof.
  revert st. induction es as [| e es IH]; intros st; cbn [aggregator passesRun].
  - cbn [flat_map snd]. now rewrite app_nil_r.
  - pose proof (aggregatePass_keeps_reports c e st) as Hpass.
    assert (Hgo : Permutation
              (requeueing st ++ deliveredReports (aggTrace st)
               ++ flat_map fromCheckers (e :: passesRun es))
              (requeueing (snd (aggregator c es (aggregatePass c e st)))
               ++ deliveredReports
                    (aggTrace (snd (aggregator c es (aggregatePass c e st)))))).
    { eapply Permutation_trans; [| apply IH].
      cbn [flat_map]. rewrite !app_assoc. apply Permutation_app_tail.
      rewrite <- !app_assoc. exact Hpass. }
    destruct (wokenBy e); [exact Hgo | | exact Hgo].
    cbn [flat_map snd]. now rewrite app_nil_r.
Qed.

Lemma aggregator_prefix (c : Context) (es1 : list aggEnv) :
  forall es2 st,
    Forall (fun e => wokenBy e <> wakeTerm) es1 ->
    aggregator c (es1 ++ es2) st = aggregator c es2 (snd (aggregator c es1 st))
    /\ fst (aggregator c es1 st) = false.
Proof.
  induction es1 as [| e es1 IH]; intros es2 st Hes; cbn [app aggregator].
  - now split.
  - inversion Hes as [| ? ? He Hes']; subst.
    destruct (wokenBy e); [now apply IH | congruence | now apply IH].
Qed.

(** X16.  The termination signal ends the aggregator after one last pass:
    the pass woken by it still drains and reports like any other, no pass
    after it is run, and before it the aggregator has not ended. *)
Theorem aggregator_ends_after_last_drain (c : Context)
    (es1 es2 : list aggEnv) (e : aggEnv) (st : aggState) :
  Forall (fun e => wokenBy e <> wakeTerm) es1 ->
  wokenBy e = wakeTerm ->
  aggregator c (es1 ++ e :: es2) st
  = (true, aggregatePass c e (snd (aggregator c es1 st)))
  /\ fst (aggregator c es1 st) = false.
Proof.
  intros Hes He. destruct (aggregator_prefix c es1 (e :: es2) st Hes) as [-> Hf].
  split; [| exact Hf]. cbn [aggregator]. now rewrite He.
Qed.

Lemma aggregator_never_reports_nothing_witness :
  [report_critical] <> [] /\ "abc" = ID (ctxHost ctx_abc).
Proof.
  apply (aggregator_never_reports_nothing ctx_abc [agg_pass_fail; agg_pass_term]
           "abc" [report_critical] (Some serverError)).
  simpl. tauto.
Defined.

Lemma aggregator_ends_after_last_drain_witness :
  aggregator ctx_abc ([agg_pass_fail] ++ agg_pass_term :: [agg_pass_fail]) agg_start
  = (true, aggregatePass ctx_abc agg_pass_term
             (snd (aggregator ctx_abc [agg_pass_fail] agg_start)))
  /\ fst (aggregator ctx_abc [agg_pass_fail] agg_start) = false.
Proof.
  apply (aggregator_ends_after_last_drain ctx_abc [agg_pass_fail] [agg_pass_fail]
           agg_pass_term agg_start).
  - repeat constructor. discriminate.
  - reflexivity.
Defined.

(** A failed call is requeued and delivered by the last pass. *)
Example aggregator_requeues_then_delivers :
  aggregator ctx_abc [agg_pass_fail; agg_pass_term] agg_start
  = (true,
     mkAggState []
       [CallReportCheckMonitors "abc" [report_critical] (Some serverError);
        LogReportFailed serverError;
        CallReportCheckMonitors "abc" [report_critical] None]).
Proof. reflexivity. Qed.

(** ** prepareHost: the shape of a run *)

Lemma callsOf_app (a b : list hostEvent) :
  callsOf (a ++ b) = (callsOf a + callsOf b)%nat.
Proof. unfold callsOf. now rewrite filter_app, length_app. Qed.

Lemma sleepSeconds_app (a b : list hostEvent) :
  sleepSeconds (a ++ b) = sleepSeconds a + sleepSeconds b.
Proof.
  induction a as [| ev a IH]; simpl; [reflexivity |].
  destruct ev; rewrite ?IH; lia.
Qed.

Lemma succeeded_app_inv (k : callKind) (a b : list hostEvent) :
  succeeded k (a ++ b) -> succeeded k a \/ succeeded k b.
Proof.
  intros (ev & Hin & Hk). apply in_app_or in Hin.
  destruct Hin as [Hin | Hin]; [left | right]; now exists ev.
Qed.

Lemma called_app_inv (k : callKind) (a b : list hostEvent) :
  called k (a ++ b) -> called k a \/ called k b.
Proof.
  intros (ev & Hin & Hk). apply in_app_or in Hin.
  destruct Hin as [Hin | Hin]; [left | right]; now exists ev.
Qed.

Section RetrySegment.

Variable api : API.
Variable op : operation.

Lemma attempt_event (s : vars) :
  exists call,
    fits op call
    /\ kindOf call = Some (kind op)
    /\ callError call = Some (answer api op s)
    /\ events (snd (attempt api op s))
       = events s
         ++ call :: match answer api op s with
                    | Some e => [Warningf (Error e)]
                    | None => []
                    end.
Proof.
  destruct op as [ci | spec | | id hostSt]; simpl;
    [ unfold tryFindHostByCustomIdentifier;
      destruct (FindHostByCustomIdentifier api (events s) ci) as [h | e]
    | unfold tryCreateHost; destruct (CreateHost api (events s) spec) as [h | e]
    | unfold tryFindHost; destruct (FindHost api (events s) (hostID s)) as [h | e]
    | unfold tryUpdateHostStatus;
      destruct (UpdateHostStatus api (events s) id hostSt) as [e |] ];
    simpl; try destruct (isClientError e); simpl;
    eexists;
    (split; [| split; [| split; [| rewrite <- ?app_assoc; reflexivity]]]);
    simpl; auto.
Qed.

(** One attempt adds one call, which fits [op], and does not sleep. *)
Lemma attempt_segment (s : vars) :
  exists one,
    events (snd (attempt api op s)) = events s ++ one
    /\ Forall (fits op) one
    /\ callsOf one = 1%nat
    /\ sleepSeconds one = 0
    /\ (answer api op s <> None -> ~ succeeded (kind op) one).
Proof.
  destruct (attempt_event s) as (call & Hfit & Hk & Hc & He).
  eexists. split; [exact He |].
  assert (Hcall : isCall call = true) by (unfold isCall; now rewrite Hc).
  assert (Hsl : sleepSeconds [call] = 0) by (destruct call; simpl in *; congruence).
  split; [| split; [| split]].
  - constructor; [exact Hfit |]. destruct (answer api op s); repeat constructor.
  - unfold callsOf. simpl. rewrite Hcall. now destruct (answer api op s).
  - change (sleepSeconds ([call] ++ match answer api op s with
                                    | Some e => [Warningf (Error e)]
                                    | None => []
                                    end) = 0).
    rewrite sleepSeconds_app, Hsl. now destruct (answer api op s).
  - intros Hans (ev & Hin & _ & Herr).
    destruct Hin as [<- | Hin].
    + rewrite Hc in Herr. injection Herr as Herr. now elim Hans.
    + destruct (answer api op s); [| destruct Hin].
      destruct Hin as [<- | []]. discriminate Herr.
Qed.

Lemma Retry_segment (i : Z) (n : nat) :
  0 <= i ->
  forall s,
    exists more,
      events (snd (Retry n i (attempt api op) s)) = events s ++ more
      /\ segment op n i more
      /\ (lastErr (snd (Retry n i (attempt api op) s)) <> None ->
          ~ succeeded (kind op) more).
Proof.
  intros Hi. induction n as [| n IH]; intros s.
  - exists []. cbn [Retry snd]. rewrite app_nil_r.
    split; [reflexivity | split].
    + repeat split; simpl; try constructor; lia.
    + intros _ (ev & [] & _).
  - destruct (attempt_segment s) as (one & He & Hfit & Hcalls & Hsleep & Hfail).
    destruct (attempt_spec api op s) as (Hf & Hl & _).
    assert (Hone : segment op (S n) i one).
    { split; [exact Hfit | split; [lia |]]. rewrite Hsleep. cbn [pred]. nia. }
    destruct (fst (attempt api op s)) as [e |] eqn:Hfst.
    + assert (Hans : answer api op s <> None).
      { destruct (answer api op s); [discriminate | discriminate Hf]. }
      destruct n as [| n'].
      * rewrite (proj2 (Retry_goes_on api op s 0 i e Hfst)). cbn [snd].
        exists one. split; [exact He | split; [exact Hone |]].
        intros _. now apply Hfail.
      * rewrite (proj1 (Retry_goes_on api op s n' i e Hfst)).
        destruct (IH (emit (Sleep i) (snd (attempt api op s))))
          as (more & Hm & (Hmfit & Hmcalls & Hmsleep) & Hmfail).
        exists (one ++ Sleep i :: more). split; [| split].
        -- rewrite Hm. cbn [events emit]. rewrite He, <- !app_assoc. reflexivity.
        -- split; [| split].
           ++ apply Forall_app. split; [exact Hfit |].
              constructor; [exact I | exact Hmfit].
           ++ rewrite callsOf_app.
              change (Sleep i :: more) with ([Sleep i] ++ more).
              rewrite callsOf_app. unfold callsOf at 2. simpl. lia.
           ++ rewrite sleepSeconds_app, Hsleep. cbn [sleepSeconds fold_right].
              fold (sleepSeconds more). cbn [pred] in *.
              rewrite (Nat2Z.inj_succ n'). nia.
        -- intros Hlast Hs. apply succeeded_app_inv in Hs.
           destruct Hs as [Hs | (ev & Hin & Hk & Herr)]; [now apply Hfail |].
           destruct Hin as [<- | Hin]; [discriminate Hk |].
           apply (Hmfail Hlast). now exists ev.
    + rewrite (Retry_stops api op s n i Hfst). cbn [snd].
      exists one. split; [exact He | split; [exact Hone |]].
      intros Hlast. apply Hfail. now rewrite <- Hl.
Qed.

End RetrySegment.

Lemma segment_doRetry (api : API) (op : operation) (s : vars) :
  exists more,
    events (doRetry (attempt api op) s) = events s ++ more
    /\ segment op 20 3 more
    /\ (lastErr (doRetry (attempt api op) s) <> None ->
        ~ succeeded (kind op) more).
Proof.
  apply (Retry_segment api op retryInterval retryNum). unfold retryInterval. lia.
Qed.

Lemma setStatusAndSave_shape (conf : Config) (store : HostIDStorage) (api : API)
    (s : vars) :
  result s <> None ->
  exists update save,
    snd (setStatusAndSave conf store api s) = events s ++ update ++ save
    /\ (update = []
        \/ (OnStart conf <> ""
            /\ exists id, segment (opUpdateHostStatus id (OnStart conf)) 20 3 update))
    /\ ((save = [] /\ exists e, fst (setStatusAndSave conf store api s) = inr e)
        \/ exists h r, save = [CallSaveHostID (ID h) r]
                       /\ match r with
                          | None => fst (setStatusAndSave conf store api s) = inl h
                          | Some e =>
                              exists e', fst (setStatusAndSave conf store api s) = inr e'
                          end).
Proof.
  intros Hres. unfold setStatusAndSave.
  destruct (result s) as [r |]; [| congruence].
  assert (Hsave : forall s', exists save,
            snd (saveHostID store r s') = events s' ++ save
            /\ exists h r', save = [CallSaveHostID (ID h) r']
                            /\ match r' with
                               | None => fst (saveHostID store r s') = inl h
                               | Some e => exists e', fst (saveHostID store r s') = inr e'
                               end).
  { intros s'. unfold saveHostID. exists [CallSaveHostID (ID r) (SaveHostID store (ID r))].
    destruct (SaveHostID store (ID r)) as [e |] eqn:Hs; cbn [fst snd events emit].
    - split; [reflexivity |]. exists r, (Some e). split; [reflexivity |].
      eexists; reflexivity.
    - split; [reflexivity |]. exists r, None. now split. }
  destruct (negb (OnStart conf =? "")%string
            && negb (OnStart conf =? Status r)%string) eqn:Hcond.
  - assert (Hon : OnStart conf <> "").
    { apply andb_prop in Hcond. destruct Hcond as [Hc _].
      apply negb_true_iff in Hc. now apply String.eqb_neq. }
    destruct (segment_doRetry api (opUpdateHostStatus (ID r) (OnStart conf)) s)
      as (update & Hev & Hseg & _).
    cbn [attempt] in Hev.
    destruct (lastErr (doRetry (tryUpdateHostStatus api (ID r) (OnStart conf)) s))
      as [e |].
    + exists update, []. cbn [fst snd]. rewrite app_nil_r.
      split; [exact Hev | split].
      * right. split; [exact Hon | now exists (ID r)].
      * left. split; [reflexivity | eexists; reflexivity].
    + destruct (Hsave (doRetry (tryUpdateHostStatus api (ID r) (OnStart conf)) s))
        as (save & Hs & Hsv).
      exists update, save. rewrite Hs, Hev, <- app_assoc.
      split; [reflexivity | split].
      * right. split; [exact Hon | now exists (ID r)].
      * now right.
  - destruct (Hsave s) as (save & Hs & Hsv).
    exists [], save. rewrite Hs. split; [reflexivity | split; [now left | now right]].
Qed.

Lemma prepareHost_shape (conf : Config) (store : HostIDStorage)
    (sp : hostSpecs) (api : API) :
  registrationShape conf store sp (prepareHost conf store (inl sp) api).
Proof.
  unfold prepareHost, registrationShape. cbv zeta.
  set (s0 := mkVars None (fst (LoadHostID store)) None []).
  destruct (snd (LoadHostID store)) as [loadErr |].
  - (* create *)
    match goal with
    | |- context [result ?x] =>
        match x with
        | (if _ then _ else _) => set (s1 := x)
        end
    end.
    assert (H1 : exists lookup,
              events s1 = lookup
              /\ (lookup = []
                  \/ (customIdentifier sp <> ""
                      /\ segment (opFindHostByCustomIdentifier (customIdentifier sp))
                           3 2 lookup))
              /\ (result s1 = None ->
                  ~ succeeded kFindHostByCustomIdentifier lookup)).
    { subst s1. destruct (String.eqb_spec (customIdentifier sp) "") as [Hci | Hci];
        cbn [negb].
      - exists []. split; [reflexivity | split; [now left |]].
        intros _ (ev & [] & _).
      - set (sR := snd (Retry 3 2
                     (tryFindHostByCustomIdentifier api (customIdentifier sp)) s0)).
        destruct (Retry_segment api
                    (opFindHostByCustomIdentifier (customIdentifier sp)) 2 3
                    ltac:(lia) s0) as (lookup & Hev & Hseg & Hfail).
        pose proof (doRetry_resultOrError api
                      (opFindHostByCustomIdentifier (customIdentifier sp)) 2 2 s0 I)
          as Hroe.
        cbn [attempt kind] in Hev, Hfail, Hroe. fold sR in Hev, Hfail, Hroe.
        change (events s0) with (@nil hostEvent) in Hev. cbn [app] in Hev.
        exists lookup.
        assert (Hsame : events (match result sR with
                                | Some r => mkVars (result sR) (ID r) (lastErr sR)
                                              (events sR)
                                | None => sR
                                end) = lookup
                        /\ result (match result sR with
                                   | Some r => mkVars (result sR) (ID r) (lastErr sR)
                                                 (events sR)
                                   | None => sR
                                   end) = result sR).
        { destruct (result sR) eqn:Hres;
            (split; [exact Hev | first [reflexivity | exact Hres]]). }
        destruct Hsame as [-> ->].
        split; [reflexivity | split; [right; now split |]].
        intros Hnone. apply Hfail. now apply Hroe. }
    destruct H1 as (lookup & Hev1 & Hlookup & Hnone1).
    assert (Hlookup' :
              lookup = []
              \/ (Some loadErr <> None /\ customIdentifier sp <> ""
                  /\ segment (opFindHostByCustomIdentifier (customIdentifier sp))
                       3 2 lookup)).
    { destruct Hlookup as [-> | [Hci Hseg]]; [now left |].
      right. split; [discriminate | now split]. }
    destruct (result s1) as [r1 |] eqn:Hr1.
    + destruct (setStatusAndSave_shape conf store api s1) as (update & save & Hev & Hu & Hs);
        [congruence |].
      exists lookup, [], [], update, save. rewrite Hev, Hev1. cbn [app].
      split; [reflexivity |].
      split; [exact Hlookup' | split; [now left | split; [now left |]]].
      split; [exact Hu | exact Hs].
    + specialize (Hnone1 eq_refl).
      destruct (segment_doRetry api (opCreateHost (registeredSpec conf sp)) s1)
        as (create & Hev2 & Hseg2 & _).
      cbn [attempt] in Hev2. unfold registeredSpec in Hev2.
      set (s2 := doRetry (tryCreateHost api _) s1) in *.
      destruct (lastErr s2) as [e |].
      * exists lookup, create, [], [], []. cbn [fst snd]. rewrite Hev2, Hev1.
        rewrite !app_nil_r.
        split; [reflexivity |].
        split; [exact Hlookup' | split; [| split; [now left | split; [now left |]]]].
        -- right. split; [discriminate | now split].
        -- left. split; [reflexivity | eexists; reflexivity].
      * destruct (segment_doRetry api opFindHost s2) as (find & Hev3 & Hseg3 & _).
        pose proof (doRetry_resultOrError api opFindHost 19 retryInterval s2 I)
          as Hroe.
        cbn [attempt] in Hev3, Hroe.
        change (snd (Retry 20 retryInterval (tryFindHost api) s2))
          with (doRetry (tryFindHost api) s2) in Hroe.
        destruct (lastErr (doRetry (tryFindHost api) s2)) as [e |] eqn:Hl3.
        -- exists lookup, create, find, [], []. cbn [fst snd].
           rewrite Hev3, Hev2, Hev1, !app_nil_r, <- !app_assoc.
           split; [reflexivity |].
           split; [exact Hlookup' | split; [| split; [| split; [now left |]]]].
           ++ right. split; [discriminate | now split].
           ++ right. now split.
           ++ left. split; [reflexivity | eexists; reflexivity].
        -- destruct (setStatusAndSave_shape conf store api
                       (doRetry (tryFindHost api) s2))
             as (update & save & Hev & Hu & Hs).
           { unfold resultOrError in Hroe. rewrite Hl3 in Hroe.
             intros Hnil. apply (proj1 Hroe Hnil). reflexivity. }
           exists lookup, create, find, update, save.
           rewrite Hev, Hev3, Hev2, Hev1, <- !app_assoc.
           split; [reflexivity |].
           split; [exact Hlookup' | split; [| split; [| split; [exact Hu | exact Hs]]]].
           ++ right. split; [discriminate | now split].
           ++ right. now split.
  - (* check the hostID is valid or not *)
    destruct (segment_doRetry api opFindHost s0) as (find & Hev1 & Hseg1 & _).
    pose proof (doRetry_resultOrError api opFindHost 19 retryInterval s0 I) as Hroe.
    cbn [attempt] in Hev1, Hroe.
    change (snd (Retry 20 retryInterval (tryFindHost api) s0))
      with (doRetry (tryFindHost api) s0) in Hroe.
    change (events s0) with (@nil hostEvent) in Hev1. cbn [app] in Hev1.
    assert (Hnot : ~ succeeded kFindHostByCustomIdentifier [])
      by (intros (ev & [] & _)).
    destruct (lastErr (doRetry (tryFindHost api) s0)) as [e |] eqn:Hl1.
    + exists [], [], find, [], [].
      destruct (HostIDFile store) as [file |]; cbn [fst snd app];
        rewrite Hev1, app_nil_r;
        (split; [reflexivity |]);
        (split; [now left | split; [now left | split; [right; now split |]]]);
        (split; [now left |]); left; (split; [reflexivity | eexists; reflexivity]).
    + destruct (setStatusAndSave_shape conf store api (doRetry (tryFindHost api) s0))
        as (update & save & Hev & Hu & Hs).
      { unfold resultOrError in Hroe. rewrite Hl1 in Hroe.
        intros Hnil. apply (proj1 Hroe Hnil). reflexivity. }
      exists [], [], find, update, save. rewrite Hev, Hev1. cbn [app].
      split; [reflexivity |].
      split; [now left | split; [now left | split; [right; now split |]]].
      split; [exact Hu | exact Hs].
Qed.

Lemma fits_kind (op : operation) (ev : hostEvent) :
  fits op ev -> forall k, kindOf ev = Some k -> k = kind op.
Proof.
  destruct ev, op; simpl; intros H k Hk; try contradiction;
    try discriminate; now injection Hk as <-.
Qed.

Lemma segment_called (op : operation) (n : nat) (i : Z) (seg : list hostEvent)
    (k : callKind) :
  segment op n i seg -> called k seg -> k = kind op.
Proof.
  intros (Hfit & _) (ev & Hin & Hk). rewrite Forall_forall in Hfit.
  exact (fits_kind op ev (Hfit ev Hin) k Hk).
Qed.

Lemma segment_in (op : operation) (n : nat) (i : Z) (seg : list hostEvent)
    (ev : hostEvent) :
  segment op n i seg -> In ev seg -> fits op ev.
Proof. intros (Hfit & _) Hin. rewrite Forall_forall in Hfit. now apply Hfit. Qed.

Lemma called_nil (k : callKind) : ~ called k [].
Proof. intros (ev & [] & _). Qed.

Ltac in_parts H := repeat (apply in_app_or in H; destruct H as [H | H]).

Ltac called_parts H :=
  repeat (apply called_app_inv in H; destruct H as [H | H]).

(** X17.  A host whose ID was saved by an earlier run is never registered
    again: when [LoadHostID] succeeds, [prepareHost] calls neither
    [CreateHost] nor [FindHostByCustomIdentifier]. *)
Theorem saved_host_is_not_registered_again (conf : Config)
    (store : HostIDStorage) (collected : hostSpecs + error) (api : API) :
  snd (LoadHostID store) = None ->
  ~ called kCreateHost (snd (prepareHost conf store collected api))
  /\ ~ called kFindHostByCustomIdentifier
         (snd (prepareHost conf store collected api)).
Proof.
  intros Hload. destruct collected as [sp | e]; [| split; apply called_nil].
  destruct (prepareHost_shape conf store sp api)
    as (lookup & create & find & update & save & -> & Hl & Hc & Hf & Hu & Hs).
  destruct Hl as [-> | [Hl _]]; [| congruence].
  destruct Hc as [-> | [Hc _]]; [| congruence].
  cbn [app].
  assert (Hsave : forall k, ~ called k save).
  { intros k (ev & Hin & Hk).
    destruct Hs as [[-> _] | (h & r & -> & _)]; [destruct Hin |].
    destruct Hin as [<- | []]. discriminate Hk. }
  split; intros H; called_parts H;
    try (now apply (Hsave _ H));
    try (destruct Hf as [-> | [_ Hf]];
         [now apply called_nil in H
         | discriminate (segment_called _ _ _ _ _ Hf H)]);
    try (destruct Hu as [-> | [_ [id Hu]]];
         [now apply called_nil in H
         | discriminate (segment_called _ _ _ _ _ Hu H)]).
Qed.

Lemma saved_host_is_not_registered_again_witness :
  ~ called kCreateHost
      (snd (prepareHost conf60 store_abc (inl specs_cloud) api_up))
  /\ ~ called kFindHostByCustomIdentifier
         (snd (prepareHost conf60 store_abc (inl specs_cloud) api_up)).
Proof.
  exact (saved_host_is_not_registered_again conf60 store_abc (inl specs_cloud)
           api_up eq_refl).
Defined.

Lemma shape_no_save (conf : Config) (op : operation) (n : nat) (i : Z)
    (seg : list hostEvent) (id : string) (r : option error) :
  seg = [] \/ segment op n i seg -> ~ In (CallSaveHostID id r) seg.
Proof.
  intros [-> | Hseg] Hin; [destruct Hin |].
  apply (segment_in _ _ _ _ _ Hseg) in Hin. destruct op; exact Hin.
Qed.

(** X18.  [prepareHost] returns a host only after it has saved the host's
    ID: the saving is the last thing it did, it succeeded, and nothing was
    saved before. *)
Theorem host_returned_after_saving_its_ID (conf : Config)
    (store : HostIDStorage) (collected : hostSpecs + error) (api : API)
    (h : Host) :
  fst (prepareHost conf store collected api) = inl h ->
  exists before,
    snd (prepareHost conf store collected api)
    = before ++ [CallSaveHostID (ID h) None]
    /\ forall id r, ~ In (CallSaveHostID id r) before.
Proof.
  intros Hok. destruct collected as [sp | e]; [| discriminate Hok].
  destruct (prepareHost_shape conf store sp api)
    as (lookup & create & find & update & save & Htr & Hl & Hc & Hf & Hu & Hs).
  destruct Hs as [[_ [e He]] | (h' & r & -> & Hr)]; [congruence |].
  destruct r as [e |]; [destruct Hr as [e' He']; congruence |].
  rewrite Hok in Hr. injection Hr as <-.
  exists (lookup ++ create ++ find ++ update). split.
  - rewrite Htr, <- !app_assoc. reflexivity.
  - intros id r Hin. in_parts Hin.
    + apply (shape_no_save conf (opFindHostByCustomIdentifier (customIdentifier sp))
               3 2 lookup id r); [| exact Hin].
      destruct Hl as [-> | (_ & _ & Hl)]; [now left | now right].
    + apply (shape_no_save conf (opCreateHost (registeredSpec conf sp))
               20 3 create id r); [| exact Hin].
      destruct Hc as [-> | (_ & _ & Hc)]; [now left | now right].
    + apply (shape_no_save conf opFindHost 20 3 find id r); [| exact Hin].
      destruct Hf as [-> | (_ & Hf)]; [now left | now right].
    + destruct Hu as [-> | (_ & id' & Hu)]; [destruct Hin |].
      apply (shape_no_save conf (opUpdateHostStatus id' (OnStart conf))
               20 3 update id r); [now right | exact Hin].
Qed.

Lemma host_returned_after_saving_its_ID_witness :
  exists before,
    snd (prepareHost conf60 store_empty (inl specs_plain) api_up)
    = before ++ [CallSaveHostID (ID host_abc) None]
    /\ forall id r, ~ In (CallSaveHostID id r) before.
Proof.
  exact (host_returned_after_saving_its_ID conf60 store_empty (inl specs_plain)
           api_up host_abc eq_refl).
Defined.

Lemma segment_bounds (op : operation) (n : nat) (i : Z) (seg : list hostEvent) :
  seg = [] \/ segment op n i seg -> 0 <= i ->
  (callsOf seg <= n)%nat /\ 0 <= sleepSeconds seg <= Z.of_nat (pred n) * i.
Proof.
  intros [-> | (_ & Hc & Hs)] Hi; [| now split].
  split; [unfold callsOf; simpl; lia | simpl; nia].
Qed.

(** X19.  Registration is bounded: a run of [prepareHost] makes at most 63
    remote calls (3 lookups by custom identifier and 20 each of
    [CreateHost], [FindHost] and [UpdateHostStatus]) and sleeps at most 175
    seconds between them. *)
Theorem registration_is_bounded (conf : Config) (store : HostIDStorage)
    (collected : hostSpecs + error) (api : API) :
  (callsOf (snd (prepareHost conf store collected api)) <= 63)%nat
  /\ 0 <= sleepSeconds (snd (prepareHost conf store collected api)) <= 175.
Proof.
  destruct collected as [sp | e]; [| simpl; split; [unfold callsOf; simpl |]; lia].
  destruct (prepareHost_shape conf store sp api)
    as (lookup & create & find & update & save & -> & Hl & Hc & Hf & Hu & Hs).
  assert (Bl := segment_bounds (opFindHostByCustomIdentifier (customIdentifier sp))
                  3 2 lookup
                  ltac:(destruct Hl as [-> | (_ & _ & Hl)]; [now left | now right])
                  ltac:(lia)).
  assert (Bc := segment_bounds (opCreateHost (registeredSpec conf sp)) 20 3 create
                  ltac:(destruct Hc as [-> | (_ & _ & Hc)]; [now left | now right])
                  ltac:(lia)).
  assert (Bf := segment_bounds opFindHost 20 3 find
                  ltac:(destruct Hf as [-> | (_ & Hf)]; [now left | now right])
                  ltac:(lia)).
  assert (Bu : (callsOf update <= 20)%nat /\ 0 <= sleepSeconds update <= 57).
  { destruct Hu as [-> | (_ & id & Hu)].
    - split; [unfold callsOf; simpl; lia | simpl; lia].
    - destruct Hu as (_ & H1 & H2). simpl in H2. split; lia. }
  assert (Bs : callsOf save = 0%nat /\ sleepSeconds save = 0).
  { destruct Hs as [[-> _] | (h & r & -> & _)]; split; reflexivity. }
  rewrite !callsOf_app, !sleepSeconds_app. simpl in Bl, Bc, Bf. lia.
Qed.

(** X20.  The host status is touched only as configured: every
    [UpdateHostStatus] call of [prepareHost] sets the configured on-start
    status, and none is made when that status is empty. *)
Theorem status_update_only_as_configured (conf : Config)
    (store : HostIDStorage) (collected : hostSpecs + error) (api : API)
    (id status : string) (r : option error) :
  In (CallUpdateHostStatus id status r)
     (snd (prepareHost conf store collected api)) ->
  status = OnStart conf /\ OnStart conf <> "".
Proof.
  intros Hin. destruct collected as [sp | e]; [| destruct Hin].
  destruct (prepareHost_shape conf store sp api)
    as (lookup & create & find & update & save & Htr & Hl & Hc & Hf & Hu & Hs).
  rewrite Htr in Hin. in_parts Hin.
  - destruct Hl as [-> | (_ & _ & Hl)]; [destruct Hin |].
    now apply (segment_in _ _ _ _ _ Hl) in Hin.
  - destruct Hc as [-> | (_ & _ & Hc)]; [destruct Hin |].
    now apply (segment_in _ _ _ _ _ Hc) in Hin.
  - destruct Hf as [-> | (_ & Hf)]; [destruct Hin |].
    now apply (segment_in _ _ _ _ _ Hf) in Hin.
  - destruct Hu as [-> | (Hon & id' & Hu)]; [destruct Hin |].
    apply (segment_in _ _ _ _ _ Hu) in Hin. simpl in Hin. now split.
  - destruct Hs as [[-> _] | (h & r' & -> & _)]; [destruct Hin |].
    destruct Hin as [H | []]. discriminate H.
Qed.


Lemma status_update_only_as_configured_witness :
  "standby" = OnStart conf_standby /\ OnStart conf_standby <> "".
Proof.
  apply (status_update_only_as_configured conf_standby store_abc
           (inl specs_plain) api_up "abc" "standby" None).
  vm_compute. right. left. reflexivity.
Defined.

Lemma part_called (op : operation) (n : nat) (i : Z) (seg : list hostEvent)
    (k : callKind) :
  seg = [] \/ segment op n i seg -> called k seg -> k = kind op.
Proof.
  intros [-> | Hseg] H; [now apply called_nil in H |].
  exact (segment_called _ _ _ _ _ Hseg H).
Qed.

Lemma succeeded_called (k : callKind) (tr : list hostEvent) :
  succeeded k tr -> called k tr.
Proof. intros (ev & Hin & Hk & _). now exists ev. Qed.

Lemma save_not_called (save : list hostEvent) (k : callKind) :
  (save = [] \/ exists id r, save = [CallSaveHostID id r]) -> ~ called k save.
Proof.
  intros [-> | (id & r & ->)] (ev & Hin & Hk); [destruct Hin |].
  destruct Hin as [<- | []]. discriminate Hk.
Qed.

(** X21.  A host found by its custom identifier is adopted, not created:
    once [FindHostByCustomIdentifier] has succeeded, [prepareHost] calls
    neither [CreateHost] nor [FindHost]. *)
Theorem adopted_host_is_not_created (conf : Config) (store : HostIDStorage)
    (collected : hostSpecs + error) (api : API) :
  succeeded kFindHostByCustomIdentifier
    (snd (prepareHost conf store collected api)) ->
  ~ called kCreateHost (snd (prepareHost conf store collected api))
  /\ ~ called kFindHost (snd (prepareHost conf store collected api)).
Proof.
  intros Hsucc. destruct collected as [sp | e];
    [| apply succeeded_called in Hsucc; now apply called_nil in Hsucc].
  destruct (prepareHost_shape conf store sp api)
    as (lookup & create & find & update & save & Htr & Hl & Hc & Hf & Hu & Hs).
  rewrite Htr in *.
  assert (Pl : lookup = []
               \/ segment (opFindHostByCustomIdentifier (customIdentifier sp))
                    3 2 lookup)
    by (destruct Hl as [-> | (_ & _ & Hl)]; [now left | now right]).
  assert (Pc : create = []
               \/ segment (opCreateHost (registeredSpec conf sp)) 20 3 create)
    by (destruct Hc as [-> | (_ & _ & Hc)]; [now left | now right]).
  assert (Pf : find = [] \/ segment opFindHost 20 3 find)
    by (destruct Hf as [-> | (_ & Hf)]; [now left | now right]).
  assert (Pu : forall k, called k update -> k = kUpdateHostStatus).
  { intros k H. destruct Hu as [-> | (_ & id & Hu)];
      [now apply called_nil in H | exact (segment_called _ _ _ _ _ Hu H)]. }
  assert (Ps : forall k, ~ called k save).
  { intros k. apply save_not_called.
    destruct Hs as [[-> _] | (h & r & -> & _)]; [now left | right; eauto]. }
  assert (Hlook : succeeded kFindHostByCustomIdentifier lookup).
  { repeat (apply succeeded_app_inv in Hsucc; destruct Hsucc as [Hsucc | Hsucc]);
      try assumption; apply succeeded_called in Hsucc.
    - discriminate (part_called _ _ _ _ _ Pc Hsucc).
    - discriminate (part_called _ _ _ _ _ Pf Hsucc).
    - discriminate (Pu _ Hsucc).
    - now apply Ps in Hsucc. }
  destruct Hc as [-> | (_ & Hc & _)]; [| contradiction].
  destruct Hf as [-> | (Hf & _)]; [| contradiction].
  cbn [app].
  split; intros H; called_parts H;
    try (discriminate (part_called _ _ _ _ _ Pl H));
    try (discriminate (Pu _ H));
    try (now apply Ps in H).
Qed.

Lemma adopted_host_is_not_created_witness :
  ~ called kCreateHost
      (snd (prepareHost conf60 store_empty (inl specs_cloud) api_up))
  /\ ~ called kFindHost
         (snd (prepareHost conf60 store_empty (inl specs_cloud) api_up)).
Proof.
  apply (adopted_host_is_not_created conf60 store_empty (inl specs_cloud) api_up).
  eexists. split; [vm_compute; left; reflexivity | split; reflexivity].
Defined.

(** X22.  A new host is registered as collected: every [CreateHost] call of
    [prepareHost] carries the collected name, meta data, interfaces and
    custom identifier together with the configured roles and display
    name. *)
Theorem created_host_is_as_collected (conf : Config) (store : HostIDStorage)
    (sp : hostSpecs) (api : API) (spec : HostSpec) (r : string + error) :
  In (CallCreateHost spec r) (snd (prepareHost conf store (inl sp) api)) ->
  spec = registeredSpec conf sp.
Proof.
  intros Hin.
  destruct (prepareHost_shape conf store sp api)
    as (lookup & create & find & update & save & Htr & Hl & Hc & Hf & Hu & Hs).
  rewrite Htr in Hin. in_parts Hin.
  - destruct Hl as [-> | (_ & _ & Hl)]; [destruct Hin |].
    now apply (segment_in _ _ _ _ _ Hl) in Hin.
  - destruct Hc as [-> | (_ & _ & Hc)]; [destruct Hin |].
    now apply (segment_in _ _ _ _ _ Hc) in Hin.
  - destruct Hf as [-> | (_ & Hf)]; [destruct Hin |].
    now apply (segment_in _ _ _ _ _ Hf) in Hin.
  - destruct Hu as [-> | (Hon & id' & Hu)]; [destruct Hin |].
    now apply (segment_in _ _ _ _ _ Hu) in Hin.
  - destruct Hs as [[-> _] | (h & r' & -> & _)]; [destruct Hin |].
    destruct Hin as [H | []]. discriminate H.
Qed.

Lemma created_host_is_as_collected_witness :
  mkHostSpec "web01" [] [] ["web:app"] "front" ""
  = registeredSpec conf_standby specs_plain.
Proof.
  apply (created_host_is_as_collected conf_standby store_empty specs_plain
           api_up _ (inl "abc")).
  vm_compute. left. reflexivity.
Defined.

(** X23.  The lookup by custom identifier is made only with the collected
    identifier, and only when there is one. *)
Theorem lookup_uses_collected_identifier (conf : Config)
    (store : HostIDStorage) (sp : hostSpecs) (api : API) (ci : string)
    (r : Host + error) :
  In (CallFindHostByCustomIdentifier ci r)
     (snd (prepareHost conf store (inl sp) api)) ->
  ci = customIdentifier sp /\ ci <> "".
Proof.
  intros Hin.
  destruct (prepareHost_shape conf store sp api)
    as (lookup & create & find & update & save & Htr & Hl & Hc & Hf & Hu & Hs).
  rewrite Htr in Hin. in_parts Hin.
  - destruct Hl as [-> | (_ & Hci & Hl)]; [destruct Hin |].
    apply (segment_in _ _ _ _ _ Hl) in Hin. simpl in Hin. now subst ci.
  - destruct Hc as [-> | (_ & _ & Hc)]; [destruct Hin |].
    now apply (segment_in _ _ _ _ _ Hc) in Hin.
  - destruct Hf as [-> | (_ & Hf)]; [destruct Hin |].
    now apply (segment_in _ _ _ _ _ Hf) in Hin.
  - destruct Hu as [-> | (Hon & id' & Hu)]; [destruct Hin |].
    now apply (segment_in _ _ _ _ _ Hu) in Hin.
  - destruct Hs as [[-> _] | (h & r' & -> & _)]; [destruct Hin |].
    destruct Hin as [H | []]. discriminate H.
Qed.

Lemma lookup_uses_collected_identifier_witness :
  "i-0123456789.ec2.amazonaws.com" = customIdentifier specs_cloud
  /\ "i-0123456789.ec2.amazonaws.com" <> "".
Proof.
  apply (lookup_uses_collected_identifier conf60 store_empty specs_cloud api_up
           _ (inl host_abc)).
  vm_compute. left. reflexivity.
Defined.

Lemma setIdentifier_In (set : list string) (ci x : string) :
  In x (setIdentifier set ci) <-> In x set \/ x = ci.
Proof.
  unfold setIdentifier. destruct (existsb (String.eqb ci) set) eqn:Hex.
  - apply existsb_exists in Hex. destruct Hex as (y & Hy & Heq).
    apply String.eqb_eq in Heq. subst y.
    split; [now left | intros [H | ->]; assumption].
  - rewrite in_app_iff. simpl. intuition.
Qed.

Lemma setIdentifier_NoDup (set : list string) (ci : string) :
  NoDup set -> NoDup (setIdentifier set ci).
Proof.
  intros Hnd. unfold setIdentifier.
  destruct (existsb (String.eqb ci) set) eqn:Hex; [exact Hnd |].
  apply NoDup_app; [exact Hnd | repeat constructor; intros [] |].
  intros x Hx [<- | []].
  assert (existsb (String.eqb ci) set = true); [| congruence].
  apply existsb_exists. exists ci. split; [exact Hx | apply String.eqb_refl].
Qed.

Lemma identifiersOf_spec (pluginConfigs : string * list (string * PluginConfig))
    (set : list string) :
  NoDup set ->
  NoDup (identifiersOf set pluginConfigs)
  /\ forall x, In x (identifiersOf set pluginConfigs)
               <-> In x set
                   \/ exists pluginConfig, In pluginConfig (snd pluginConfigs)
                        /\ pluginCustomIdentifier (snd pluginConfig) = Some x.
Proof.
  unfold identifiersOf. generalize (snd pluginConfigs) as l. intros l.
  revert set. induction l as [| pc l IH]; intros set Hnd; cbn [fold_left].
  - split; [exact Hnd |]. intros x. split; [now left |].
    intros [H | (pc & [] & _)]. exact H.
  - destruct (pluginCustomIdentifier (snd pc)) as [ci |] eqn:Hci.
    + destruct (IH _ (setIdentifier_NoDup set ci Hnd)) as [Hnd' Hin].
      split; [exact Hnd' |]. intros x. rewrite Hin, setIdentifier_In.
      split.
      * intros [[H | ->] | (pc' & Hpc' & Hx)]; [now left | |].
        -- right. exists pc. split; [now left | exact Hci].
        -- right. exists pc'. split; [now right | exact Hx].
      * intros [H | (pc' & [<- | Hpc'] & Hx)]; [now left; left | |].
        -- left. right. congruence.
        -- right. now exists pc'.
    + destruct (IH _ Hnd) as [Hnd' Hin].
      split; [exact Hnd' |]. intros x. rewrite Hin.
      split.
      * intros [H | (pc' & Hpc' & Hx)]; [now left |].
        right. exists pc'. split; [now right | exact Hx].
      * intros [H | (pc' & [<- | Hpc'] & Hx)]; [now left | congruence |].
        right. now exists pc'.
Qed.

Lemma customIdentifiers_from (plugin : Plugin) (set : list string) :
  NoDup set ->
  NoDup (fold_left identifiersOf plugin set)
  /\ forall x, In x (fold_left identifiersOf plugin set)
               <-> In x set \/ configured plugin x.
Proof.
  revert set. induction plugin as [| pcs plugin IH]; intros set Hnd;
    cbn [fold_left].
  - split; [exact Hnd |]. intros x. split; [now left |].
    intros [H | (pcs & _ & [] & _)]. exact H.
  - destruct (identifiersOf_spec pcs set Hnd) as [Hnd1 Hin1].
    destruct (IH _ Hnd1) as [Hnd2 Hin2].
    split; [exact Hnd2 |]. intros x. rewrite Hin2, Hin1. unfold configured.
    split.
    + intros [[H | (pc & Hpc & Hx)] | (pcs' & pc & Hpcs & Hpc & Hx)].
      * now left.
      * right. exists pcs, pc. split; [now left | now split].
      * right. exists pcs', pc. split; [now right | now split].
    + intros [H | (pcs' & pc & [<- | Hpcs] & Hpc & Hx)].
      * now left; left.
      * left. right. now exists pc.
      * right. now exists pcs', pc.
Qed.

Lemma customIdentifiers_spec (plugin : Plugin) :
  NoDup (customIdentifiers plugin)
  /\ forall x, In x (customIdentifiers plugin) <-> configured plugin x.
Proof.
  destruct (customIdentifiers_from plugin [] (NoDup_nil _)) as [Hnd Hin].
  split; [exact Hnd |]. intros x. unfold customIdentifiers. rewrite Hin.
  split; [intros [[] | H]; exact H | now right].
Qed.

Lemma lookedUp_In (tr : list hostEvent) (ci : string) (r : Host + error) :
  In (CallFindHostByCustomIdentifier ci r) tr -> In ci (lookedUp tr).
Proof.
  intros Hin. unfold lookedUp. apply in_flat_map.
  eexists. split; [exact Hin | now left].
Qed.

(** What the loop over the identifiers adds to the trace and to the map. *)
Lemma findHosts_spec (api : API) (identifiers : list string) :
  forall s, NoDup identifiers ->
  exists added,
    snd (findHosts api identifiers s) = snd s ++ added
    /\ lookedUp added = identifiers
    /\ forall ci h,
         lookupHost (fst (findHosts api identifiers s)) ci = Some h
         <-> In (CallFindHostByCustomIdentifier ci (inl h)) added
             \/ ((forall h', ~ In (CallFindHostByCustomIdentifier ci (inl h')) added)
                 /\ lookupHost (fst s) ci = Some h).
Proof.
  induction identifiers as [| c rest IH]; intros s Hnd.
  - exists []. cbn [findHosts]. rewrite app_nil_r.
    split; [reflexivity | split; [reflexivity |]]. intros ci h.
    split; [intros H; right; split; [intros h' [] | exact H] |].
    intros [[] | [_ H]]. exact H.
  - inversion Hnd as [| c' rest' Hnotin Hnd' ]; subst.
    cbn [findHosts].
    destruct (FindHostByCustomIdentifier api (snd s) c) as [h0 | e] eqn:Hr.
    + destruct (IH ((c, h0) :: fst s,
                    snd s ++ [CallFindHostByCustomIdentifier c (inl h0)]) Hnd')
        as (added & Htr & Hlook & Hmap).
      exists (CallFindHostByCustomIdentifier c (inl h0) :: added).
      split; [rewrite Htr; cbn [snd]; now rewrite <- app_assoc |].
      split; [cbn; now rewrite <- Hlook |].
      intros ci h. rewrite Hmap. cbn [fst lookupHost].
      destruct (String.eqb c ci) eqn:Heq.
      * apply String.eqb_eq in Heq. subst ci. split.
        -- intros [H | [_ H]]; [left; now right |].
           injection H as <-. left. now left.
        -- intros [[H | H] | [Hno _]].
           ++ injection H as <-. right. split; [| reflexivity].
              intros h' Hin. apply Hnotin. rewrite <- Hlook.
              exact (lookedUp_In _ _ _ Hin).
           ++ now left.
           ++ exfalso. apply (Hno h0). now left.
      * apply String.eqb_neq in Heq. split.
        -- intros [H | [Hno H]]; [left; now right |].
           right. split; [| exact H].
           intros h' [Hin | Hin]; [congruence | exact (Hno h' Hin)].
        -- intros [[H | H] | [Hno H]]; [congruence | now left |].
           right. split; [| exact H].
           intros h' Hin. apply (Hno h'). now right.
    + set (w := Warningf _).
      destruct (IH (fst s,
                    (snd s ++ [CallFindHostByCustomIdentifier c (inr e)]) ++ [w])
                  Hnd')
        as (added & Htr & Hlook & Hmap).
      exists (CallFindHostByCustomIdentifier c (inr e) :: w :: added).
      split; [rewrite Htr; cbn [snd]; now rewrite <- !app_assoc |].
      split; [cbn; now rewrite <- Hlook |].
      intros ci h. rewrite Hmap. cbn [fst]. split.
      * intros [H | [Hno H]]; [left; right; now right |].
        right. split; [| exact H].
        intros h' [Hin | [Hin | Hin]];
          [discriminate Hin | discriminate Hin | exact (Hno h' Hin)].
      * intros [[H | [H | H]] | [Hno H]];
          [discriminate H | discriminate H | now left |].
        right. split; [| exact H].
        intros h' Hin. apply (Hno h'). right. now right.
Qed.

Lemma rangeOver_NoDup (plugin : Plugin) (rangeOver : list string -> list string) :
  (forall l, Permutation (rangeOver l) l) ->
  NoDup (rangeOver (customIdentifiers plugin)).
Proof.
  intros Hperm.
  apply (Permutation_NoDup (Permutation_sym (Hperm (customIdentifiers plugin)))).
  apply customIdentifiers_spec.
Qed.

Lemma rangeOver_In (plugin : Plugin) (rangeOver : list string -> list string)
    (ci : string) :
  (forall l, Permutation (rangeOver l) l) ->
  In ci (rangeOver (customIdentifiers plugin)) <-> configured plugin ci.
Proof.
  intros Hperm. rewrite <- (proj2 (customIdentifiers_spec plugin) ci). split.
  - apply Permutation_in, Hperm.
  - apply Permutation_in, Permutation_sym, Hperm.
Qed.

Lemma rev_visits_all (l : list string) : Permutation (rev l) l.
Proof. apply Permutation_sym, Permutation_rev. Qed.

(** X24.  Each configured custom identifier is looked up exactly once, in
    whatever order the map of identifiers is visited: the lookups that
    [prepareCustomIdentiferHosts] adds to the trace name no identifier
    twice, and name exactly the identifiers some plugin is configured
    with. *)
Theorem plugin_identifiers_looked_up_once (plugin : Plugin) (api : API)
    (rangeOver : list string -> list string) (history : list hostEvent) :
  (forall l, Permutation (rangeOver l) l) ->
  exists added,
    snd (prepareCustomIdentiferHosts plugin api rangeOver history)
    = history ++ added
    /\ NoDup (lookedUp added)
    /\ forall ci, In ci (lookedUp added) <-> configured plugin ci.
Proof.
  intros Hperm. unfold prepareCustomIdentiferHosts.
  destruct (findHosts_spec api (rangeOver (customIdentifiers plugin))
              ([], history) (rangeOver_NoDup plugin rangeOver Hperm))
    as (added & Htr & Hlook & _).
  exists added. split; [exact Htr |]. rewrite Hlook.
  split; [exact (rangeOver_NoDup plugin rangeOver Hperm) |].
  intros ci. exact (rangeOver_In plugin rangeOver ci Hperm).
Qed.

Lemma plugin_identifiers_looked_up_once_witness :
  exists added,
    snd (prepareCustomIdentiferHosts plugin_rds api_rds (@rev string) [])
    = [] ++ added
    /\ NoDup (lookedUp added)
    /\ forall ci, In ci (lookedUp added) <-> configured plugin_rds ci.
Proof.
  exact (plugin_identifiers_looked_up_once plugin_rds api_rds (@rev string) []
           rev_visits_all).
Defined.

(** X25.  The map of plugin hosts holds what the service answered: after
    [prepareCustomIdentiferHosts] an identifier resolves to a host exactly
    when its lookup succeeded with that host; an identifier whose lookup
    failed resolves to nothing. *)
Theorem plugin_host_is_the_one_answered (plugin : Plugin) (api : API)
    (rangeOver : list string -> list string) (history : list hostEvent) :
  (forall l, Permutation (rangeOver l) l) ->
  exists added,
    snd (prepareCustomIdentiferHosts plugin api rangeOver history)
    = history ++ added
    /\ forall ci h,
         lookupHost (fst (prepareCustomIdentiferHosts plugin api rangeOver history))
           ci = Some h
         <-> In (CallFindHostByCustomIdentifier ci (inl h)) added.
Proof.
  intros Hperm. unfold prepareCustomIdentiferHosts.
  destruct (findHosts_spec api (rangeOver (customIdentifiers plugin))
              ([], history) (rangeOver_NoDup plugin rangeOver Hperm))
    as (added & Htr & _ & Hmap).
  exists added. split; [exact Htr |].
  intros ci h. rewrite Hmap. cbn [fst lookupHost]. split.
  - intros [H | [_ H]]; [exact H | discriminate H].
  - intros H. now left.
Qed.

Lemma plugin_host_is_the_one_answered_witness :
  exists added,
    snd (prepareCustomIdentiferHosts plugin_rds api_rds (@rev string) [])
    = [] ++ added
    /\ forall ci h,
         lookupHost
           (fst (prepareCustomIdentiferHosts plugin_rds api_rds (@rev string) []))
           ci = Some h
         <-> In (CallFindHostByCustomIdentifier ci (inl h)) added.
Proof.
  exact (plugin_host_is_the_one_answered plugin_rds api_rds (@rev string) []
           rev_visits_all).
Defined.

(** X26.  Startup and ingestion together: in a context that [Prepare]
    returned, the ID of the agent's host has been saved, and every sample
    that [enqueue] puts in a batch is filed under the agent's host or under
    a host that the service named for an identifier some plugin is
    configured with. *)
Theorem samples_filed_under_known_hosts (conf : Config) (store : HostIDStorage)
    (collected : hostSpecs + error) (plugin : Plugin) (newAPI : API + error)
    (rangeOver : list string -> list string) (c : Context) :
  (forall l, Permutation (rangeOver l) l) ->
  fst (Prepare conf store collected plugin newAPI rangeOver) = inl c ->
  In (CallSaveHostID (ID (ctxHost c)) None)
     (snd (Prepare conf store collected plugin newAPI rangeOver))
  /\ forall result v,
       In v (values (fst (enqueue c result))) ->
       HostID v = ID (ctxHost c)
       \/ exists ci h,
            In (CallFindHostByCustomIdentifier ci (inl h))
               (snd (Prepare conf store collected plugin newAPI rangeOver))
            /\ configured plugin ci /\ HostID v = ID h.
Proof.
  intros Hperm. unfold Prepare.
  destruct newAPI as [api | e]; [| discriminate].
  destruct (prepareHost conf store collected api) as [[h | e] tr0] eqn:Hhost;
    [| discriminate].
  unfold prepareCustomIdentiferHosts.
  destruct (findHosts_spec api (rangeOver (customIdentifiers plugin))
              ([], tr0) (rangeOver_NoDup plugin rangeOver Hperm))
    as (added & Htr & Hlook & Hmap).
  destruct (findHosts api (rangeOver (customIdentifiers plugin)) ([], tr0))
    as [hosts tr1].
  cbn [fst snd] in *. intros Hc. injection Hc as <-. cbn [ctxHost]. subst tr1.
  split.
  - apply in_or_app. left.
    destruct collected as [sp | e]; [| discriminate Hhost].
    destruct (prepareHost_shape conf store sp api)
      as (lookup & create & find & update & save & Hshape & _ & _ & _ & _ & Hs).
    rewrite Hhost in Hshape, Hs. cbn [fst snd] in Hshape, Hs. subst tr0.
    destruct Hs as [[_ [e He]] | (h' & r & -> & Hr)]; [discriminate He |].
    destruct r as [e |]; [destruct Hr as [e' He']; discriminate He' |].
    injection Hr as ->. rewrite !in_app_iff. do 4 right. now left.
  - intros result v. rewrite enqueue_eq. cbn [fst values].
    intros Hin. apply in_flat_map in Hin. destruct Hin as (vs & _ & Hin).
    unfold samplesOf, resolveHostID in Hin.
    cbn [ctxHost CustomIdentifierHosts] in Hin.
    destruct (CustomIdentifier vs) as [ci |].
    + destruct (lookupHost hosts ci) as [host |] eqn:Hfound; [| destruct Hin].
      apply in_map_iff in Hin. destruct Hin as (nv & <- & _).
      right. exists ci, host. cbn [HostID].
      apply Hmap in Hfound. cbn [lookupHost] in Hfound.
      destruct Hfound as [Hcall | [_ H]]; [| discriminate H].
      split; [apply in_or_app; now right |]. split; [| reflexivity].
      apply (rangeOver_In plugin rangeOver ci Hperm). rewrite <- Hlook.
      exact (lookedUp_In _ _ _ Hcall).
    + apply in_map_iff in Hin. destruct Hin as (nv & <- & _). now left.
Qed.

Lemma samples_filed_under_known_hosts_witness :
  In (CallSaveHostID (ID (ctxHost ctx_ci)) None)
     (snd (Prepare conf60 store_abc (inl specs_plain) plugin_rds (inl api_rds)
             (@rev string)))
  /\ forall result v,
       In v (values (fst (enqueue ctx_ci result))) ->
       HostID v = ID (ctxHost ctx_ci)
       \/ exists ci h,
            In (CallFindHostByCustomIdentifier ci (inl h))
               (snd (Prepare conf60 store_abc (inl specs_plain) plugin_rds
                       (inl api_rds) (@rev string)))
            /\ configured plugin_rds ci /\ HostID v = ID h.
Proof.
  exact (samples_filed_under_known_hosts conf60 store_abc (inl specs_plain)
           plugin_rds (inl api_rds) (@rev string) ctx_ci rev_visits_all eq_refl).
Defined.

(** ** The filesystem generator *)

Lemma string_length_append (a b : string) :
  String.length (a ++ b)%string = (String.length a + String.length b)%nat.
Proof. induction a as [| c a IH]; cbn; [reflexivity | now rewrite IH]. Qed.

Lemma append_inv_head (p x y : string) :
  (p ++ x)%string = (p ++ y)%string -> x = y.
Proof.
  induction p as [| c p IH]; cbn; intros H; [exact H |].
  injection H as H. now apply IH.
Qed.

Lemma append_inv_tail (a b s t : string) :
  String.length s = String.length t ->
  (a ++ s)%string = (b ++ t)%string -> a = b /\ s = t.
Proof.
  revert b. induction a as [| c a IH]; intros [| d b] Hlen H; cbn in H.
  - now split.
  - exfalso. apply (f_equal String.length) in H. cbn in H.
    rewrite string_length_append in H. lia.
  - exfalso. apply (f_equal String.length) in H. cbn in H.
    rewrite string_length_append in H. lia.
  - injection H as -> H. destruct (IH b Hlen H) as [-> ->]. now split.
Qed.

Lemma sizeKey_inj (d d' : string) : sizeKey d = sizeKey d' -> d = d'.
Proof.
  unfold sizeKey. intros H. apply append_inv_head in H.
  now apply append_inv_tail in H.
Qed.

Lemma usedKey_inj (d d' : string) : usedKey d = usedKey d' -> d = d'.
Proof.
  unfold usedKey. intros H. apply append_inv_head in H.
  now apply append_inv_tail in H.
Qed.

Lemma sizeKey_usedKey (d d' : string) : sizeKey d <> usedKey d'.
Proof.
  unfold sizeKey, usedKey. intros H. apply append_inv_head in H.
  apply append_inv_tail in H; [| reflexivity]. destruct H as [_ H].
  discriminate H.
Qed.

Lemma getValue_filter (m : metrics.Values) (k k' : string) :
  k <> k' ->
  metrics.getValue (filter (fun kv => negb (String.eqb (fst kv) k)) m) k'
  = metrics.getValue m k'.
Proof.
  intros Hne. induction m as [| [k0 v0] m IH]; [reflexivity |].
  cbn [filter fst]. destruct (String.eqb k0 k) eqn:Hk0; cbn [negb].
  - apply String.eqb_eq in Hk0. subst k0. cbn [metrics.getValue].
    apply String.eqb_neq in Hne. now rewrite Hne.
  - cbn [metrics.getValue]. now rewrite IH.
Qed.

Lemma getValue_setValue (m : metrics.Values) (k k' : string) (v : spec_float) :
  metrics.getValue (metrics.setValue m k v) k'
  = if String.eqb k k' then Some v else metrics.getValue m k'.
Proof.
  unfold metrics.setValue. cbn [metrics.getValue].
  destruct (String.eqb k k') eqn:Hk; [reflexivity |].
  apply String.eqb_neq in Hk. now apply getValue_filter.
Qed.

Lemma cutPrefix_Some (s prefix rest : string) :
  metrics.cutPrefix s prefix = Some rest -> s = (prefix ++ rest)%string.
Proof.
  revert s. induction prefix as [| p prefix IH]; intros s H.
  - destruct s; cbn in H; injection H as <-; reflexivity.
  - destruct s as [| c s]; cbn in H; [discriminate H |].
    destruct (Ascii.eqb c p) eqn:Hc; [| discriminate H].
    apply Ascii.eqb_eq in Hc. subst c. cbn. now rewrite <- (IH s H).
Qed.

(** [name != device] after [TrimPrefix] says that the prefix was there. *)
Lemma trimmed_iff_prefix (name : string) :
  negb (String.eqb name (metrics.TrimPrefix name "/dev/"))
  = metrics.HasPrefix name "/dev/".
Proof.
  unfold metrics.TrimPrefix, metrics.HasPrefix.
  destruct (metrics.cutPrefix name "/dev/") as [rest |] eqn:Hcut.
  - apply cutPrefix_Some in Hcut.
    destruct (String.eqb name rest) eqn:Heq; [| reflexivity].
    apply String.eqb_eq in Heq. subst rest.
    apply (f_equal String.length) in Hcut.
    rewrite string_length_append in Hcut. cbn in Hcut. lia.
  - now rewrite String.eqb_refl.
Qed.

Lemma generateOne_reported (g : metrics.FilesystemGenerator)
    (ret : metrics.Values) (dfs : metrics.DfStat) :
  reportedBy g dfs ->
  metrics.generateOne g ret dfs
  = metrics.setValue
      (metrics.setValue ret (sizeKey (deviceOf dfs))
         (bytesOf (metrics.Blocks dfs)))
      (usedKey (deviceOf dfs)) (bytesOf (metrics.Used dfs)).
Proof.
  intros (Hdev & Hdocker & Hign). unfold metrics.generateOne.
  unfold ignoredBy in Hign. rewrite Hdocker, Hign, trimmed_iff_prefix, Hdev.
  reflexivity.
Qed.

Lemma generateOne_skipped (g : metrics.FilesystemGenerator)
    (ret : metrics.Values) (dfs : metrics.DfStat) :
  ~ reportedBy g dfs -> metrics.generateOne g ret dfs = ret.
Proof.
  intros Hnot. unfold metrics.generateOne. fold (ignoredBy g (metrics.DfName dfs)).
  rewrite trimmed_iff_prefix.
  destruct (metrics.HasPrefix (metrics.DfName dfs) "/dev/mapper/docker-") eqn:Hd;
    [reflexivity |].
  destruct (ignoredBy g (metrics.DfName dfs)) eqn:Hi; [reflexivity |].
  destruct (metrics.HasPrefix (metrics.DfName dfs) "/dev/") eqn:Hp;
    [| reflexivity].
  exfalso. apply Hnot. now repeat split.
Qed.

Lemma reportedBy_dec (g : metrics.FilesystemGenerator) (dfs : metrics.DfStat) :
  reportedBy g dfs \/ ~ reportedBy g dfs.
Proof.
  unfold reportedBy.
  destruct (metrics.HasPrefix (metrics.DfName dfs) "/dev/");
    destruct (metrics.HasPrefix (metrics.DfName dfs) "/dev/mapper/docker-");
    destruct (ignoredBy g (metrics.DfName dfs));
    try (left; now repeat split);
    right; intros (H1 & H2 & H3); discriminate.
Qed.

(** The keys of the map after the loop over some lines of df. *)
Lemma generate_keys (g : metrics.FilesystemGenerator)
    (filesystems : list metrics.DfStat) :
  forall ret k,
    metrics.getValue (fold_left (metrics.generateOne g) filesystems ret) k <> None
    <-> metrics.getValue ret k <> None
        \/ exists dfs, In dfs filesystems /\ reportedBy g dfs
                       /\ (k = sizeKey (deviceOf dfs) \/ k = usedKey (deviceOf dfs)).
Proof.
  induction filesystems as [| dfs l IH]; intros ret k; cbn [fold_left].
  - split; [now left | intros [H | (dfs & [] & _)]; exact H].
  - rewrite IH. destruct (reportedBy_dec g dfs) as [Hrep | Hnot].
    + rewrite (generateOne_reported g ret dfs Hrep), !getValue_setValue.
      destruct (String.eqb (usedKey (deviceOf dfs)) k) eqn:Hu.
      * apply String.eqb_eq in Hu. split; [| intros _; left; discriminate].
        intros _. right. exists dfs. split; [now left | split; [exact Hrep |]].
        now right.
      * destruct (String.eqb (sizeKey (deviceOf dfs)) k) eqn:Hs.
        -- apply String.eqb_eq in Hs. split; [| intros _; left; discriminate].
           intros _. right. exists dfs. split; [now left | split; [exact Hrep |]].
           now left.
        -- apply String.eqb_neq in Hu, Hs. split.
           ++ intros [H | (dfs' & Hin & Hrep' & Hk)]; [now left |].
              right. exists dfs'. split; [now right | now split].
           ++ intros [H | (dfs' & [<- | Hin] & Hrep' & Hk)]; [now left | |].
              ** destruct Hk as [-> | ->]; congruence.
              ** right. exists dfs'. split; [exact Hin | now split].
    + rewrite (generateOne_skipped g ret dfs Hnot). split.
      * intros [H | (dfs' & Hin & Hrep' & Hk)]; [now left |].
        right. exists dfs'. split; [now right | now split].
      * intros [H | (dfs' & [<- | Hin] & Hrep' & Hk)];
          [now left | contradiction |].
        right. exists dfs'. split; [exact Hin | now split].
Qed.

(** Lines reported under other devices leave a device's entries alone. *)
Lemma generate_keeps (g : metrics.FilesystemGenerator) (device : string)
    (after : list metrics.DfStat) :
  (forall dfs, In dfs after -> reportedBy g dfs -> deviceOf dfs <> device) ->
  forall ret,
    metrics.getValue (fold_left (metrics.generateOne g) after ret) (sizeKey device)
    = metrics.getValue ret (sizeKey device)
    /\ metrics.getValue (fold_left (metrics.generateOne g) after ret) (usedKey device)
       = metrics.getValue ret (usedKey device).
Proof.
  induction after as [| dfs l IH]; intros Hother ret; cbn [fold_left];
    [now split |].
  destruct (IH (fun d Hin => Hother d (or_intror Hin))
               (metrics.generateOne g ret dfs)) as [Hs Hu].
  rewrite Hs, Hu. destruct (reportedBy_dec g dfs) as [Hrep | Hnot].
  - assert (Hne := Hother dfs (or_introl eq_refl) Hrep).
    rewrite (generateOne_reported g ret dfs Hrep), !getValue_setValue.
    assert (H1 : String.eqb (usedKey (deviceOf dfs)) (sizeKey device) = false).
    { apply String.eqb_neq. intros H. symmetry in H.
      exact (sizeKey_usedKey _ _ H). }
    assert (H2 : String.eqb (sizeKey (deviceOf dfs)) (sizeKey device) = false).
    { apply String.eqb_neq. intros H. now apply sizeKey_inj in H. }
    assert (H3 : String.eqb (usedKey (deviceOf dfs)) (usedKey device) = false).
    { apply String.eqb_neq. intros H. now apply usedKey_inj in H. }
    assert (H4 : String.eqb (sizeKey (deviceOf dfs)) (usedKey device) = false).
    { apply String.eqb_neq. exact (sizeKey_usedKey _ _). }
    now rewrite H1, H2, H3, H4.
  - now rewrite (generateOne_skipped g ret dfs Hnot).
Qed.

Lemma replaceAll_safe (s : string) :
  forall skip, allSafe (metrics.replaceAll s skip) = true.
Proof.
  induction s as [| c s IH]; intros skip; cbn [metrics.replaceAll];
    [reflexivity |].
  destruct skip as [| k]; [| apply IH].
  destruct (metrics.safe c) eqn:Hc; cbn [allSafe].
  - now rewrite Hc, IH.
  - now rewrite IH.
Qed.

Lemma replaceAll_length (s : string) :
  forall skip, (String.length (metrics.replaceAll s skip) <= String.length s)%nat.
Proof.
  induction s as [| c s IH]; intros skip; cbn [metrics.replaceAll String.length];
    [lia |].
  destruct skip as [| k]; [| specialize (IH k); lia].
  destruct (metrics.safe c); cbn [String.length].
  - specialize (IH 0%nat). lia.
  - specialize (IH (metrics.runeWidth (String c s) - 1)%nat). lia.
Qed.

Lemma replaceAll_clean (s : string) :
  allSafe s = true -> metrics.replaceAll s 0 = s.
Proof.
  induction s as [| c s IH]; cbn [allSafe metrics.replaceAll]; [reflexivity |].
  intros H. apply andb_prop in H. destruct H as [Hc Hs].
  now rewrite Hc, (IH Hs).
Qed.

(** X27.  Which filesystem metrics there are: [Generate] reports a key
    exactly when it is the size or the used key of a line of df whose name
    starts with /dev/, is not a docker device-mapper volume and is not
    matched by the ignore pattern; all other lines leave no trace, and a
    size key is there exactly when the used key of the same device is. *)
Theorem filesystem_keys (g : metrics.FilesystemGenerator)
    (filesystems : list metrics.DfStat) :
  exists ret,
    metrics.Generate g (inl filesystems) = inl ret
    /\ (forall k,
          metrics.getValue ret k <> None
          <-> exists dfs, In dfs filesystems /\ reportedBy g dfs
                /\ (k = sizeKey (deviceOf dfs) \/ k = usedKey (deviceOf dfs)))
    /\ forall device,
         metrics.getValue ret (sizeKey device) <> None
         <-> metrics.getValue ret (usedKey device) <> None.
Proof.
  eexists. split; [reflexivity |].
  assert (Hkeys := fun k => generate_keys g filesystems [] k).
  assert (Hk : forall k,
            metrics.getValue (fold_left (metrics.generateOne g) filesystems []) k
            <> None
            <-> exists dfs, In dfs filesystems /\ reportedBy g dfs
                  /\ (k = sizeKey (deviceOf dfs) \/ k = usedKey (deviceOf dfs))).
  { intros k. rewrite Hkeys. cbn [metrics.getValue]. split.
    - intros [H | H]; [congruence | exact H].
    - intros H. now right. }
  split; [exact Hk |].
  intros device. rewrite !Hk. split.
  - intros (dfs & Hin & Hrep & [H | H]).
    + apply sizeKey_inj in H. subst device. exists dfs.
      split; [exact Hin | split; [exact Hrep | now right]].
    + now apply sizeKey_usedKey in H.
  - intros (dfs & Hin & Hrep & [H | H]).
    + symmetry in H. now apply sizeKey_usedKey in H.
    + apply usedKey_inj in H. subst device. exists dfs.
      split; [exact Hin | split; [exact Hrep | now left]].
Qed.

(** X28.  The last line wins: of the reported lines of df that come out
    under one device name (names that differ only in replaced characters
    collide), the map holds the numbers of the last, each count of kilobytes
    converted to [float64] and multiplied by 1024. *)
Theorem last_filesystem_wins (g : metrics.FilesystemGenerator)
    (before after : list metrics.DfStat) (dfs : metrics.DfStat) :
  reportedBy g dfs ->
  (forall later, In later after -> reportedBy g later ->
                 deviceOf later <> deviceOf dfs) ->
  exists ret,
    metrics.Generate g (inl (before ++ dfs :: after)) = inl ret
    /\ metrics.getValue ret (sizeKey (deviceOf dfs))
       = Some (bytesOf (metrics.Blocks dfs))
    /\ metrics.getValue ret (usedKey (deviceOf dfs))
       = Some (bytesOf (metrics.Used dfs)).
Proof.
  intros Hrep Hlater. eexists. split; [reflexivity |].
  rewrite fold_left_app. cbn [fold_left].
  destruct (generate_keeps g (deviceOf dfs) after Hlater
              (metrics.generateOne g
                 (fold_left (metrics.generateOne g) before []) dfs))
    as [Hs Hu].
  rewrite Hs, Hu, (generateOne_reported g _ dfs Hrep), !getValue_setValue.
  rewrite !String.eqb_refl.
  destruct (String.eqb (usedKey (deviceOf dfs)) (sizeKey (deviceOf dfs))) eqn:H;
    [| now split].
  apply String.eqb_eq in H. symmetry in H. now apply sizeKey_usedKey in H.
Qed.

Lemma last_filesystem_wins_witness :
  exists ret,
    metrics.Generate gen_no_loop
      (inl (firstn 4 df_lines
            ++ metrics.mkDfStat "/dev/mapper/vg0.data" 2000 1
               :: [metrics.mkDfStat "/dev/mapper/vg0-data" 3000 2]))
    = inl ret
    /\ metrics.getValue ret (sizeKey "mapper_vg0_data") = Some (bytesOf 2000)
    /\ metrics.getValue ret (usedKey "mapper_vg0_data") = Some (bytesOf 1).
Proof.
  apply (last_filesystem_wins gen_no_loop (firstn 4 df_lines)
           [metrics.mkDfStat "/dev/mapper/vg0-data" 3000 2]
           (metrics.mkDfStat "/dev/mapper/vg0.data" 2000 1)).
  - repeat split; reflexivity.
  - intros later [<- | []] _. vm_compute. discriminate.
Defined.

(** X29.  Device names are made safe for a metric name: what [sanitize]
    returns holds only letters, digits, underscore and hyphen, is no longer
    than its input, and is left as it is by a second pass. *)
Theorem sanitize_makes_clean (s : string) :
  allSafe (metrics.sanitize s) = true
  /\ (String.length (metrics.sanitize s) <= String.length s)%nat
  /\ metrics.sanitize (metrics.sanitize s) = metrics.sanitize s.
Proof.
  unfold metrics.sanitize. split; [apply replaceAll_safe |].
  split; [apply replaceAll_length |].
  apply replaceAll_clean, replaceAll_safe.
Qed.

(** * The retry policy of prepareHost *)

Lemma isKind_iff (k : callKind) (ev : hostEvent) :
  isKind k ev = true <-> kindOf ev = Some k.
Proof.
  unfold isKind. destruct (kindOf ev) as [[] |]; destruct k;
    split; intros H; try reflexivity; discriminate H.
Qed.

Lemma callsOfKind_cons (k : callKind) (ev : hostEvent) (tr : list hostEvent) :
  callsOfKind k (ev :: tr)
  = ((if isKind k ev then 1 else 0) + callsOfKind k tr)%nat.
Proof. unfold callsOfKind. cbn [filter]. now destruct (isKind k ev). Qed.

Lemma callsOfKind_app (k : callKind) (a b : list hostEvent) :
  callsOfKind k (a ++ b) = (callsOfKind k a + callsOfKind k b)%nat.
Proof. unfold callsOfKind. now rewrite filter_app, length_app. Qed.

Lemma callsOfKind_none (k : callKind) (tr : list hostEvent) :
  ~ called k tr -> callsOfKind k tr = 0%nat.
Proof.
  induction tr as [| ev tr IH]; intros Hnot; [reflexivity |].
  rewrite callsOfKind_cons. destruct (isKind k ev) eqn:Hk.
  - exfalso. apply Hnot. exists ev. split; [now left | now apply isKind_iff].
  - apply IH. intros (ev' & Hin & Hk'). apply Hnot. exists ev'.
    split; [now right | exact Hk'].
Qed.

Lemma called_app (k : callKind) (a b : list hostEvent) :
  called k a \/ called k b -> called k (a ++ b).
Proof.
  intros [(ev & Hin & Hk) | (ev & Hin & Hk)]; exists ev;
    (split; [apply in_or_app; auto | exact Hk]).
Qed.

Lemma notSleeping_app (a b : list hostEvent) :
  notSleeping a -> notSleeping b -> notSleeping (a ++ b).
Proof. destruct a as [| x a]; intros Ha Hb; [exact Hb | exact Ha]. Qed.

Lemma split_app {A} (l1 l2 before after : list A) (x : A) :
  l1 ++ l2 = before ++ x :: after ->
  (exists a1, l1 = before ++ x :: a1 /\ after = a1 ++ l2)
  \/ (exists b2, before = l1 ++ b2 /\ l2 = b2 ++ x :: after).
Proof.
  revert before. induction l1 as [| y l1 IH]; intros before H.
  - right. now exists before.
  - destruct before as [| z before]; cbn in H.
    + injection H as -> H. left. now exists l1.
    + injection H as -> H. destruct (IH before H) as [(a1 & -> & ->) | (b2 & -> & ->)].
      * left. now exists a1.
      * right. now exists b2.
Qed.

Section Retried.

Variable op : operation.
Variable i : Z.

Lemma retriedRun_head (n : nat) (seg : list hostEvent) :
  retriedRun op i (S n) seg ->
  exists call rest, seg = call :: rest /\ kindOf call = Some (kind op).
Proof. inversion 1; subst; eauto. Qed.

Lemma retriedRun_called (n : nat) (seg : list hostEvent) (k : callKind) :
  retriedRun op i n seg -> called k seg -> k = kind op.
Proof.
  induction 1 as [| n call Hfit Hk Hc | n call e Hfit Hk Hc He
                  | call e Hfit Hk Hc He | n call e rest Hfit Hk Hc He Hrest IH];
    intros (ev & Hin & Hev); cbn [In] in Hin.
  - destruct Hin.
  - destruct Hin as [<- | []]. congruence.
  - destruct Hin as [<- | [<- | []]]; [congruence | discriminate Hev].
  - destruct Hin as [<- | [<- | []]]; [congruence | discriminate Hev].
  - destruct Hin as [<- | [<- | [<- | Hin]]];
      [congruence | discriminate Hev | discriminate Hev |].
    apply IH. now exists ev.
Qed.

Lemma retriedRun_calls (n : nat) (seg : list hostEvent) (k : callKind) :
  retriedRun op i n seg -> (callsOfKind k seg <= n)%nat.
Proof.
  induction 1 as [| n call Hfit Hk Hc | n call e Hfit Hk Hc He
                  | call e Hfit Hk Hc He | n call e rest Hfit Hk Hc He Hrest IH];
    rewrite ?callsOfKind_cons; cbn [callsOfKind filter Datatypes.length];
    try (change (isKind k (Warningf (Error e))) with false);
    try (change (isKind k (Sleep i)) with false);
    try destruct (isKind k call); cbn [Nat.add]; lia.
Qed.

Lemma retriedRun_notSleeping (n : nat) (seg : list hostEvent) :
  retriedRun op i n seg -> notSleeping seg.
Proof.
  inversion 1 as [| n' call Hfit Hk Hc | n' call e Hfit Hk Hc He
                  | call e Hfit Hk Hc He | n' call e rest Hfit Hk Hc He Hrest];
    subst; cbn; try exact I; destruct call; try exact I; discriminate Hk.
Qed.

Lemma retriedRun_policyFrom (n : nat) (seg : list hostEvent) :
  retriedRun op i n seg -> i = spacing (kind op) ->
  forall used, (used + n)%nat = attempts (kind op) -> policyFrom used seg.
Proof.
  induction 1 as [| n call Hfit Hk Hc | n call e Hfit Hk Hc He
                  | call e Hfit Hk Hc He | n call e rest Hfit Hk Hc He Hrest IH];
    intros Hi used Hn before c after k r Hsplit Hkc Hcc.
  - destruct before; discriminate Hsplit.
  - destruct before as [| x before]; cbn in Hsplit.
    + injection Hsplit as <- <-. rewrite Hc in Hcc. injection Hcc as <-.
      apply called_nil.
    + injection Hsplit as _ Hsplit. destruct before; discriminate Hsplit.
  - destruct before as [| x before]; cbn in Hsplit.
    + injection Hsplit as <- <-. rewrite Hc in Hcc. injection Hcc as <-.
      rewrite He. cbn [orb]. exists []. split; [reflexivity |].
      split; [apply called_nil | exact I].
    + injection Hsplit as _ Hsplit. destruct before as [| y before]; cbn in Hsplit.
      * injection Hsplit as <- _. discriminate Hkc.
      * injection Hsplit as _ Hsplit. destruct before; discriminate Hsplit.
  - destruct before as [| x before]; cbn in Hsplit.
    + injection Hsplit as <- <-. rewrite Hc in Hcc. injection Hcc as <-.
      rewrite Hk in Hkc. injection Hkc as <-.
      rewrite He. cbn [orb callsOfKind filter Datatypes.length].
      replace (attempts (kind op) <=? S (used + 0))%nat with true
        by (symmetry; apply Nat.leb_le; lia).
      exists []. split; [reflexivity |]. split; [apply called_nil | exact I].
    + injection Hsplit as _ Hsplit. destruct before as [| y before]; cbn in Hsplit.
      * injection Hsplit as <- _. discriminate Hkc.
      * injection Hsplit as _ Hsplit. destruct before; discriminate Hsplit.
  - destruct before as [| x before]; cbn in Hsplit.
    + injection Hsplit as <- <-. rewrite Hc in Hcc. injection Hcc as <-.
      rewrite Hk in Hkc. injection Hkc as <-.
      rewrite He. cbn [orb callsOfKind filter Datatypes.length].
      replace (attempts (kind op) <=? S (used + 0))%nat with false
        by (symmetry; apply Nat.leb_gt; lia).
      destruct (retriedRun_head n rest Hrest) as (next & rest' & -> & Hnext).
      exists next, rest'. now rewrite Hi.
    + injection Hsplit as <- Hsplit. destruct before as [| y before]; cbn in Hsplit.
      { injection Hsplit as <- _. discriminate Hkc. }
      injection Hsplit as <- Hsplit. destruct before as [| z before]; cbn in Hsplit.
      { injection Hsplit as <- _. discriminate Hkc. }
      injection Hsplit as <- Hsplit.
      assert (Hkk : k = kind op).
      { apply (retriedRun_called (S n) rest k Hrest). exists c.
        split; [rewrite Hsplit; apply in_or_app; right; now left | exact Hkc]. }
      subst k.
      specialize (IH Hi (S used) ltac:(lia) before c after (kind op) r Hsplit Hkc Hcc).
      rewrite !callsOfKind_cons.
      change (isKind (kind op) (Warningf (Error e))) with false.
      change (isKind (kind op) (Sleep i)) with false.
      rewrite (proj2 (isKind_iff (kind op) call) Hk). cbn [Nat.add] in *.
      replace (used + S (callsOfKind (kind op) before))%nat
        with (S (used + callsOfKind (kind op) before)) by lia.
      exact IH.
Qed.

End Retried.

Lemma part_policy (op : operation) (seg : list hostEvent) :
  part op seg -> policyFrom 0 seg.
Proof.
  intros [-> | Hrun].
  - intros before c after k r Hsplit. destruct before; discriminate Hsplit.
  - exact (retriedRun_policyFrom op _ _ seg Hrun eq_refl 0%nat eq_refl).
Qed.

Lemma part_notSleeping (op : operation) (seg : list hostEvent) :
  part op seg -> notSleeping seg.
Proof. intros [-> | Hrun]; [exact I | exact (retriedRun_notSleeping _ _ _ _ Hrun)]. Qed.

Lemma part_kind (op : operation) (seg : list hostEvent) (k : callKind) :
  part op seg -> called k seg -> k = kind op.
Proof.
  intros [-> | Hrun] H; [now apply called_nil in H |].
  exact (retriedRun_called _ _ _ _ k Hrun H).
Qed.

Lemma part_calls (op : operation) (seg : list hostEvent) (k : callKind) :
  part op seg ->
  (callsOfKind k seg <= attempts (kind op))%nat
  /\ (k <> kind op -> callsOfKind k seg = 0%nat).
Proof.
  intros Hpart. split.
  - destruct Hpart as [-> | Hrun]; [cbn; lia |].
    exact (retriedRun_calls _ _ _ _ k Hrun).
  - intros Hne. apply callsOfKind_none. intros H.
    now apply Hne, (part_kind op seg).
Qed.

Lemma policy_app (l1 l2 : list hostEvent) :
  policyFrom 0 l1 -> policyFrom 0 l2 ->
  (forall k, called k l1 -> ~ called k l2) -> notSleeping l2 ->
  policyFrom 0 (l1 ++ l2).
Proof.
  intros P1 P2 Hdisj Hns before c after k r Hsplit Hk Hc.
  assert (Hext : forall e a1, stopsAfter k e a1 -> ~ called k l2 ->
                              stopsAfter k e (a1 ++ l2)).
  { intros e a1 (rest & -> & Hno & Hsl) Hno2. exists (rest ++ l2).
    split; [reflexivity | split].
    - intros H. apply called_app_inv in H. tauto.
    - now apply notSleeping_app. }
  destruct (split_app l1 l2 before after c Hsplit)
    as [(a1 & H1 & ->) | (b2 & -> & H2)].
  - assert (Hno2 : ~ called k l2).
    { apply Hdisj. exists c. split; [| exact Hk].
      rewrite H1. apply in_or_app. right. now left. }
    specialize (P1 before c a1 k r H1 Hk Hc). destruct r as [e |].
    + destruct (isClientError e || (attempts k <=? S (0 + callsOfKind k before))%nat).
      * now apply Hext.
      * destruct P1 as (next & rest & -> & Hnext).
        exists next, (rest ++ l2). now split.
    + intros H. apply called_app_inv in H. tauto.
  - assert (Hno1 : ~ called k l1).
    { intros H. apply (Hdisj k H). exists c. split; [| exact Hk].
      rewrite H2. apply in_or_app. right. now left. }
    specialize (P2 b2 c after k r H2 Hk Hc).
    rewrite callsOfKind_app, (callsOfKind_none k l1 Hno1). exact P2.
Qed.

Section RetryRuns.

Variable api : API.
Variable op : operation.

(** What [retry.Retry] with [n] attempts adds to the trace; if it ends
    without error, a call succeeded. *)
Lemma Retry_retried (i : Z) (n : nat) :
  forall s,
    exists more,
      events (snd (Retry n i (attempt api op) s)) = events s ++ more
      /\ retriedRun op i n more
      /\ (n <> 0%nat -> lastErr (snd (Retry n i (attempt api op) s)) = None ->
          succeeded (kind op) more).
Proof.
  induction n as [| n IH]; intros s.
  - exists []. cbn [Retry snd]. rewrite app_nil_r.
    split; [reflexivity | split; [constructor | congruence]].
  - destruct (attempt_event api op s) as (call & Hfit & Hk & Hc & He).
    destruct (attempt_spec api op s) as (Hf & Hl & _).
    destruct (answer api op s) as [e |] eqn:Hans.
    + destruct (isClientError e) eqn:Hcl.
      * rewrite (Retry_stops api op s n i Hf). cbn [snd].
        eexists. split; [exact He | split; [now constructor |]].
        intros _ Hnone. congruence.
      * destruct n as [| n'].
        -- rewrite (proj2 (Retry_goes_on api op s 0 i e Hf)). cbn [snd].
           eexists. split; [exact He | split; [now constructor |]].
           intros _ Hnone. congruence.
        -- rewrite (proj1 (Retry_goes_on api op s n' i e Hf)).
           destruct (IH (emit (Sleep i) (snd (attempt api op s))))
             as (more & Hm & Hrun & Hok).
           exists (call :: Warningf (Error e) :: Sleep i :: more).
           split; [| split].
           ++ rewrite Hm. cbn [events emit]. rewrite He, <- !app_assoc.
              reflexivity.
           ++ now constructor.
           ++ intros _ Hnone.
              destruct (Hok ltac:(discriminate) Hnone) as (ev & Hin & Hev).
              exists ev. split; [now do 3 right | exact Hev].
    + rewrite (Retry_stops api op s n i Hf). cbn [snd].
      eexists. split; [exact He | split; [now constructor |]].
      intros _ _. exists call. split; [now left | now split].
Qed.

End RetryRuns.

Lemma doRetry_part (api : API) (op : operation) (s : vars) :
  kind op <> kFindHostByCustomIdentifier ->
  exists more,
    events (doRetry (attempt api op) s) = events s ++ more
    /\ retriedRun op (spacing (kind op)) (attempts (kind op)) more.
Proof.
  intros Hop.
  destruct (Retry_retried api op retryInterval retryNum s) as (more & Hev & Hrun & _).
  exists more. split; [exact Hev |].
  destruct op; cbn [kind spacing attempts] in *; [congruence | | |]; exact Hrun.
Qed.

Lemma setStatusAndSave_runs (conf : Config) (store : HostIDStorage) (api : API)
    (s : vars) :
  result s <> None ->
  exists update save,
    snd (setStatusAndSave conf store api s) = events s ++ update ++ save
    /\ (exists id, part (opUpdateHostStatus id (OnStart conf)) update)
    /\ (forall k, ~ called k save) /\ notSleeping save.
Proof.
  intros Hres. unfold setStatusAndSave.
  destruct (result s) as [r |]; [| congruence].
  assert (Hsave : forall s', exists save,
            snd (saveHostID store r s') = events s' ++ save
            /\ (forall k, ~ called k save) /\ notSleeping save).
  { intros s'. unfold saveHostID.
    exists [CallSaveHostID (ID r) (SaveHostID store (ID r))].
    split; [destruct (SaveHostID store (ID r)); reflexivity |].
    split; [| exact I].
    intros k (ev & [<- | []] & Hk). discriminate Hk. }
  destruct (negb (OnStart conf =? "")%string
            && negb (OnStart conf =? Status r)%string).
  - destruct (doRetry_part api (opUpdateHostStatus (ID r) (OnStart conf)) s
                ltac:(discriminate)) as (update & Hev & Hrun).
    cbn [attempt] in Hev.
    destruct (lastErr (doRetry (tryUpdateHostStatus api (ID r) (OnStart conf)) s))
      as [e |].
    + exists update, []. cbn [fst snd]. rewrite app_nil_r.
      split; [exact Hev | split; [exists (ID r); now right |]].
      split; [intros k; apply called_nil | exact I].
    + destruct (Hsave (doRetry (tryUpdateHostStatus api (ID r) (OnStart conf)) s))
        as (save & Hs & Hno & Hns).
      exists update, save. rewrite Hs, Hev, <- app_assoc.
      split; [reflexivity | split; [exists (ID r); now right | now split]].
  - destruct (Hsave s) as (save & Hs & Hno & Hns).
    exists [], save. rewrite Hs.
    split; [reflexivity | split; [exists ""; now left | now split]].
Qed.

Lemma prepareHost_runs (conf : Config) (store : HostIDStorage)
    (sp : hostSpecs) (api : API) :
  registrationRuns conf sp (snd (prepareHost conf store (inl sp) api)).
Proof.
  unfold prepareHost, registrationRuns. cbv zeta.
  set (s0 := mkVars None (fst (LoadHostID store)) None []).
  assert (Hnil : forall k, ~ called k []) by (intros k; apply called_nil).
  assert (Hvac : forall create : list hostEvent,
            called kFindHostByCustomIdentifier [] ->
            ~ succeeded kFindHostByCustomIdentifier [] ->
            called kCreateHost create)
    by (intros create H; now apply called_nil in H).
  destruct (snd (LoadHostID store)) as [loadErr |].
  - (* create *)
    match goal with
    | |- context [result ?x] =>
        match x with
        | (if _ then _ else _) => set (s1 := x)
        end
    end.
    assert (H1 : exists lookup,
              events s1 = lookup
              /\ part (opFindHostByCustomIdentifier (customIdentifier sp)) lookup
              /\ (result s1 <> None ->
                  called kFindHostByCustomIdentifier lookup ->
                  succeeded kFindHostByCustomIdentifier lookup)).
    { subst s1. destruct (String.eqb_spec (customIdentifier sp) "") as [Hci | Hci];
        cbn [negb].
      - exists []. split; [reflexivity | split; [now left |]].
        intros _ H. now apply called_nil in H.
      - set (sR := snd (Retry 3 2
                     (tryFindHostByCustomIdentifier api (customIdentifier sp)) s0)).
        destruct (Retry_retried api
                    (opFindHostByCustomIdentifier (customIdentifier sp)) 2 3 s0)
          as (lookup & Hev & Hrun & Hok).
        pose proof (doRetry_resultOrError api
                      (opFindHostByCustomIdentifier (customIdentifier sp)) 2 2 s0 I)
          as Hroe.
        cbn [attempt kind] in Hev, Hok, Hroe. fold sR in Hev, Hok, Hroe.
        change (events s0) with (@nil hostEvent) in Hev. cbn [app] in Hev.
        exists lookup.
        assert (Hsame : events (match result sR with
                                | Some r => mkVars (result sR) (ID r) (lastErr sR)
                                              (events sR)
                                | None => sR
                                end) = lookup
                        /\ result (match result sR with
                                   | Some r => mkVars (result sR) (ID r) (lastErr sR)
                                                 (events sR)
                                   | None => sR
                                   end) = result sR).
        { destruct (result sR) eqn:Hres;
            (split; [exact Hev | first [reflexivity | exact Hres]]). }
        destruct Hsame as [-> ->].
        split; [reflexivity | split; [now right |]].
        intros Hsome _. apply Hok; [discriminate |].
        unfold resultOrError in Hroe.
        destruct (lastErr sR) as [e |]; [| reflexivity].
        exfalso. apply Hsome. apply Hroe. discriminate. }
    destruct H1 as (lookup & Hev1 & Hlookup & Hsome1).
    destruct (result s1) as [r1 |] eqn:Hr1.
    + destruct (setStatusAndSave_runs conf store api s1)
        as (update & save & Hev & Hu & Hno & Hns); [congruence |].
      exists lookup, [], [], update, save. rewrite Hev, Hev1. cbn [app].
      split; [reflexivity |].
      split; [exact Hlookup | split; [now left | split; [now left |]]].
      split; [exact Hu | split; [exact Hno | split; [exact Hns |]]].
      intros Hcalled Hnever. exfalso. apply Hnever, Hsome1; [discriminate | exact Hcalled].
    + destruct (doRetry_part api (opCreateHost (registeredSpec conf sp)) s1
                  ltac:(discriminate)) as (create & Hev2 & Hrun2).
      cbn [attempt] in Hev2. unfold registeredSpec in Hev2.
      assert (Hcreated : called kCreateHost create).
      { destruct (retriedRun_head _ _ _ _ Hrun2) as (call & rest & -> & Hk).
        exists call. split; [now left | exact Hk]. }
      set (s2 := doRetry (tryCreateHost api _) s1) in *.
      destruct (lastErr s2) as [e |].
      * exists lookup, create, [], [], []. cbn [fst snd]. rewrite Hev2, Hev1.
        rewrite !app_nil_r.
        split; [reflexivity |].
        split; [exact Hlookup | split; [now right | split; [now left |]]].
        split; [exists ""; now left | split; [exact Hnil | split; [exact I |]]].
        intros _ _. exact Hcreated.
      * destruct (doRetry_part api opFindHost s2 ltac:(discriminate))
          as (find & Hev3 & Hrun3).
        pose proof (doRetry_resultOrError api opFindHost 19 retryInterval s2 I)
          as Hroe.
        cbn [attempt] in Hev3, Hroe.
        change (snd (Retry 20 retryInterval (tryFindHost api) s2))
          with (doRetry (tryFindHost api) s2) in Hroe.
        destruct (lastErr (doRetry (tryFindHost api) s2)) as [e |] eqn:Hl3.
        -- exists lookup, create, find, [], []. cbn [fst snd].
           rewrite Hev3, Hev2, Hev1, !app_nil_r, <- !app_assoc.
           split; [reflexivity |].
           split; [exact Hlookup | split; [now right | split; [now right |]]].
           split; [exists ""; now left | split; [exact Hnil | split; [exact I |]]].
           intros _ _. exact Hcreated.
        -- destruct (setStatusAndSave_runs conf store api
                       (doRetry (tryFindHost api) s2))
             as (update & save & Hev & Hu & Hno & Hns).
           { unfold resultOrError in Hroe. rewrite Hl3 in Hroe.
             intros Hnil'. apply (proj1 Hroe Hnil'). reflexivity. }
           exists lookup, create, find, update, save.
           rewrite Hev, Hev3, Hev2, Hev1, <- !app_assoc.
           split; [reflexivity |].
           split; [exact Hlookup | split; [now right | split; [now right |]]].
           split; [exact Hu | split; [exact Hno | split; [exact Hns |]]].
           intros _ _. exact Hcreated.
  - (* check the hostID is valid or not *)
    destruct (doRetry_part api opFindHost s0 ltac:(discriminate))
      as (find & Hev1 & Hrun1).
    pose proof (doRetry_resultOrError api opFindHost 19 retryInterval s0 I) as Hroe.
    cbn [attempt] in Hev1, Hroe.
    change (snd (Retry 20 retryInterval (tryFindHost api) s0))
      with (doRetry (tryFindHost api) s0) in Hroe.
    change (events s0) with (@nil hostEvent) in Hev1. cbn [app] in Hev1.
    destruct (lastErr (doRetry (tryFindHost api) s0)) as [e |] eqn:Hl1.
    + exists [], [], find, [], [].
      destruct (HostIDFile store) as [file |]; cbn [fst snd app];
        rewrite Hev1, app_nil_r;
        (split; [reflexivity |]);
        (split; [now left | split; [now left | split; [now right |]]]);
        (split; [exists ""; now left | split; [exact Hnil | split; [exact I |]]]);
        apply Hvac.
    + destruct (setStatusAndSave_runs conf store api (doRetry (tryFindHost api) s0))
        as (update & save & Hev & Hu & Hno & Hns).
      { unfold resultOrError in Hroe. rewrite Hl1 in Hroe.
        intros Hnil'. apply (proj1 Hroe Hnil'). reflexivity. }
      exists [], [], find, update, save. rewrite Hev, Hev1. cbn [app].
      split; [reflexivity |].
      split; [now left | split; [now left | split; [now right |]]].
      split; [exact Hu | split; [exact Hno | split; [exact Hns |]]].
      apply Hvac.
Qed.

(** The policy holds of the whole trace of a registration. *)
Lemma registrationRuns_policy (conf : Config) (sp : hostSpecs)
    (tr : list hostEvent) :
  registrationRuns conf sp tr ->
  policyFrom 0 tr /\ forall k, (callsOfKind k tr <= attempts k)%nat.
Proof.
  intros (lookup & create & find & update & save & -> & Hl & Hc & Hf
          & [id Hu] & Hno & Hns & _).
  assert (Ksave : policyFrom 0 save).
  { intros before c after k r Hsplit Hk _. exfalso. apply (Hno k).
    exists c. split; [rewrite Hsplit; apply in_or_app; right; now left | exact Hk]. }
  split.
  - apply policy_app; [now apply (part_policy _ _ Hl) | | |].
    + apply policy_app; [now apply (part_policy _ _ Hc) | | |].
      * apply policy_app; [now apply (part_policy _ _ Hf) | | |].
        -- apply policy_app; [now apply (part_policy _ _ Hu) | exact Ksave | |
                              exact Hns].
           intros k _. apply Hno.
        -- intros k H1 H2. apply (part_kind _ _ k Hf) in H1. subst k.
           apply called_app_inv in H2. destruct H2 as [H2 | H2].
           ++ apply (part_kind _ _ _ Hu) in H2. discriminate H2.
           ++ now apply Hno in H2.
        -- apply notSleeping_app; [exact (part_notSleeping _ _ Hu) | exact Hns].
      * intros k H1 H2. apply (part_kind _ _ k Hc) in H1. subst k.
        repeat (apply called_app_inv in H2; destruct H2 as [H2 | H2]).
        -- apply (part_kind _ _ _ Hf) in H2. discriminate H2.
        -- apply (part_kind _ _ _ Hu) in H2. discriminate H2.
        -- now apply Hno in H2.
      * repeat apply notSleeping_app;
          [exact (part_notSleeping _ _ Hf) | exact (part_notSleeping _ _ Hu)
          | exact Hns].
    + intros k H1 H2. apply (part_kind _ _ k Hl) in H1. subst k.
      repeat (apply called_app_inv in H2; destruct H2 as [H2 | H2]).
      * apply (part_kind _ _ _ Hc) in H2. discriminate H2.
      * apply (part_kind _ _ _ Hf) in H2. discriminate H2.
      * apply (part_kind _ _ _ Hu) in H2. discriminate H2.
      * now apply Hno in H2.
    + repeat apply notSleeping_app;
        [exact (part_notSleeping _ _ Hc) | exact (part_notSleeping _ _ Hf)
        | exact (part_notSleeping _ _ Hu) | exact Hns].
  - intros k. rewrite !callsOfKind_app, (callsOfKind_none k save (Hno k)).
    destruct (part_calls _ _ k Hl) as [L1 L2].
    destruct (part_calls _ _ k Hc) as [C1 C2].
    destruct (part_calls _ _ k Hf) as [F1 F2].
    destruct (part_calls _ _ k Hu) as [U1 U2].
    cbn [kind attempts] in *.
    destruct k; cbn [attempts];
      rewrite ?L2, ?C2, ?F2, ?U2 by discriminate; lia.
Qed.

(** C8, as the code has it.  In the trace of [prepareHost], whatever the
    service answers:
    - a remote call answered with a client error is followed by its warning
      and then neither by a sleep nor, ever, by another call of the same
      operation;
    - a remote call answered with another error is followed by its warning,
      the sleep of the fixed spacing and the next call of the same operation
      while fewer calls of the operation were made than attempts are
      allowed, and is the last call of the operation when it was the last
      attempt allowed; the spacing is 2 seconds and the attempts are 3 for
      the lookup by custom identifier, 3 seconds and 20 for [CreateHost],
      [FindHost] and [UpdateHostStatus];
    - a call that succeeded is not made again, and no operation is called
      more often than its attempts allow;
    - if the last remote call failed, [prepareHost] returns an error made
      from that call's error; if [CreateHost], [FindHost] or
      [UpdateHostStatus] was called and never succeeded, the last remote
      call failed and [prepareHost] returns an error made from its error;
    - if the lookup by custom identifier was called and never succeeded,
      [prepareHost] goes on and calls [CreateHost]. *)
Theorem prepareHost_retry_policy (conf : Config) (store : HostIDStorage)
    (collected : hostSpecs + error) (api : API) :
  (forall before call after k e,
      snd (prepareHost conf store collected api) = before ++ call :: after ->
      kindOf call = Some k -> callError call = Some (Some e) ->
      (isClientError e = true -> stopsAfter k e after)
      /\ (isClientError e = false ->
          (S (callsOfKind k before) < attempts k)%nat -> retriesAfter k e after)
      /\ (isClientError e = false ->
          S (callsOfKind k before) = attempts k -> stopsAfter k e after))
  /\ (forall before call after k,
        snd (prepareHost conf store collected api) = before ++ call :: after ->
        kindOf call = Some k -> callError call = Some None ->
        ~ called k after)
  /\ (forall k,
        (callsOfKind k (snd (prepareHost conf store collected api))
         <= attempts k)%nat)
  /\ (forall e,
        lastAnswer (snd (prepareHost conf store collected api)) = Some e ->
        exists prefix,
          fst (prepareHost conf store collected api)
          = inr (ErrorString (prefix ++ Error e)))
  /\ (forall k,
        k <> kFindHostByCustomIdentifier ->
        called k (snd (prepareHost conf store collected api)) ->
        ~ succeeded k (snd (prepareHost conf store collected api)) ->
        exists prefix e,
          lastAnswer (snd (prepareHost conf store collected api)) = Some e
          /\ fst (prepareHost conf store collected api)
             = inr (ErrorString (prefix ++ Error e)))
  /\ (called kFindHostByCustomIdentifier
        (snd (prepareHost conf store collected api)) ->
      ~ succeeded kFindHostByCustomIdentifier
          (snd (prepareHost conf store collected api)) ->
      called kCreateHost (snd (prepareHost conf store collected api))).
Proof.
  assert (Hpol : policyFrom 0 (snd (prepareHost conf store collected api))
                 /\ forall k,
                      (callsOfKind k (snd (prepareHost conf store collected api))
                       <= attempts k)%nat).
  { destruct collected as [sp | e0].
    - exact (registrationRuns_policy conf sp _ (prepareHost_runs conf store sp api)).
    - split; [| intros k; cbn; lia].
      intros before c after k r Hsplit. destruct before; discriminate Hsplit. }
  destruct Hpol as [Hpol Hbound].
  split; [| split; [| split; [exact Hbound | split; [| split]]]].
  - intros before call after k e Hsplit Hk Hc.
    specialize (Hpol before call after k (Some e) Hsplit Hk Hc).
    cbn [Nat.add] in Hpol. split; [| split].
    + intros He. now rewrite He in Hpol.
    + intros He Hlt. rewrite He in Hpol. cbn [orb] in Hpol.
      now rewrite (proj2 (Nat.leb_gt _ _) Hlt) in Hpol.
    + intros He Heq. rewrite He in Hpol. cbn [orb] in Hpol.
      now rewrite (proj2 (Nat.leb_le _ _) (Nat.eq_le_incl _ _ (eq_sym Heq))) in Hpol.
  - intros before call after k Hsplit Hk Hc.
    exact (Hpol before call after k None Hsplit Hk Hc).
  - intros e He.
    destruct (prepareHost_exitOk conf store collected api) as [H _].
    exact (H e He).
  - intros k Hk Hcalled Hnever.
    destruct (prepareHost_exitOk conf store collected api) as (H & _ & [Hcs | [e He]]).
    + now elim Hnever; apply Hcs.
    + destruct (H e He) as [prefix Hp]. now exists prefix, e.
  - destruct collected as [sp | e0];
      [| intros H; now apply called_nil in H].
    destruct (prepareHost_runs conf store sp api)
      as (lookup & create & find & update & save & -> & Hl & Hc & Hf
          & [id Hu] & Hno & Hns & Hgo).
    intros Hcalled Hnever.
    assert (Hin : called kFindHostByCustomIdentifier lookup).
    { repeat (apply called_app_inv in Hcalled; destruct Hcalled as [Hcalled | Hcalled]);
        [ exact Hcalled
        | apply (part_kind _ _ _ Hc) in Hcalled; discriminate Hcalled
        | apply (part_kind _ _ _ Hf) in Hcalled; discriminate Hcalled
        | apply (part_kind _ _ _ Hu) in Hcalled; discriminate Hcalled
        | now apply Hno in Hcalled ]. }
    apply called_app. right. apply called_app. left.
    apply Hgo; [exact Hin |].
    intros (ev & Hev & H). apply Hnever. exists ev.
    split; [apply in_or_app; now left | exact H].
Qed.

Lemma prepareHost_retry_policy_witness :
  retriesAfter kFindHostByCustomIdentifier serverError
    (skipn 1 (snd (prepareHost conf60 store_empty (inl specs_cloud) api_lookup_down)))
  /\ stopsAfter kFindHostByCustomIdentifier serverError
       (skipn 7 (snd (prepareHost conf60 store_empty (inl specs_cloud)
                        api_lookup_down)))
  /\ stopsAfter kFindHost unauthorized
       (skipn 1 (snd (prepareHost conf60 store_abc (inl specs_plain)
                        api_unauthorized)))
  /\ retriesAfter kCreateHost serverError
       (skipn 9 (snd (prepareHost conf60 store_empty (inl specs_cloud) api_down)))
  /\ called kCreateHost
       (snd (prepareHost conf60 store_empty (inl specs_cloud) api_lookup_down))
  /\ exists prefix e,
       lastAnswer (snd (prepareHost conf60 store_empty (inl specs_cloud) api_down))
       = Some e
       /\ fst (prepareHost conf60 store_empty (inl specs_cloud) api_down)
          = inr (ErrorString (prefix ++ Error e)).
Proof.
  pose proof (prepareHost_retry_policy conf60 store_empty (inl specs_cloud)
                api_lookup_down) as (Hlookup & _ & _ & _ & _ & Hgo).
  pose proof (prepareHost_retry_policy conf60 store_abc (inl specs_plain)
                api_unauthorized) as (Hfind & _).
  pose proof (prepareHost_retry_policy conf60 store_empty (inl specs_cloud)
                api_down) as (Hcreate & _ & _ & _ & Hfatal & _).
  set (lookupDown := snd (prepareHost conf60 store_empty (inl specs_cloud)
                            api_lookup_down)) in *.
  set (refused := snd (prepareHost conf60 store_abc (inl specs_plain)
                         api_unauthorized)) in *.
  set (down := snd (prepareHost conf60 store_empty (inl specs_cloud) api_down))
    in *.
  split; [| split; [| split; [| split; [| split]]]].
  - apply (proj1 (proj2 (Hlookup [] (nth 0 lookupDown (Sleep 0))
                           (skipn 1 lookupDown) kFindHostByCustomIdentifier
                           serverError eq_refl eq_refl eq_refl)) eq_refl).
    vm_compute. lia.
  - apply (proj2 (proj2 (Hlookup (firstn 6 lookupDown) (nth 6 lookupDown (Sleep 0))
                           (skipn 7 lookupDown) kFindHostByCustomIdentifier
                           serverError eq_refl eq_refl eq_refl)) eq_refl).
    reflexivity.
  - exact (proj1 (Hfind [] (nth 0 refused (Sleep 0)) (skipn 1 refused) kFindHost
                    unauthorized eq_refl eq_refl eq_refl) eq_refl).
  - apply (proj1 (proj2 (Hcreate (firstn 8 down) (nth 8 down (Sleep 0))
                           (skipn 9 down) kCreateHost serverError
                           eq_refl eq_refl eq_refl)) eq_refl).
    vm_compute. lia.
  - apply Hgo.
    + eexists. split; [vm_compute; left; reflexivity | reflexivity].
    + intros (ev & Hin & Hk & Herr). vm_compute in Hin.
      repeat (destruct Hin as [<- | Hin]; [discriminate |]). exact Hin.
  - apply (Hfatal kCreateHost).
    + discriminate.
    + eexists. split; [vm_compute; do 8 right; left; reflexivity | reflexivity].
    + intros (ev & Hin & Hk & Herr). vm_compute in Hin.
      repeat (destruct Hin as [<- | Hin]; [discriminate |]). exact Hin.
Defined.
